(** * SugarLog: the asynchronous delivery engine

    A shallow embedding of the bounded queue ([thread_safe_queue.hpp]), the
    sink decorators ([log_sink.hpp]) and the asynchronous logger
    ([async_logger.hpp]), followed by the properties checked against them.

    Conventions.
    - [size_t] values are [N]; the one place where the code adds two of them
      ([get_drop_rate]) and the loop counters are reduced modulo [2^64].
    - Every queue method takes the queue mutex for its whole body, so a
      method is one atomic transition of the queue state.  A method that
      sleeps on a condition variable whose predicate is false has the
      outcome [Blocked]: the caller is parked and the state is unchanged.
    - A C++ exception leaving a sink is the outcome [Raised]; it carries the
      output produced before the throw.
    - A worker thread is followed from one access to shared state to the
      next, and the steps of the threads and the calls of the program are
      taken in any order.  An exception that leaves a thread function ends
      the process.
    - Whether [reserve] gets its memory and what the clock says are answers
      from outside the program; a step or a call takes them as arguments.
    - The container of [PriorityQueue] is the binary heap that
      [std::priority_queue] keeps in its vector. *)

From Stdlib Require Import List Bool Arith NArith QArith Lia String.
Import ListNotations.

Local Open Scope N_scope.

(** ** log_level.hpp *)

Inductive LogLevel : Type :=
  | TRACE | DEBUG | INFO | WARN | ERROR | FATAL | OFF.

(** [static_cast<uint8_t>(level)] *)
Definition level_u8 (l : LogLevel) : N :=
  match l with
  | TRACE => 0 | DEBUG => 1 | INFO => 2 | WARN => 3
  | ERROR => 4 | FATAL => 5 | OFF => 6
  end.

(** [operator>=(LogLevel lhs, LogLevel rhs)] *)
Definition level_ge (lhs rhs : LogLevel) : bool :=
  level_u8 rhs <=? level_u8 lhs.

(** ** log_message.hpp *)

Record LogMessage : Type := mkLogMessage {
  level : LogLevel;
  message : string;
  file : string;
  line : N;
  function : string;
  timestamp : N;
  thread_id : N
}.

(** ** thread_safe_queue.hpp *)

Definition size_t_wrap (n : N) : N := n mod 2 ^ 64.

(** What a call that may sleep on a condition variable does. *)
Inductive outcome (A : Type) : Type :=
  | Done (a : A)
  | Blocked.
Arguments Done {A} a.
Arguments Blocked {A}.

(** [cv.wait(lock, pred)] followed by the rest of the method. *)
Definition wait {A : Type} (pred : bool) (rest : outcome A) : outcome A :=
  if pred then rest else Blocked.

Module Queue.
Section ThreadSafeQueue.

Variable T : Type.

(** [BatchQueue<T>] with the members it inherits from
    [ThreadSafeQueue<T>]; the front of [queue_] is the head of the list. *)
Record t : Type := mk {
  queue_ : list T;
  max_size_ : N;
  shutdown_ : bool;
  batch_size_ : N
}.

(** [BatchQueue(max_size, batch_size = 100)] *)
Definition make (max_size batch_size : N) : t :=
  mk [] max_size false batch_size.

Definition set_queue (q : t) (l : list T) : t :=
  mk l (max_size_ q) (shutdown_ q) (batch_size_ q).

(** [queue_.size()] *)
Definition size (q : t) : N := N.of_nat (List.length (queue_ q)).

(** [queue_.empty()] *)
Definition empty (q : t) : bool :=
  match queue_ q with [] => true | _ :: _ => false end.

Definition full (q : t) : bool :=
  if max_size_ q =? 0 then false else max_size_ q <=? size q.

Definition capacity (q : t) : N := max_size_ q.

Definition is_shutdown (q : t) : bool := shutdown_ q.

(** [queue_.push(std::move(item))] *)
Definition enqueue (q : t) (item : T) : t :=
  set_queue q (queue_ q ++ [item]).

(** [bool push(T&& item)] *)
Definition push (q : t) (item : T) : outcome (bool * t) :=
  if shutdown_ q then Done (false, q)
  else if 0 <? max_size_ q then
    wait ((size q <? max_size_ q) || shutdown_ q)
         (if shutdown_ q then Done (false, q)
          else Done (true, enqueue q item))
  else Done (true, enqueue q item).

(** [bool try_push(T&& item)] *)
Definition try_push (q : t) (item : T) : bool * t :=
  if shutdown_ q then (false, q)
  else if (0 <? max_size_ q) && (max_size_ q <=? size q) then (false, q)
  else (true, enqueue q item).

(** [item = std::move(queue_.front()); queue_.pop();] on a queue known to
    be non-empty.  [None] is C++ undefined behaviour and is never reached
    from the methods below. *)
Definition take_front (q : t) : option (T * t) :=
  match queue_ q with
  | [] => None
  | x :: rest => Some (x, set_queue q rest)
  end.

(** [bool pop(T& item)]: [Some x] is [true] with [item = x]; [None] is
    [false] with [item] untouched. *)
Definition pop (q : t) : outcome (option T * t) :=
  wait (negb (empty q) || shutdown_ q)
       (if shutdown_ q && empty q then Done (None, q)
        else match take_front q with
             | Some (x, q') => Done (Some x, q')
             | None => Done (None, q)
             end).

(** [bool try_pop(T& item)] *)
Definition try_pop (q : t) : option T * t :=
  if empty q then (None, q)
  else match take_front q with
       | Some (x, q') => (Some x, q')
       | None => (None, q)
       end.

(** The loop of [clear]: [while (!queue_.empty()) queue_.pop();] *)
Fixpoint clear_loop (l : list T) : list T :=
  match l with
  | [] => []
  | _ :: rest => clear_loop rest
  end.

Definition clear (q : t) : t := set_queue q (clear_loop (queue_ q)).

Definition shutdown (q : t) : t :=
  mk (queue_ q) (max_size_ q) true (batch_size_ q).

Definition set_max_size (q : t) (max_size : N) : t :=
  mk (queue_ q) max_size (shutdown_ q) (batch_size_ q).

(** The loop shared by the three batch methods:
    [while (!queue_.empty() && count < max_items) {
       batch.push_back(std::move(queue_.front())); queue_.pop(); count++; }]
    It returns the remaining queue, the batch and the count. *)
Fixpoint batch_loop (l batch : list T) (count max_items : N)
  : list T * list T * N :=
  match l with
  | [] => (l, batch, count)
  | x :: rest =>
      if count <? max_items
      then batch_loop rest (batch ++ [x]) (size_t_wrap (count + 1)) max_items
      else (l, batch, count)
  end.

(** [max_items == 0 ? batch_size_ : max_items] *)
Definition effective_max (q : t) (max_items : N) : N :=
  if max_items =? 0 then batch_size_ q else max_items.

(** What a batch method hands back: the count it returns, or the exception
    that leaves it when [batch.reserve(max_items)] throws. *)
Inductive counted : Type :=
  | Count (n : N)
  | ReserveThrows.

(** [size_t pop_batch(Batch& batch, size_t max_items = 0)]; the result is
    the returned count, the contents of [batch] and the queue.
    [batch.clear(); batch.reserve(max_items);] comes before the loop;
    [reserved] is whether the reservation goes through: [reserve] throws
    [std::length_error] when [max_items] exceeds the vector's [max_size()]
    (then [reserved] can only be false) and [std::bad_alloc] when the
    allocator has no such block.  The exception leaves the method, with the
    batch cleared and the queue untouched. *)
Definition pop_batch (q : t) (batch : list T) (max_items : N) (reserved : bool)
  : outcome (counted * list T * t) :=
  let max_items := effective_max q max_items in
  wait (negb (empty q) || shutdown_ q)
       (if shutdown_ q && empty q then Done (Count 0, batch, q)
        else if reserved then
          let '(rest, batch', count) := batch_loop (queue_ q) [] 0 max_items in
          Done (Count count, batch', set_queue q rest)
        else Done (ReserveThrows, [], q)).

(** [size_t try_pop_batch(Batch& batch, size_t max_items = 0)] *)
Definition try_pop_batch (q : t) (batch : list T) (max_items : N)
  (reserved : bool) : counted * list T * t :=
  let max_items := effective_max q max_items in
  if empty q then (Count 0, batch, q)
  else if reserved then
    let '(rest, batch', count) := batch_loop (queue_ q) [] 0 max_items in
    (Count count, batch', set_queue q rest)
  else (ReserveThrows, [], q).

(** *** Running a sequence of calls *)

(** [n] consecutive calls of [pop]; [None] as soon as one of them blocks
    or returns [false]. *)
Fixpoint pops (n : nat) (q : t) : option (list T * t) :=
  match n with
  | O => Some ([], q)
  | S n' =>
      match pop q with
      | Done (Some x, q') =>
          match pops n' q' with
          | Some (xs, q'') => Some (x :: xs, q'')
          | None => None
          end
      | _ => None
      end
  end.

(** The operations of the queue that touch the buffer or the flag; a batch
    method comes with the answer its reservation gets. *)
Inductive op : Type :=
  | OpPush (item : T)
  | OpTryPush (item : T)
  | OpPop
  | OpTryPop
  | OpPopBatch (max_items : N) (reserved : bool)
  | OpTryPopBatch (max_items : N) (reserved : bool)
  | OpClear
  | OpShutdown.

(** The queue after one operation (unchanged when the caller blocks). *)
Definition step (q : t) (o : op) : t :=
  match o with
  | OpPush x => match push q x with Done (_, q') => q' | Blocked => q end
  | OpTryPush x => snd (try_push q x)
  | OpPop => match pop q with Done (_, q') => q' | Blocked => q end
  | OpTryPop => snd (try_pop q)
  | OpPopBatch n reserved =>
      match pop_batch q [] n reserved with
      | Done (_, q') => q'
      | Blocked => q
      end
  | OpTryPopBatch n reserved => snd (try_pop_batch q [] n reserved)
  | OpClear => clear q
  | OpShutdown => shutdown q
  end.

Definition run (q : t) (os : list op) : t := fold_left step os q.

(** The capacity bound of a bounded queue. *)
Definition within_capacity (q : t) : Prop :=
  0 < max_size_ q -> size q <= max_size_ q.

End ThreadSafeQueue.

Arguments mk {T}.
Arguments queue_ {T}.
Arguments max_size_ {T}.
Arguments shutdown_ {T}.
Arguments batch_size_ {T}.
Arguments make {T}.
Arguments set_queue {T}.
Arguments size {T}.
Arguments empty {T}.
Arguments full {T}.
Arguments capacity {T}.
Arguments is_shutdown {T}.
Arguments enqueue {T}.
Arguments push {T}.
Arguments try_push {T}.
Arguments take_front {T}.
Arguments pop {T}.
Arguments try_pop {T}.
Arguments clear {T}.
Arguments shutdown {T}.
Arguments set_max_size {T}.
Arguments batch_loop {T}.
Arguments effective_max {T}.
Arguments pop_batch {T}.
Arguments try_pop_batch {T}.
Arguments pops {T}.
Arguments step {T}.
Arguments run {T}.
Arguments within_capacity {T}.
Arguments OpPush {T}.
Arguments OpTryPush {T}.
Arguments OpPop {T}.
Arguments OpTryPop {T}.
Arguments OpPopBatch {T}.
Arguments OpTryPopBatch {T}.
Arguments OpClear {T}.
Arguments OpShutdown {T}.

End Queue.

(** ** log_sink.hpp *)

(** What the backends have put out, oldest first.  A backend (console, file)
    is known here by an identifier; its formatting and I/O are not part of
    the engine. *)
Inductive event : Type :=
  | Wrote (sink_id : N) (m : LogMessage)
  | Flushed (sink_id : N).

Definition World : Type := list event.

(** A [void] sink method either returns or throws. *)
Inductive result : Type :=
  | Ok (w : World)
  | Raised (w : World).

(** Sequencing of two statements: the second runs only if the first
    returned. *)
Definition and_then (r : result) (k : World -> result) : result :=
  match r with
  | Ok w => k w
  | Raised w => Raised w
  end.

Definition output (r : result) : World :=
  match r with Ok w => w | Raised w => w end.

Definition returned (r : result) : bool :=
  match r with Ok _ => true | Raised _ => false end.

(** The sink classes of the library.  [BackendSink] stands for a concrete
    subclass that overrides only [log] and [flush]: its [log] throws on the
    records selected by [log_throws] and writes the others.  A child of a
    [CompositeLogSink] may be a null handle ([None]); the handles of a
    [FilterLogSink] and of the logger are dereferenced unchecked and are
    taken non-null. *)
#[warnings="-register-all"] Inductive LogSink : Type :=
  | BackendSink (id : N) (level_ : LogLevel)
                (log_throws : LogMessage -> bool) (flush_throws : bool)
  | CompositeLogSink (level_ : LogLevel) (sinks_ : list (option LogSink))
  | FilterLogSink (level_ : LogLevel) (sink_ : LogSink)
                  (filter_ : option (LogMessage -> bool)).

(** [virtual LogLevel get_level() const] *)
Fixpoint get_level (s : LogSink) : LogLevel :=
  match s with
  | BackendSink _ level_ _ _ => level_
  | CompositeLogSink level_ _ => level_
  | FilterLogSink _ sink_ _ => get_level sink_
  end.

(** [virtual bool should_log(LogLevel level) const] *)
Fixpoint should_log (s : LogSink) (l : LogLevel) : bool :=
  match s with
  | BackendSink _ level_ _ _ => level_ge l level_
  | CompositeLogSink level_ _ => level_ge l level_
  | FilterLogSink _ sink_ _ => should_log sink_ l
  end.

(** [virtual void log(const LogMessage& message)] *)
Fixpoint sink_log (s : LogSink) (m : LogMessage) (w : World) : result :=
  match s with
  | BackendSink id _ log_throws _ =>
      if log_throws m then Raised w else Ok (w ++ [Wrote id m])
  | CompositeLogSink _ sinks_ =>
      (fix each (cs : list (option LogSink)) (w : World) : result :=
         match cs with
         | [] => Ok w
         | Some c :: rest =>
             if should_log c (level m)
             then and_then (sink_log c m w) (each rest)
             else each rest w
         | None :: rest => each rest w
         end) sinks_ w
  | FilterLogSink _ sink_ filter_ =>
      match filter_ with
      | Some f => if f m then sink_log sink_ m w else Ok w
      | None => Ok w
      end
  end.

(** [virtual void flush()] *)
Fixpoint sink_flush (s : LogSink) (w : World) : result :=
  match s with
  | BackendSink id _ _ flush_throws =>
      if flush_throws then Raised w else Ok (w ++ [Flushed id])
  | CompositeLogSink _ sinks_ =>
      (fix each (cs : list (option LogSink)) (w : World) : result :=
         match cs with
         | [] => Ok w
         | Some c :: rest => and_then (sink_flush c w) (each rest)
         | None :: rest => each rest w
         end) sinks_ w
  | FilterLogSink _ sink_ _ => sink_flush sink_ w
  end.

(** ** async_logger.hpp *)

Record AsyncLoggerConfig : Type := mkConfig {
  queue_size : N;
  batch_size : N;
  flush_interval_ms : N;
  worker_threads : N;
  auto_flush : bool;
  memory_pool_size : N;
  max_memory_pool_blocks : N;
  enable_performance_monitoring : bool
}.

(** [AsyncLoggerConfig{}] *)
Definition default_config : AsyncLoggerConfig :=
  mkConfig 10000 100 1000 1 true 1024 1000 false.

(** A [std::thread] handle.  It is joinable from the moment the thread is
    spawned until [join] (or [detach]) is called on it, whether or not the
    thread function has returned. *)
Record thread : Type := mkThread { joinable : bool }.

Record AsyncLogger : Type := mkLogger {
  config_ : AsyncLoggerConfig;
  queue_ : Queue.t LogMessage;
  sinks_ : list LogSink;
  workers_ : list thread;
  running_ : bool;
  stop_requested_ : bool;
  dropped_count_ : N
}.

(** [AsyncLogger(const AsyncLoggerConfig& config)] *)
Definition new_logger (config : AsyncLoggerConfig) : AsyncLogger :=
  mkLogger config (Queue.make (queue_size config) 100) [] [] false false 0.

Definition set_logger_queue (e : AsyncLogger) (q : Queue.t LogMessage)
  : AsyncLogger :=
  mkLogger (config_ e) q (sinks_ e) (workers_ e) (running_ e)
           (stop_requested_ e) (dropped_count_ e).

(** [for (i = 0; i < worker_threads; ++i) workers_.emplace_back(...)] *)
Definition spawn_workers (n : N) (ws : list thread) : list thread :=
  N.iter n (fun ws => ws ++ [mkThread true]) ws.

Definition start (e : AsyncLogger) : AsyncLogger :=
  if running_ e then e
  else mkLogger (config_ e) (queue_ e) (sinks_ e)
                (spawn_workers (worker_threads (config_ e)) (workers_ e))
                true false (dropped_count_ e).

(** [bool log(LogMessage message)] *)
Definition log (e : AsyncLogger) (m : LogMessage) : bool * AsyncLogger :=
  if negb (running_ e) then (false, e)
  else let '(ok, q) := Queue.try_push (queue_ e) m in
       (ok, set_logger_queue e q).

Definition add_sink (e : AsyncLogger) (s : LogSink) : AsyncLogger :=
  mkLogger (config_ e) (queue_ e) (sinks_ e ++ [s]) (workers_ e)
           (running_ e) (stop_requested_ e) (dropped_count_ e).

Definition clear_sinks (e : AsyncLogger) : AsyncLogger :=
  mkLogger (config_ e) (queue_ e) [] (workers_ e)
           (running_ e) (stop_requested_ e) (dropped_count_ e).

(** The loop of [flush]: [for (auto& sink : sinks_) sink->flush();] *)
Fixpoint flush_loop (sinks : list LogSink) (w : World) : result :=
  match sinks with
  | [] => Ok w
  | s :: rest => and_then (sink_flush s w) (flush_loop rest)
  end.

Definition flush (e : AsyncLogger) (w : World) : result :=
  flush_loop (sinks_ e) w.

Definition get_queue_size (e : AsyncLogger) : N := Queue.size (queue_ e).
Definition get_queue_capacity (e : AsyncLogger) : N :=
  Queue.capacity (queue_ e).
Definition get_dropped_count (e : AsyncLogger) : N := dropped_count_ e.
Definition is_running (e : AsyncLogger) : bool := running_ e.

(** [double get_drop_rate() const].  The model keeps the exact quotient that
    the [double] division rounds. *)
Definition get_drop_rate (e : AsyncLogger) : Q :=
  let total := size_t_wrap (get_queue_size e + get_dropped_count e) in
  if 0 <? total
  then (inject_Z (Z.of_N (get_dropped_count e)) / inject_Z (Z.of_N total))%Q
  else 0%Q.

(** The inner loop of [process_batch], which is also the body of
    [process_message]:
    [for (auto& sink : sinks_) if (sink->should_log(msg.level())) sink->log(msg);] *)
Fixpoint process_message (sinks : list LogSink) (msg : LogMessage) (w : World)
  : result :=
  match sinks with
  | [] => Ok w
  | s :: rest =>
      and_then (if should_log s (level msg) then sink_log s msg w else Ok w)
               (process_message rest msg)
  end.

(** [for (const auto& msg : batch) for (auto& sink : sinks_) ...] *)
Fixpoint process_batch (sinks : list LogSink) (batch : list LogMessage)
  (w : World) : result :=
  match batch with
  | [] => Ok w
  | msg :: rest =>
      and_then (process_message sinks msg w) (process_batch sinks rest)
  end.

(** *** The worker thread, a whole turn at a time

    The definitions of this part take a turn of the worker's loop, and its
    closing loop, as one step each.  They describe a worker whose vector is
    reserved and that no other thread disturbs between two of its accesses
    to the queue (lemmas [worker_iteration_is_a_turn_alone] and
    [join_worker_is_the_closing_run]).  They serve where the order in which
    the steps of several threads are taken plays no part: for what a call
    keeps, and for whether [stop] returns.  What becomes of the records
    when several threads run is stated on the step-by-step worker further
    down. *)

(** The collecting loop of [worker_thread_func]:
    [while (collected < config_.batch_size && !stop_requested_) {
       if (queue_.try_pop(msg)) { batch.push_back(std::move(msg)); collected++; }
       else { sleep_for(1ms); break; } }]
    on the buffer [l] of the queue, with no other thread at the queue
    between two [try_pop]s; it returns the buffer left and the batch. *)
Fixpoint collect_loop (l batch : list LogMessage) (collected : N)
  (batch_size : N) (stop_requested : bool) : list LogMessage * list LogMessage :=
  match l with
  | [] => (l, batch)
  | msg :: rest =>
      if (collected <? batch_size) && negb stop_requested
      then collect_loop rest (batch ++ [msg]) (size_t_wrap (collected + 1))
                        batch_size stop_requested
      else (l, batch)
  end.

(** One turn of [while (!stop_requested_) { ... }] in [worker_thread_func],
    after [batch.reserve(config_.batch_size)] has succeeded.  [flush_due]
    is what [should_auto_flush()] answers from the clock. *)
Definition worker_iteration (e : AsyncLogger) (flush_due : bool) (w : World)
  : AsyncLogger * result :=
  let '(rest, batch) :=
    collect_loop (Queue.queue_ (queue_ e)) [] 0 (batch_size (config_ e))
                 (stop_requested_ e) in
  let e' := set_logger_queue e (Queue.set_queue (queue_ e) rest) in
  (e',
   and_then (match batch with
             | [] => Ok w
             | _ :: _ => process_batch (sinks_ e) batch w
             end)
            (fun w' =>
               if auto_flush (config_ e) && flush_due
               then flush e' w' else Ok w')).

(** The closing loop of [worker_thread_func]:
    [while (queue_.try_pop(remaining_msg)) process_message(remaining_msg);] *)
Fixpoint drain_loop (sinks : list LogSink) (l : list LogMessage) (w : World)
  : list LogMessage * result :=
  match l with
  | [] => ([], Ok w)
  | msg :: rest =>
      match process_message sinks msg w with
      | Ok w' => drain_loop sinks rest w'
      | Raised w' => (rest, Raised w')
      end
  end.

(** A call on the logger either returns or ends the process through
    [std::terminate]. *)
Inductive completion : Type :=
  | Returns (e : AsyncLogger) (w : World)
  | Terminates (w : World).

(** [worker.join()] on one handle while [stop_requested_] is set: the caller
    waits for the thread function to return.  The worker is taken at the
    head of its loop and alone with the queue, so what it still does is the
    closing loop over the whole queue; a worker that is in the middle of a
    turn, or that shares the queue with others, is followed step by step
    further down.  An exception that leaves the thread function ends the
    process. *)
Definition join_worker (e : AsyncLogger) (w : World) : completion :=
  let '(rest, r) := drain_loop (sinks_ e) (Queue.queue_ (queue_ e)) w in
  let e' := set_logger_queue e (Queue.set_queue (queue_ e) rest) in
  match r with
  | Ok w' => Returns e' w'
  | Raised w' => Terminates w'
  end.

Definition set_workers (e : AsyncLogger) (ws : list thread) : AsyncLogger :=
  mkLogger (config_ e) (queue_ e) (sinks_ e) ws (running_ e)
           (stop_requested_ e) (dropped_count_ e).

(** [for (auto& worker : workers_) if (worker.joinable()) worker.join();]
    [done] are the handles already visited.  The workers are taken one
    after the other, each doing its closing loop when it is joined. *)
Fixpoint join_loop (done todo : list thread) (e : AsyncLogger) (w : World)
  : completion :=
  match todo with
  | [] => Returns (set_workers e done) w
  | t :: rest =>
      if joinable t
      then match join_worker e w with
           | Returns e' w' => join_loop (done ++ [mkThread false]) rest e' w'
           | Terminates w' => Terminates w'
           end
      else join_loop (done ++ [t]) rest e w
  end.

(** [~thread()] calls [std::terminate] on a handle that is still joinable;
    [workers_.clear()] destroys every handle. *)
Definition destroy_threads (ws : list thread) : bool :=
  forallb (fun t => negb (joinable t)) ws.

(** [void stop(bool wait_for_completion = true)] *)
Definition stop (e : AsyncLogger) (wait_for_completion : bool) (w : World)
  : completion :=
  if negb (running_ e) then Returns e w
  else
    let e1 := mkLogger (config_ e) (queue_ e) (sinks_ e) (workers_ e)
                       (running_ e) true (dropped_count_ e) in
    let joined :=
      if wait_for_completion then join_loop [] (workers_ e1) e1 w
      else Returns e1 w in
    match joined with
    | Terminates w' => Terminates w'
    | Returns e2 w' =>
        if destroy_threads (workers_ e2)
        then Returns (mkLogger (config_ e2) (queue_ e2) (sinks_ e2) []
                               false (stop_requested_ e2) (dropped_count_ e2))
                     w'
        else Terminates w'
    end.

(** *** The worker thread, step by step

    [worker_iteration], [drain_loop] and [join_worker] above take a worker
    that is alone with the queue and has its vector reserved.  The
    definitions below make no such assumption: they follow
    [worker_thread_func] from one access to shared
    state to the next (the flag [stop_requested_], the queue under its
    mutex, the sinks under [sinks_mutex_]), so that the steps of several
    workers and the calls of other threads can be taken in any order. *)

(** Where a worker stands in [worker_thread_func], with the locals that
    matter there:
    - [AtReserve]: the thread has started; next is
      [batch.reserve(config_.batch_size)];
    - [AtLoopTest]: at [while (!stop_requested_)];
    - [AtCollectTest]: at
      [while (collected < config_.batch_size && !stop_requested_)];
    - [AtTryPop]: at [if (queue_.try_pop(msg))] inside that loop;
    - [AtProcessBatch]: at [if (!batch.empty()) process_batch(batch);]
    - [AtAutoFlush]: at
      [if (config_.auto_flush && should_auto_flush()) flush();]
    - [AtDrainPop]: at [while (queue_.try_pop(remaining_msg))];
    - [AtProcessMessage]: at [process_message(remaining_msg);]
    - [AtReturn]: the thread function has returned. *)
Inductive worker : Type :=
  | AtReserve
  | AtLoopTest
  | AtCollectTest (batch : list LogMessage) (collected : N)
  | AtTryPop (batch : list LogMessage) (collected : N)
  | AtProcessBatch (batch : list LogMessage)
  | AtAutoFlush
  | AtDrainPop
  | AtProcessMessage (remaining_msg : LogMessage)
  | AtReturn.

(** What a step gets from outside the logger: whether the allocator grants
    the reservation ([reserve] throws [std::length_error] above the
    vector's [max_size()], [std::bad_alloc] without memory), and what
    [should_auto_flush()] answers from the clock. *)
Record environment : Type := mkEnvironment {
  reserve_succeeds : bool;
  interval_elapsed : bool
}.

(** A step leads to the next point, or an exception leaves the thread
    function, which has no handler: [std::terminate] ends the process. *)
Inductive progress : Type :=
  | Proceeds (e : AsyncLogger) (t : worker) (w : World)
  | Escapes (w : World).

Definition worker_step (e : AsyncLogger) (t : worker) (env : environment)
  (w : World) : progress :=
  match t with
  | AtReserve =>
      if reserve_succeeds env then Proceeds e AtLoopTest w else Escapes w
  | AtLoopTest =>
      if stop_requested_ e then Proceeds e AtDrainPop w
      else Proceeds e (AtCollectTest [] 0) w
  | AtCollectTest batch collected =>
      if (collected <? batch_size (config_ e)) && negb (stop_requested_ e)
      then Proceeds e (AtTryPop batch collected) w
      else Proceeds e (AtProcessBatch batch) w
  | AtTryPop batch collected =>
      match Queue.try_pop (queue_ e) with
      | (Some msg, q) =>
          Proceeds (set_logger_queue e q)
                   (AtCollectTest (batch ++ [msg]) (size_t_wrap (collected + 1)))
                   w
      | (None, _) => Proceeds e (AtProcessBatch batch) w
      end
  | AtProcessBatch batch =>
      match (match batch with
             | [] => Ok w
             | _ :: _ => process_batch (sinks_ e) batch w
             end) with
      | Ok w' => Proceeds e AtAutoFlush w'
      | Raised w' => Escapes w'
      end
  | AtAutoFlush =>
      if auto_flush (config_ e) && interval_elapsed env
      then match flush e w with
           | Ok w' => Proceeds e AtLoopTest w'
           | Raised w' => Escapes w'
           end
      else Proceeds e AtLoopTest w
  | AtDrainPop =>
      match Queue.try_pop (queue_ e) with
      | (Some msg, q) => Proceeds (set_logger_queue e q) (AtProcessMessage msg) w
      | (None, _) => Proceeds e AtReturn w
      end
  | AtProcessMessage msg =>
      match process_message (sinks_ e) msg w with
      | Ok w' => Proceeds e AtDrainPop w'
      | Raised w' => Escapes w'
      end
  | AtReturn => Proceeds e AtReturn w
  end.

(** A worker that takes several steps in a row while no other thread
    moves; [envs] are the answers it gets, one for each step. *)
Fixpoint run_alone (envs : list environment) (e : AsyncLogger) (t : worker)
  (w : World) : progress :=
  match envs with
  | [] => Proceeds e t w
  | env :: rest =>
      match worker_step e t env w with
      | Proceeds e' t' w' => run_alone rest e' t' w'
      | Escapes w' => Escapes w'
      end
  end.

(** The worker threads of a logger are kept as a list, one entry for each
    handle of [workers_]; [set_thread i t ts] is [ts] with the entry of
    thread [i] replaced. *)
Fixpoint set_thread (i : nat) (t : worker) (ts : list worker) : list worker :=
  match ts, i with
  | [], _ => []
  | _ :: rest, O => t :: rest
  | t0 :: rest, S i' => t0 :: set_thread i' t rest
  end.

(** *** The dispatch rule in the words of the specification

    "for each registered sink in insertion order, if
    [record.level >= sink.threshold], invoke the sink's write operation",
    record by record. *)
Definition accepts (msg : LogMessage) (s : LogSink) : bool :=
  level_ge (level msg) (get_level s).

Definition dispatch_plan (sinks : list LogSink) (batch : list LogMessage)
  : list (LogSink * LogMessage) :=
  flat_map (fun msg => map (fun s => (s, msg)) (filter (accepts msg) sinks))
           batch.

(** The writes of a plan, one after the other, up to the first that
    throws. *)
Fixpoint run_plan (plan : list (LogSink * LogMessage)) (w : World) : result :=
  match plan with
  | [] => Ok w
  | (s, msg) :: rest => and_then (sink_log s msg w) (run_plan rest)
  end.

(** *** Sample data *)

Definition record_at (l : LogLevel) (text : string) : LogMessage :=
  mkLogMessage l text "main.cpp" 1 "main" 0 0.

Definition never (_ : LogMessage) : bool := false.
Definition always (_ : LogMessage) : bool := true.

(** * Further parts of the library *)

From Stdlib Require Import Sorting.Sorted Sorting.Permutation ZArith ZifyNat.

(** ** log_level.hpp: names and comparisons *)

(** [operator>], [operator<=] and [operator<] on [LogLevel] *)
Definition level_gt (lhs rhs : LogLevel) : bool :=
  level_u8 rhs <? level_u8 lhs.
Definition level_le (lhs rhs : LogLevel) : bool :=
  level_u8 lhs <=? level_u8 rhs.
Definition level_lt (lhs rhs : LogLevel) : bool :=
  level_u8 lhs <? level_u8 rhs.

(** [std::string to_string(LogLevel level)] *)
Definition to_string (l : LogLevel) : string :=
  match l with
  | TRACE => "TRACE" | DEBUG => "DEBUG" | INFO => "INFO" | WARN => "WARN"
  | ERROR => "ERROR" | FATAL => "FATAL" | OFF => "OFF"
  end%string.

(** [std::string to_short_string(LogLevel level)] *)
Definition to_short_string (l : LogLevel) : string :=
  match l with
  | TRACE => "T" | DEBUG => "D" | INFO => "I" | WARN => "W"
  | ERROR => "E" | FATAL => "F" | OFF => "O"
  end%string.

(** [::toupper] on one character, in the "C" locale: the letters [a]..[z]
    (codes 97..122) move down by 32, every other character is kept. *)
Definition toupper (c : Ascii.ascii) : Ascii.ascii :=
  let n := Ascii.N_of_ascii c in
  if (97 <=? n) && (n <=? 122) then Ascii.ascii_of_N (n - 32) else c.

(** [std::transform(upper.begin(), upper.end(), upper.begin(), ::toupper)] *)
Fixpoint to_upper (s : string) : string :=
  match s with
  | EmptyString => EmptyString
  | String c rest => String (toupper c) (to_upper rest)
  end.

(** A function that returns a value or throws [std::invalid_argument]. *)
Inductive parsed (A : Type) : Type :=
  | Parsed (a : A)
  | InvalidArgument (what : string).
Arguments Parsed {A} a.
Arguments InvalidArgument {A} what.

(** [LogLevel from_string(const std::string& str)] *)
Definition from_string (str : string) : parsed LogLevel :=
  let upper := to_upper str in
  if String.eqb upper "TRACE" then Parsed TRACE
  else if String.eqb upper "DEBUG" then Parsed DEBUG
  else if String.eqb upper "INFO" then Parsed INFO
  else if String.eqb upper "WARN" then Parsed WARN
  else if String.eqb upper "ERROR" then Parsed ERROR
  else if String.eqb upper "FATAL" then Parsed FATAL
  else if String.eqb upper "OFF" then Parsed OFF
  else InvalidArgument ("Invalid log level: " ++ str)%string.

(** ** Sensitive keywords (log_sink.hpp, logger.hpp)

    Texts are lists of characters here; positions are [size_t] values that
    stay below the length of a text plus 3, so they are kept as [nat]. *)

Definition text : Type := list Ascii.ascii.

Definition text_eq_dec : forall a b : text, {a = b} + {a <> b} :=
  list_eq_dec Ascii.ascii_dec.

(** [sensitive_keywords_.push_back(keyword)] *)
Definition add_sensitive_keyword (keywords : list text) (keyword : text)
  : list text :=
  keywords ++ [keyword].

(** [it = std::find(begin, end, keyword); if (it != end) erase(it);] *)
Fixpoint remove_sensitive_keyword (keywords : list text) (keyword : text)
  : list text :=
  match keywords with
  | [] => []
  | k :: rest =>
      if text_eq_dec k keyword then rest
      else k :: remove_sensitive_keyword rest keyword
  end.

Definition clear_sensitive_keywords (keywords : list text) : list text := [].

(** Does [keyword] start [s]? *)
Fixpoint starts_with (keyword s : text) : bool :=
  match keyword, s with
  | [], _ => true
  | _ :: _, [] => false
  | a :: keyword', b :: s' =>
      if Ascii.eqb a b then starts_with keyword' s' else false
  end.

(** The search of [std::string::find] through the tail [s] of a text, where
    [s] begins at position [at_]. *)
Fixpoint find_from (keyword s : text) (at_ : nat) : option nat :=
  if starts_with keyword s then Some at_
  else match s with
       | [] => None
       | _ :: s' => find_from keyword s' (S at_)
       end.

(** [filtered.find(keyword, pos)]: the lowest position, not below [pos], at
    which [keyword] occurs; [None] is [std::string::npos]. *)
Definition find (filtered keyword : text) (pos : nat) : option nat :=
  if (pos <=? List.length filtered)%nat
  then find_from keyword (skipn pos filtered) pos
  else None.

Definition stars : text := list_ascii_of_string "***".

(** [filtered.replace(pos, len, "***")] *)
Definition replace (filtered : text) (pos len : nat) : text :=
  firstn pos filtered ++ stars ++ skipn (pos + len) filtered.

(** The inner loop of [filter_sensitive_info] for one keyword:
    [size_t pos = 0;
     while ((pos = filtered.find(keyword, pos)) != npos) {
       filtered.replace(pos, keyword.length(), "***"); pos += 3; }]
    [fuel] bounds the number of turns; [None] means the loop is still
    running after that many. *)
Fixpoint mask_loop (fuel : nat) (keyword filtered : text) (pos : nat)
  : option text :=
  match fuel with
  | O => None
  | S fuel' =>
      match find filtered keyword pos with
      | None => Some filtered
      | Some found =>
          mask_loop fuel' keyword
                    (replace filtered found (List.length keyword))
                    (found + 3)
      end
  end.

(** The outer loop, [for (const auto& keyword : sensitive_keywords_)]. *)
Fixpoint mask_keywords (fuel : nat) (keywords : list text) (filtered : text)
  : option text :=
  match keywords with
  | [] => Some filtered
  | keyword :: rest =>
      match mask_loop fuel keyword filtered 0 with
      | Some filtered' => mask_keywords fuel rest filtered'
      | None => None
      end
  end.

(** [Logger::filter_sensitive_info(message)] *)
Definition logger_filter_sensitive_info (fuel : nat) (keywords : list text)
  (message : text) : option text :=
  mask_keywords fuel keywords message.

(** [LogSink::filter_sensitive_info(message)] *)
Definition filter_sensitive_info (fuel : nat) (sensitive_filter_ : bool)
  (keywords : list text) (message : text) : option text :=
  if negb sensitive_filter_ then Some message
  else mask_keywords fuel keywords message.

(** [keyword] occurs somewhere in [s]. *)
Definition occurs (keyword s : text) : Prop :=
  exists before after, s = before ++ keyword ++ after.

(** No position of [s] starts a copy of [keyword]. *)
Definition free_of (keyword s : text) : Prop :=
  forall t, starts_with keyword (skipn t s) = false.

(** The character [*] (code 42). *)
Definition star : Ascii.ascii := Eval cbv in Ascii.ascii_of_N 42.

(** ** thread_safe_queue.hpp: PriorityQueue

    [PriorityQueue<T, Compare>] derives from [ThreadSafeQueue<T>] and adds
    its own container, a [std::priority_queue<T, std::vector<T>, Compare>].
    The container adaptor keeps a binary heap in the vector: [top()] is
    [c.front()], [push(x)] is [c.push_back(x); std::push_heap(...)] and
    [pop()] is [std::pop_heap(...); c.pop_back()].  The vector is the list
    [priority_queue_], index 0 first, and the two heap algorithms are
    written out as the GNU C++ library has them ([std::__push_heap] and
    [std::__adjust_heap] of [bits/stl_heap.h]), so that also the order
    between items that [comp] does not order is the one the program shows.
    The record of the base class is the one used for [BatchQueue]; its
    [batch_size_] plays no part here. *)

Module PriorityQueue.
Section PriorityQueue.

Variable T : Type.
Variable comp : T -> T -> bool.

Record t : Type := mk {
  base : Queue.t T;
  priority_queue_ : list T
}.

(** [PriorityQueue(max_size = 0, comp = Compare())]: the container is built
    with its own [Compare()]. *)
Definition make (max_size : N) : t :=
  mk (Queue.mk [] max_size false 0) [].

(** [*(first + i) = x] *)
Fixpoint assign (a : list T) (i : nat) (x : T) : list T :=
  match a, i with
  | [], _ => []
  | _ :: rest, O => x :: rest
  | y :: rest, S i' => y :: assign rest i' x
  end.

(** [std::__push_heap(first, holeIndex, topIndex, value, comp)]:
    [parent = (holeIndex - 1) / 2;
     while (holeIndex > topIndex && comp(first + parent, value)) {
       *(first + holeIndex) = *(first + parent);
       holeIndex = parent; parent = (holeIndex - 1) / 2; }
     *(first + holeIndex) = value;]
    The hole moves towards the front, so [holeIndex] turns are enough. *)
Fixpoint push_heap_loop (fuel : nat) (a : list T) (hole top : nat) (value : T)
  : list T :=
  match fuel with
  | O => assign a hole value
  | S fuel' =>
      let parent := ((hole - 1) / 2)%nat in
      if (top <? hole)%nat && comp (nth parent a value) value
      then push_heap_loop fuel' (assign a hole (nth parent a value))
                          parent top value
      else assign a hole value
  end.

(** [priority_queue_.push(item)]:
    [c.push_back(x); std::push_heap(c.begin(), c.end(), comp);], and
    [push_heap] is [__push_heap(first, (last - first) - 1, 0, value, comp)]
    with [value] the item just appended. *)
Definition heap_push (item : T) (heap : list T) : list T :=
  push_heap_loop (List.length heap) (heap ++ [item]) (List.length heap) 0 item.

(** The first loop of [std::__adjust_heap(first, holeIndex, len, value,
    comp)]:
    [while (secondChild < (len - 1) / 2) {
       secondChild = 2 * (secondChild + 1);
       if (comp(first + secondChild, first + (secondChild - 1)))
         secondChild--;
       *(first + holeIndex) = *(first + secondChild);
       holeIndex = secondChild; }]
    The hole moves away from the front, so [len] turns are enough. *)
Fixpoint adjust_down (fuel : nat) (a : list T) (hole len : nat) (d : T)
  : list T * nat :=
  match fuel with
  | O => (a, hole)
  | S fuel' =>
      if (hole <? (len - 1) / 2)%nat then
        let right := (2 * (hole + 1))%nat in
        let second :=
          if comp (nth right a d) (nth (right - 1) a d)
          then (right - 1)%nat else right in
        adjust_down fuel' (assign a hole (nth second a d)) second len d
      else (a, hole)
  end.

(** [std::__adjust_heap(first, 0, len, value, comp)]: the loop above, then
    [if ((len & 1) == 0 && secondChild == (len - 2) / 2) {
       secondChild = 2 * (secondChild + 1);
       *(first + holeIndex) = *(first + (secondChild - 1));
       holeIndex = secondChild - 1; }
     __push_heap(first, holeIndex, topIndex, value, comp);] *)
Definition adjust_heap (a : list T) (len : nat) (value : T) : list T :=
  let '(a1, hole1) := adjust_down len a 0 len value in
  let '(a2, hole2) :=
    if Nat.even len && (hole1 =? (len - 2) / 2)%nat
    then (assign a1 hole1 (nth (2 * (hole1 + 1) - 1) a1 value),
          (2 * (hole1 + 1) - 1)%nat)
    else (a1, hole1) in
  push_heap_loop hole2 a2 hole2 0 value.

(** [priority_queue_.pop()]: [std::pop_heap(c.begin(), c.end(), comp);
    c.pop_back();].  With more than one item [pop_heap] saves the last
    item, writes the first item over it and calls
    [__adjust_heap(first, 0, last - first - 1, value, comp)] with the saved
    item. *)
Definition heap_pop (heap : list T) : list T :=
  match heap with
  | [] => []
  | top :: _ =>
      let n := List.length heap in
      if (1 <? n)%nat
      then removelast (adjust_heap (assign heap (n - 1) top) (n - 1)
                                   (last heap top))
      else removelast heap
  end.

(** [priority_queue_.size()] *)
Definition size (q : t) : N := N.of_nat (List.length (priority_queue_ q)).

(** [priority_queue_.empty()] *)
Definition empty (q : t) : bool :=
  match priority_queue_ q with [] => true | _ :: _ => false end.

Definition set_heap (q : t) (heap : list T) : t := mk (base q) heap.

(** [bool push(T&& item)] *)
Definition push (q : t) (item : T) : outcome (bool * t) :=
  if Queue.shutdown_ (base q) then Done (false, q)
  else if 0 <? Queue.max_size_ (base q) then
    wait ((size q <? Queue.max_size_ (base q)) || Queue.shutdown_ (base q))
         (if Queue.shutdown_ (base q) then Done (false, q)
          else Done (true, set_heap q (heap_push item (priority_queue_ q))))
  else Done (true, set_heap q (heap_push item (priority_queue_ q))).

(** [bool pop(T& item)] *)
Definition pop (q : t) : outcome (option T * t) :=
  wait (negb (empty q) || Queue.shutdown_ (base q))
       (if Queue.shutdown_ (base q) && empty q then Done (None, q)
        else match priority_queue_ q with
             | top :: _ =>
                 Done (Some top, set_heap q (heap_pop (priority_queue_ q)))
             | [] => Done (None, q)
             end).

(** [bool try_pop(T& item)] *)
Definition try_pop (q : t) : option T * t :=
  match priority_queue_ q with
  | [] => (None, q)
  | top :: _ => (Some top, set_heap q (heap_pop (priority_queue_ q)))
  end.

(** [while (!priority_queue_.empty()) priority_queue_.pop();]: every turn
    takes one item away, so as many turns as there are items are enough. *)
Fixpoint clear_loop (fuel : nat) (heap : list T) : list T :=
  match fuel, heap with
  | S fuel', _ :: _ => clear_loop fuel' (heap_pop heap)
  | _, _ => heap
  end.

(** [void clear()] *)
Definition clear (q : t) : t :=
  set_heap q (clear_loop (List.length (priority_queue_ q)) (priority_queue_ q)).

(** The members that [PriorityQueue] does not redefine are those of the
    base class and work on the base class's [queue_]. *)
Definition try_push (q : t) (item : T) : bool * t :=
  let '(ok, b) := Queue.try_push (base q) item in
  (ok, mk b (priority_queue_ q)).

Definition full (q : t) : bool := Queue.full (base q).

Definition shutdown (q : t) : t :=
  mk (Queue.shutdown (base q)) (priority_queue_ q).

(** Pushing a list of items, one [push] each; [None] when a call blocks or
    is refused. *)
Fixpoint pushes (items : list T) (q : t) : option t :=
  match items with
  | [] => Some q
  | x :: rest =>
      match push q x with
      | Done (true, q') => pushes rest q'
      | _ => None
      end
  end.

(** [n] calls of [try_pop], all of them successful. *)
Fixpoint try_pops (n : nat) (q : t) : option (list T * t) :=
  match n with
  | O => Some ([], q)
  | S n' =>
      match try_pop q with
      | (Some x, q') =>
          match try_pops n' q' with
          | Some (xs, q'') => Some (x :: xs, q'')
          | None => None
          end
      | (None, _) => None
      end
  end.

(** The first [len] items of the vector are a heap, as for
    [std::is_heap]: no item is below the item at its parent index. *)
Definition heap_upto (d : T) (len : nat) (a : list T) : Prop :=
  forall i, (0 < i < len)%nat ->
            comp (nth ((i - 1) / 2) a d) (nth i a d) = false.

Definition is_heap (a : list T) : Prop :=
  forall d, heap_upto d (List.length a) a.

(** What holds at the head of the loop of [__push_heap]: the items are a
    heap apart from the one at the hole, and neither [value] nor the item
    at the hole's parent is below an item at a child of the hole. *)
Definition sift_inv (d : T) (len : nat) (a : list T) (hole : nat) (value : T)
  : Prop :=
  (forall i, (0 < i < len)%nat -> i <> hole ->
             comp (nth ((i - 1) / 2) a d) (nth i a d) = false) /\
  (forall i, (0 < i < len)%nat -> ((i - 1) / 2)%nat = hole ->
             comp value (nth i a d) = false) /\
  (forall i, (0 < i < len)%nat -> ((i - 1) / 2)%nat = hole ->
             (0 < hole)%nat ->
             comp (nth ((hole - 1) / 2) a d) (nth i a d) = false).

End PriorityQueue.

Arguments mk {T}.
Arguments base {T}.
Arguments priority_queue_ {T}.
Arguments make {T}.
Arguments assign {T}.
Arguments push_heap_loop {T}.
Arguments heap_push {T}.
Arguments adjust_down {T}.
Arguments adjust_heap {T}.
Arguments heap_pop {T}.
Arguments size {T}.
Arguments empty {T}.
Arguments set_heap {T}.
Arguments push {T}.
Arguments pop {T}.
Arguments try_pop {T}.
Arguments clear_loop {T}.
Arguments clear {T}.
Arguments try_push {T}.
Arguments full {T}.
Arguments shutdown {T}.
Arguments pushes {T}.
Arguments try_pops {T}.
Arguments heap_upto {T}.
Arguments is_heap {T}.
Arguments sift_inv {T}.

End PriorityQueue.

(** A [Compare] that is a strict order without being a strict weak one:
    a pair is below another when neither part is greater and one is less. *)
Definition both_below (a b : N * N) : bool :=
  (fst a <=? fst b) && (snd a <=? snd b)
  && ((fst a <? fst b) || (snd a <? snd b)).

(** ** log_sink.hpp: thresholds *)

(** [virtual void set_level(LogLevel level)]: the base class stores the
    level; [CompositeLogSink] stores it and hands it to every child that is
    not null; [FilterLogSink] stores it and hands it to its child. *)
Fixpoint set_level (s : LogSink) (l : LogLevel) : LogSink :=
  match s with
  | BackendSink id _ log_throws flush_throws =>
      BackendSink id l log_throws flush_throws
  | CompositeLogSink _ sinks_ =>
      CompositeLogSink l
        (map (fun c => match c with
                       | Some c' => Some (set_level c' l)
                       | None => None
                       end) sinks_)
  | FilterLogSink _ sink_ filter_ => FilterLogSink l (set_level sink_ l) filter_
  end.

(** Every [level_] member found in a sink and in the sinks below it. *)
Fixpoint thresholds (s : LogSink) : list LogLevel :=
  match s with
  | BackendSink _ level_ _ _ => [level_]
  | CompositeLogSink level_ sinks_ =>
      level_ :: flat_map (fun c => match c with
                                   | Some c' => thresholds c'
                                   | None => []
                                   end) sinks_
  | FilterLogSink level_ sink_ _ => level_ :: thresholds sink_
  end.

(** ** async_logger.hpp: levels, and runs of calls *)

(** [void AsyncLogger::set_level(LogLevel level)] *)
Definition logger_set_level (e : AsyncLogger) (l : LogLevel) : AsyncLogger :=
  mkLogger (config_ e) (queue_ e) (map (fun s => set_level s l) (sinks_ e))
           (workers_ e) (running_ e) (stop_requested_ e) (dropped_count_ e).

(** [LogLevel AsyncLogger::get_level() const] *)
Definition logger_get_level (e : AsyncLogger) : LogLevel :=
  match sinks_ e with
  | [] => INFO
  | front :: _ => get_level front
  end.

(** [bool AsyncLogger::should_log(LogLevel level) const] *)
Definition logger_should_log (e : AsyncLogger) (l : LogLevel) : bool :=
  level_ge l (logger_get_level e).

(** Logging a list of records, one [log] call each. *)
Definition log_all (ms : list LogMessage) (e : AsyncLogger) : AsyncLogger :=
  fold_left (fun e m => snd (log e m)) ms e.

Definition add_sinks (sinks : list LogSink) (e : AsyncLogger) : AsyncLogger :=
  fold_left add_sink sinks e.

(** The calls a program and the worker threads make on a logger.
    [CallWorker] is one turn of a worker's loop; there is one to take only
    while a worker thread exists and no stop has been requested. *)
Inductive call : Type :=
  | CallStart
  | CallStop (wait_for_completion : bool)
  | CallLog (m : LogMessage)
  | CallAddSink (s : LogSink)
  | CallClearSinks
  | CallSetLevel (l : LogLevel)
  | CallWorker (flush_due : bool).

Definition perform (c : call) (e : AsyncLogger) (w : World) : completion :=
  match c with
  | CallStart => Returns (start e) w
  | CallStop wait_for_completion => stop e wait_for_completion w
  | CallLog m => Returns (snd (log e m)) w
  | CallAddSink s => Returns (add_sink e s) w
  | CallClearSinks => Returns (clear_sinks e) w
  | CallSetLevel l => Returns (logger_set_level e l) w
  | CallWorker flush_due =>
      match workers_ e with
      | [] => Returns e w
      | _ :: _ =>
          if stop_requested_ e then Returns e w
          else let '(e', r) := worker_iteration e flush_due w in
               match r with
               | Ok w' => Returns e' w'
               | Raised w' => Terminates w'
               end
      end
  end.

Fixpoint run_calls (cs : list call) (e : AsyncLogger) (w : World)
  : completion :=
  match cs with
  | [] => Returns e w
  | c :: rest =>
      match perform c e w with
      | Returns e' w' => run_calls rest e' w'
      | Terminates w' => Terminates w'
      end
  end.

(** What every call keeps: the drop counter at 0, the queue open and its
    capacity as configured. *)
Definition logger_invariant (cfg : AsyncLoggerConfig) (e : AsyncLogger) : Prop :=
  dropped_count_ e = 0 /\
  Queue.shutdown_ (queue_ e) = false /\
  Queue.max_size_ (queue_ e) = queue_size cfg.

(** ** async_logger.hpp: a logger and its worker threads

    A started logger is its members together with its worker threads.  A
    run is a sequence of actions taken in any order: a producer calls
    [log], a caller of [stop] sets [stop_requested_], a worker thread goes
    from one point of [worker_thread_func] to the next.  The joins of
    [stop(true)] return once every thread is at [AtReturn]. *)

(** [if (!running_) return; stop_requested_ = true;], the first statements
    of [stop]. *)
Definition request_stop (e : AsyncLogger) : AsyncLogger :=
  if negb (running_ e) then e
  else mkLogger (config_ e) (queue_ e) (sinks_ e) (workers_ e)
                (running_ e) true (dropped_count_ e).

(** The threads of a logger whose threads have not run yet: one for each
    handle of [workers_], each at the start of its function. *)
Definition spawned (e : AsyncLogger) : list worker :=
  map (fun _ => AtReserve) (workers_ e).

Inductive action : Type :=
  | Produce (m : LogMessage)
  | RequestStop
  | Work (i : nat) (env : environment).

(** The state of a run: the logger, its threads, the records that [log]
    has accepted so far (in the order of the calls) and the output; or the
    process has been ended by [std::terminate]. *)
Inductive execution : Type :=
  | Live (e : AsyncLogger) (ts : list worker) (accepted : list LogMessage)
         (w : World)
  | Crashed (w : World).

Definition act (a : action) (e : AsyncLogger) (ts : list worker)
  (accepted : list LogMessage) (w : World) : execution :=
  match a with
  | Produce m =>
      let '(ok, e') := log e m in
      Live e' ts (if ok then accepted ++ [m] else accepted) w
  | RequestStop => Live (request_stop e) ts accepted w
  | Work i env =>
      match nth_error ts i with
      | Some t =>
          match worker_step e t env w with
          | Proceeds e' t' w' => Live e' (set_thread i t' ts) accepted w'
          | Escapes w' => Crashed w'
          end
      | None => Live e ts accepted w
      end
  end.

Fixpoint run_actions (acts : list action) (e : AsyncLogger) (ts : list worker)
  (accepted : list LogMessage) (w : World) : execution :=
  match acts with
  | [] => Live e ts accepted w
  | a :: rest =>
      match act a e ts accepted w with
      | Live e' ts' accepted' w' => run_actions rest e' ts' accepted' w'
      | Crashed w' => Crashed w'
      end
  end.

Definition is_work (a : action) : bool :=
  match a with Work _ _ => true | _ => false end.

Definition is_request (a : action) : bool :=
  match a with RequestStop => true | _ => false end.

(** The number of steps that thread [i] takes in a run. *)
Definition steps_of (i : nat) (acts : list action) : nat :=
  List.length
    (filter (fun a => match a with Work j _ => Nat.eqb j i | _ => false end)
            acts).

(** The records a worker has popped and not yet dispatched. *)
Definition held (t : worker) : list LogMessage :=
  match t with
  | AtCollectTest batch _ => batch
  | AtTryPop batch _ => batch
  | AtProcessBatch batch => batch
  | AtProcessMessage remaining_msg => [remaining_msg]
  | _ => []
  end.

Definition held_all (ts : list worker) : list LogMessage := flat_map held ts.

(** The records that are in the logger and not dispatched: those held by
    the workers, then those queued. *)
Definition pending (e : AsyncLogger) (ts : list worker) : list LogMessage :=
  held_all ts ++ Queue.queue_ (queue_ e).

(** A bound on the steps a worker still takes once [stop_requested_] is
    set, with [queued] records in the queue. *)
Definition remaining (t : worker) (queued : nat) : nat :=
  match t with
  | AtReserve => 2 * queued + 3
  | AtLoopTest => 2 * queued + 2
  | AtCollectTest _ _ => 2 * queued + 5
  | AtTryPop _ _ => 2 * queued + 6
  | AtProcessBatch _ => 2 * queued + 4
  | AtAutoFlush => 2 * queued + 3
  | AtDrainPop => 2 * queued + 1
  | AtProcessMessage _ => 2 * queued + 2
  | AtReturn => 0
  end.

(** A result moved behind the output [w]. *)
Definition extend (w : World) (r : result) : result :=
  match r with
  | Ok d => Ok (w ++ d)
  | Raised d => Raised (w ++ d)
  end.

(** The worker has not reached the closing loop. *)
Definition in_loop (t : worker) : bool :=
  match t with
  | AtDrainPop | AtProcessMessage _ | AtReturn => false
  | _ => true
  end.

(** No sink throws on the record [m]. *)
Definition dispatches (sinks : list LogSink) (m : LogMessage) : bool :=
  returned (process_message sinks m []).

(** An action in which nothing throws: the record logged is one that no
    sink throws on, the reservation of a worker goes through. *)
Definition harmless (sinks : list LogSink) (a : action) : bool :=
  match a with
  | Produce m => dispatches sinks m
  | RequestStop => true
  | Work _ env => reserve_succeeds env
  end.

(** ** log_manager.hpp

    [LogManager] guards its members with one [std::mutex]; every public
    method but [log] starts with a [std::lock_guard] on it.  The mutex is
    part of the state here ([mutex_] is true while it is held), because
    some methods call other locking methods while they hold it.  Locking a
    [std::mutex] that the calling thread already owns is undefined
    behaviour; in practice the thread waits for itself forever.  That
    outcome is [SelfLocked]. *)

Module Manager.

(** The members of the asynchronous logger and of the sinks that share a
    name with a member of the manager. *)
Definition logger_log := log.
Definition logger_flush := flush.
Definition sink_should_log := should_log.

Record LogConfig : Type := mkLogConfig {
  level : LogLevel;
  async : bool;
  colored : bool;
  pattern : string;
  time_format : string;
  show_milliseconds : bool;
  show_filename : bool;
  show_function : bool;
  show_thread_id : bool;
  sensitive_filter : bool;
  queue_size : N;
  batch_size : N;
  flush_interval_ms : N;
  worker_threads : N;
  auto_flush : bool;
  enable_performance_monitoring : bool
}.

(** [LogConfig{}] *)
Definition default_log_config : LogConfig :=
  mkLogConfig INFO true false "[%Y-%m-%d %H:%M:%S] [%l] [%t] %v"
              "%Y-%m-%d %H:%M:%S" false true true true false
              10000 100 1000 1 true false.

(** [class LogManager]; [named_loggers_] is kept as a list of pairs with
    at most one entry per name. *)
#[warnings="-register-all"] Inductive t : Type :=
  mk (config_ : LogConfig)
     (async_logger_ : option AsyncLogger)
     (sinks_ : list LogSink)
     (named_loggers_ : list (string * t))
     (default_logger_name_ : string)
     (initialized_ : bool)
     (shutdown_ : bool)
     (mutex_ : bool).

Definition config_ (m : t) : LogConfig :=
  match m with mk c _ _ _ _ _ _ _ => c end.
Definition async_logger_ (m : t) : option AsyncLogger :=
  match m with mk _ a _ _ _ _ _ _ => a end.
Definition sinks_ (m : t) : list LogSink :=
  match m with mk _ _ s _ _ _ _ _ => s end.
Definition named_loggers_ (m : t) : list (string * t) :=
  match m with mk _ _ _ n _ _ _ _ => n end.
Definition default_logger_name_ (m : t) : string :=
  match m with mk _ _ _ _ d _ _ _ => d end.
Definition initialized_ (m : t) : bool :=
  match m with mk _ _ _ _ _ i _ _ => i end.
Definition shutdown_ (m : t) : bool :=
  match m with mk _ _ _ _ _ _ s _ => s end.
Definition mutex_ (m : t) : bool :=
  match m with mk _ _ _ _ _ _ _ l => l end.

(** [LogManager() = default] *)
Definition new_manager : t :=
  mk default_log_config None [] [] "" false false false.

Definition set_config (m : t) (c : LogConfig) : t :=
  mk c (async_logger_ m) (sinks_ m) (named_loggers_ m)
     (default_logger_name_ m) (initialized_ m) (shutdown_ m) (mutex_ m).
Definition set_async_logger (m : t) (a : option AsyncLogger) : t :=
  mk (config_ m) a (sinks_ m) (named_loggers_ m)
     (default_logger_name_ m) (initialized_ m) (shutdown_ m) (mutex_ m).
Definition set_sinks (m : t) (s : list LogSink) : t :=
  mk (config_ m) (async_logger_ m) s (named_loggers_ m)
     (default_logger_name_ m) (initialized_ m) (shutdown_ m) (mutex_ m).
Definition set_named_loggers (m : t) (n : list (string * t)) : t :=
  mk (config_ m) (async_logger_ m) (sinks_ m) n
     (default_logger_name_ m) (initialized_ m) (shutdown_ m) (mutex_ m).
Definition set_default_name (m : t) (d : string) : t :=
  mk (config_ m) (async_logger_ m) (sinks_ m) (named_loggers_ m)
     d (initialized_ m) (shutdown_ m) (mutex_ m).
Definition set_flags (m : t) (initialized shutdown : bool) : t :=
  mk (config_ m) (async_logger_ m) (sinks_ m) (named_loggers_ m)
     (default_logger_name_ m) initialized shutdown (mutex_ m).
Definition set_mutex (m : t) (held : bool) : t :=
  mk (config_ m) (async_logger_ m) (sinks_ m) (named_loggers_ m)
     (default_logger_name_ m) (initialized_ m) (shutdown_ m) held.

(** How a call on the manager ends. *)
Inductive ending (A : Type) : Type :=
  | Finished (a : A) (m : t) (w : World)
  | Thrown (m : t) (w : World)
  | Aborted (w : World)
  | SelfLocked.
Arguments Finished {A} a m w.
Arguments Thrown {A} m w.
Arguments Aborted {A} w.
Arguments SelfLocked {A}.

(** [std::lock_guard<std::mutex> lock(mutex_);] around a method body; the
    guard releases the mutex when the body returns or throws. *)
Definition lock_guard {A : Type} (m : t) (body : t -> ending A) : ending A :=
  if mutex_ m then SelfLocked
  else match body (set_mutex m true) with
       | Finished a m' w => Finished a (set_mutex m' false) w
       | Thrown m' w => Thrown (set_mutex m' false) w
       | Aborted w => Aborted w
       | SelfLocked => SelfLocked
       end.

(** The [AsyncLoggerConfig] that [initialize] fills in. *)
Definition async_config (c : LogConfig) : AsyncLoggerConfig :=
  mkConfig (queue_size c) (batch_size c) (flush_interval_ms c)
           (worker_threads c) (auto_flush c) 1024 1000 false.

(** [void initialize(const LogConfig& config)] *)
Definition initialize (config : LogConfig) (m : t) (w : World) : ending unit :=
  lock_guard m (fun m =>
    if initialized_ m then Finished tt m w
    else
      let m1 := set_config m config in
      let m2 := if async config
                then set_async_logger m1
                       (Some (start (new_logger (async_config config))))
                else m1 in
      Finished tt (set_flags m2 true false) w).

(** [void flush()] *)
Definition flush (m : t) (w : World) : ending unit :=
  lock_guard m (fun m =>
    match (match async_logger_ m with
           | Some e => logger_flush e w
           | None => Ok w
           end) with
    | Raised w1 => Thrown m w1
    | Ok w1 =>
        match flush_loop (sinks_ m) w1 with
        | Ok w2 => Finished tt m w2
        | Raised w2 => Thrown m w2
        end
    end).

(** [void shutdown()].  [async_logger_.reset()] runs [~AsyncLogger], whose
    [stop(true)] finds the logger stopped and does nothing. *)
Definition shutdown (m : t) (w : World) : ending unit :=
  lock_guard m (fun m =>
    if negb (initialized_ m) || shutdown_ m then Finished tt m w
    else
      let stopped :=
        match async_logger_ m with
        | Some e =>
            match stop e true w with
            | Returns _ w1 => Finished tt (set_async_logger m None) w1
            | Terminates w1 => Aborted w1
            end
        | None => Finished tt m w
        end in
      match stopped with
      | Finished _ m1 w1 =>
          match flush m1 w1 with
          | Finished _ m2 w2 =>
              Finished tt (set_flags m2 (initialized_ m2) true) w2
          | Thrown m2 w2 => Thrown m2 w2
          | Aborted w2 => Aborted w2
          | SelfLocked => SelfLocked
          end
      | Thrown m1 w1 => Thrown m1 w1
      | Aborted w1 => Aborted w1
      | SelfLocked => SelfLocked
      end).

(** [bool should_log(LogLevel level) const] *)
Definition should_log (l : LogLevel) (m : t) (w : World) : ending bool :=
  lock_guard m (fun m => Finished (level_ge l (level (config_ m))) m w).

Definition set_level (l : LogLevel) (m : t) (w : World) : ending unit :=
  lock_guard m (fun m =>
    let c := config_ m in
    Finished tt
      (set_config m
         (mkLogConfig l (async c) (colored c) (pattern c) (time_format c)
            (show_milliseconds c) (show_filename c) (show_function c)
            (show_thread_id c) (sensitive_filter c) (queue_size c)
            (batch_size c) (flush_interval_ms c) (worker_threads c)
            (auto_flush c) (enable_performance_monitoring c))) w).

Definition get_level (m : t) (w : World) : ending LogLevel :=
  lock_guard m (fun m => Finished (level (config_ m)) m w).

Definition add_sink (s : LogSink) (m : t) (w : World) : ending unit :=
  lock_guard m (fun m => Finished tt (set_sinks m (sinks_ m ++ [s])) w).

Definition clear_sinks (m : t) (w : World) : ending unit :=
  lock_guard m (fun m => Finished tt (set_sinks m []) w).

(** The synchronous branch of [log]:
    [for (auto& sink : sinks_) if (sink->should_log(level)) sink->log(log_msg);] *)
Fixpoint sync_loop (sinks : list LogSink) (l : LogLevel) (msg : LogMessage)
  (w : World) : result :=
  match sinks with
  | [] => Ok w
  | s :: rest =>
      and_then (if sink_should_log s l then sink_log s msg w else Ok w)
               (sync_loop rest l msg)
  end.

(** [void log(level, message, file, line, function)]; [now] and [thread]
    are the clock and the thread id that the [LogMessage] constructor
    reads.  The value [log] of the asynchronous logger returns is dropped. *)
Definition log (l : LogLevel) (message file : string) (line : N)
  (function : string) (now thread : N) (m : t) (w : World) : ending unit :=
  match should_log l m w with
  | Finished ok m1 w1 =>
      if negb ok then Finished tt m1 w1
      else
        let log_msg := mkLogMessage l message file line function now thread in
        match async_logger_ m1 with
        | Some e =>
            Finished tt (set_async_logger m1 (Some (snd (logger_log e log_msg))))
                     w1
        | None =>
            match sync_loop (sinks_ m1) l log_msg w1 with
            | Ok w2 => Finished tt m1 w2
            | Raised w2 => Thrown m1 w2
            end
        end
  | Thrown m1 w1 => Thrown m1 w1
  | Aborted w1 => Aborted w1
  | SelfLocked => SelfLocked
  end.

(** [named_loggers_.find(name)] *)
Fixpoint find_logger (loggers : list (string * t)) (name : string)
  : option t :=
  match loggers with
  | [] => None
  | (n, lg) :: rest =>
      if String.eqb n name then Some lg else find_logger rest name
  end.

(** [named_loggers_.erase(name)] *)
Fixpoint erase_logger (loggers : list (string * t)) (name : string)
  : list (string * t) :=
  match loggers with
  | [] => []
  | (n, lg) :: rest =>
      if String.eqb n name then erase_logger rest name
      else (n, lg) :: erase_logger rest name
  end.

(** [named_loggers_[name] = std::move(logger)] *)
Definition store_logger (loggers : list (string * t)) (name : string)
  (lg : t) : list (string * t) :=
  (name, lg) :: erase_logger loggers name.

(** [LogManager& create_logger(const std::string& name)]; the value is the
    logger now stored under [name]. *)
Definition create_logger (name : string) (m : t) (w : World) : ending t :=
  lock_guard m (fun m =>
    let logger := set_config new_manager (config_ m) in
    Finished logger
      (set_named_loggers m (store_logger (named_loggers_ m) name logger)) w).

(** [LogManager& get_logger(const std::string& name)] *)
Definition get_logger (name : string) (m : t) (w : World) : ending t :=
  lock_guard m (fun m =>
    match find_logger (named_loggers_ m) name with
    | Some lg => Finished lg m w
    | None => create_logger name m w
    end).

Definition remove_logger (name : string) (m : t) (w : World) : ending unit :=
  lock_guard m (fun m =>
    Finished tt
      (set_named_loggers m (erase_logger (named_loggers_ m) name)) w).

Definition has_logger (name : string) (m : t) (w : World) : ending bool :=
  lock_guard m (fun m =>
    Finished (match find_logger (named_loggers_ m) name with
              | Some _ => true
              | None => false
              end) m w).

Definition set_default_logger (name : string) (m : t) (w : World)
  : ending unit :=
  lock_guard m (fun m => Finished tt (set_default_name m name) w).

(** [LogManager& get_default_logger()] *)
Definition get_default_logger (m : t) (w : World) : ending t :=
  get_logger (default_logger_name_ m) m w.

(** The calls a program makes on the manager, and the steps of the worker
    threads of its asynchronous logger ([CallWorker i env] is the next
    step of thread [i]).  The state of a run is the manager together with
    the worker threads. *)
Inductive call : Type :=
  | CallInitialize (config : LogConfig)
  | CallLog (l : LogLevel) (message file : string) (line : N)
            (function : string) (now thread : N)
  | CallSetLevel (l : LogLevel)
  | CallAddSink (s : LogSink)
  | CallClearSinks
  | CallFlush
  | CallWorker (i : nat) (env : environment).

(** The number of handles in [workers_] of the asynchronous logger. *)
Definition worker_handles (m : t) : nat :=
  match async_logger_ m with
  | Some e => List.length (workers_ e)
  | None => 0%nat
  end.

(** A call of the program, which leaves the running threads alone and
    starts as many threads as it adds handles. *)
Definition program_call (r : ending unit) (m : t) (ts : list worker)
  : ending (list worker) :=
  match r with
  | Finished _ m' w' =>
      Finished (ts ++ repeat AtReserve (worker_handles m' - worker_handles m))
               m' w'
  | Thrown m' w' => Thrown m' w'
  | Aborted w' => Aborted w'
  | SelfLocked => SelfLocked
  end.

Definition perform (c : call) (m : t) (ts : list worker) (w : World)
  : ending (list worker) :=
  match c with
  | CallInitialize config => program_call (initialize config m w) m ts
  | CallLog l message file line function now thread =>
      program_call (log l message file line function now thread m w) m ts
  | CallSetLevel l => program_call (set_level l m w) m ts
  | CallAddSink s => program_call (add_sink s m w) m ts
  | CallClearSinks => program_call (clear_sinks m w) m ts
  | CallFlush => program_call (flush m w) m ts
  | CallWorker i env =>
      match async_logger_ m, nth_error ts i with
      | Some e, Some t =>
          match worker_step e t env w with
          | Proceeds e' t' w' =>
              Finished (set_thread i t' ts) (set_async_logger m (Some e')) w'
          | Escapes w' => Aborted w'
          end
      | _, _ => Finished ts m w
      end
  end.

Fixpoint run_calls (cs : list call) (m : t) (ts : list worker) (w : World)
  : ending (list worker) :=
  match cs with
  | [] => Finished ts m w
  | c :: rest =>
      match perform c m ts w with
      | Finished ts' m' w' => run_calls rest m' ts' w'
      | Thrown m' w' => Thrown m' w'
      | Aborted w' => Aborted w'
      | SelfLocked => SelfLocked
      end
  end.

End Manager.

(** The records written so far, without the flushes. *)
Definition is_write (ev : event) : bool :=
  match ev with Wrote _ _ => true | Flushed _ => false end.

Definition writes (w : World) : World := filter is_write w.

(** * Properties of the queue *)

Section QueueFacts.

Context {T : Type}.
Implicit Types (q : Queue.t T) (x : T) (l : list T).

Lemma size_set_queue q l :
  Queue.size (Queue.set_queue q l) = N.of_nat (List.length l).
Proof. reflexivity. Qed.

Lemma size_enqueue q x : Queue.size (Queue.enqueue q x) = Queue.size q + 1.
Proof.
  unfold Queue.enqueue, Queue.size; cbn.
  rewrite length_app; cbn. lia.
Qed.

Lemma clear_loop_nil l : Queue.clear_loop T l = [].
Proof. induction l as [|y l IH]; [reflexivity | exact IH]. Qed.

Lemma batch_loop_shrinks l : forall batch count max_items,
  (List.length (fst (fst (Queue.batch_loop l batch count max_items)))
   <= List.length l)%nat.
Proof.
  induction l as [|y l IH]; intros batch count max_items; cbn.
  - apply Nat.le_refl.
  - destruct (count <? max_items).
    + specialize (IH (batch ++ [y]) (size_t_wrap (count + 1)) max_items).
      lia.
    + cbn. apply Nat.le_refl.
Qed.

(** The batch loop takes a prefix and leaves the matching suffix. *)
Lemma batch_loop_split l : forall batch count max_items,
  batch ++ l =
  snd (fst (Queue.batch_loop l batch count max_items))
  ++ fst (fst (Queue.batch_loop l batch count max_items)).
Proof.
  induction l as [|y l IH]; intros batch count max_items; cbn.
  - reflexivity.
  - destruct (count <? max_items); cbn.
    + rewrite <- IH, <- app_assoc. reflexivity.
    + reflexivity.
Qed.

Lemma pop_after_shutdown_cons q x l :
  Queue.shutdown_ q = true -> Queue.queue_ q = x :: l ->
  Queue.pop q = Done (Some x, Queue.set_queue q l).
Proof.
  intros Hs Hq.
  unfold Queue.pop, Queue.empty, Queue.take_front, wait.
  rewrite Hs, Hq. reflexivity.
Qed.

Lemma pop_after_shutdown_nil q :
  Queue.shutdown_ q = true -> Queue.queue_ q = [] ->
  Queue.pop q = Done (None, q).
Proof.
  intros Hs Hq.
  unfold Queue.pop, Queue.empty, wait.
  rewrite Hs, Hq. reflexivity.
Qed.

Lemma pops_after_shutdown l : forall q l',
  Queue.shutdown_ q = true -> Queue.queue_ q = l ++ l' ->
  Queue.pops (List.length l) q = Some (l, Queue.set_queue q l').
Proof.
  induction l as [|y l IH]; intros q l' Hs Hq; cbn.
  - destruct q as [items cap sd bs]; cbn in *. subst. reflexivity.
  - rewrite (pop_after_shutdown_cons q y (l ++ l') Hs Hq).
    rewrite (IH (Queue.set_queue q (l ++ l')) l' Hs eq_refl).
    reflexivity.
Qed.

Lemma pop_keeps_flag q r q' :
  Queue.pop q = Done (r, q') -> Queue.shutdown_ q' = Queue.shutdown_ q.
Proof.
  unfold Queue.pop, Queue.take_front, wait.
  destruct (negb (Queue.empty q) || Queue.shutdown_ q); [|discriminate].
  destruct (Queue.shutdown_ q && Queue.empty q).
  - intros H; inversion H; reflexivity.
  - destruct (Queue.queue_ q); intros H; inversion H; reflexivity.
Qed.

Lemma pops_keep_flag n : forall q xs q',
  Queue.pops n q = Some (xs, q') -> Queue.shutdown_ q' = Queue.shutdown_ q.
Proof.
  induction n as [|n IH]; intros q xs q' H; cbn in H.
  - inversion H; reflexivity.
  - destruct (Queue.pop q) as [[[y|] q1]|] eqn:Hp; try discriminate.
    destruct (Queue.pops n q1) as [[ys q2]|] eqn:Hn; try discriminate.
    inversion H; subst.
    rewrite (IH _ _ _ Hn). exact (pop_keeps_flag _ _ _ Hp).
Qed.

Lemma push_after_shutdown q x :
  Queue.shutdown_ q = true -> Queue.push q x = Done (false, q).
Proof. intros Hs. unfold Queue.push. rewrite Hs. reflexivity. Qed.

Lemma try_push_after_shutdown q x :
  Queue.shutdown_ q = true -> Queue.try_push q x = (false, q).
Proof. intros Hs. unfold Queue.try_push. rewrite Hs. reflexivity. Qed.

Lemma try_push_failure_keeps_queue q x :
  fst (Queue.try_push q x) = false -> Queue.try_push q x = (false, q).
Proof.
  unfold Queue.try_push. destruct (Queue.shutdown_ q); [reflexivity|].
  destruct ((0 <? Queue.max_size_ q) && (Queue.max_size_ q <=? Queue.size q));
    [reflexivity | cbn; discriminate].
Qed.

(** One operation keeps the capacity and the bound. *)
Lemma step_keeps_bound q (o : Queue.op T) cap :
  0 < cap -> Queue.max_size_ q = cap -> Queue.size q <= cap ->
  Queue.max_size_ (Queue.step q o) = cap /\
  Queue.size (Queue.step q o) <= cap.
Proof.
  intros Hcap Hmax Hsize.
  destruct o as [x|x| | |n a|n a| |]; cbn.
  - unfold Queue.push, wait.
    destruct (Queue.shutdown_ q); [now split|].
    destruct (N.ltb_spec 0 (Queue.max_size_ q)); [|lia]; cbn.
    rewrite orb_false_r.
    destruct (N.ltb_spec (Queue.size q) (Queue.max_size_ q)); cbn.
    + split; [exact Hmax | rewrite size_enqueue; lia].
    + now split.
  - unfold Queue.try_push.
    destruct (Queue.shutdown_ q); [now split|].
    destruct (N.ltb_spec 0 (Queue.max_size_ q)); [|lia]; cbn.
    destruct (N.leb_spec (Queue.max_size_ q) (Queue.size q)); cbn.
    + now split.
    + split; [exact Hmax | rewrite size_enqueue; lia].
  - destruct q as [items mx sd bs].
    unfold Queue.pop, Queue.take_front, Queue.empty, Queue.size, wait in *.
    destruct items as [|y l]; destruct sd; cbn in *;
      (split; [exact Hmax | lia]).
  - destruct q as [items mx sd bs].
    unfold Queue.try_pop, Queue.take_front, Queue.empty, Queue.size in *.
    destruct items as [|y l]; cbn in *; (split; [exact Hmax | lia]).
  - unfold Queue.pop_batch, wait.
    destruct (negb (Queue.empty q) || Queue.shutdown_ q); [|now split].
    destruct (Queue.shutdown_ q && Queue.empty q); [now split|].
    destruct a; [|now split].
    pose proof (batch_loop_shrinks (Queue.queue_ q) [] 0
                  (Queue.effective_max q n)) as Hle.
    destruct (Queue.batch_loop (Queue.queue_ q) [] 0
                (Queue.effective_max q n)) as [[rest b] c]; cbn in *.
    unfold Queue.size in *; cbn. split; [exact Hmax | lia].
  - unfold Queue.try_pop_batch.
    destruct (Queue.empty q); [now split|].
    destruct a; [|now split].
    pose proof (batch_loop_shrinks (Queue.queue_ q) [] 0
                  (Queue.effective_max q n)) as Hle.
    destruct (Queue.batch_loop (Queue.queue_ q) [] 0
                (Queue.effective_max q n)) as [[rest b] c]; cbn in *.
    unfold Queue.size in *; cbn. split; [exact Hmax | lia].
  - unfold Queue.clear, Queue.size; cbn.
    rewrite clear_loop_nil; cbn. split; [exact Hmax | lia].
  - unfold Queue.shutdown, Queue.size in *; cbn. now split.
Qed.

Lemma run_keeps_bound (os : list (Queue.op T)) : forall q cap,
  0 < cap -> Queue.max_size_ q = cap -> Queue.size q <= cap ->
  Queue.max_size_ (Queue.run q os) = cap /\
  Queue.size (Queue.run q os) <= cap.
Proof.
  induction os as [|o os IH]; intros q cap Hcap Hmax Hsize; cbn.
  - now split.
  - destruct (step_keeps_bound q o cap Hcap Hmax Hsize) as [Hm Hs].
    exact (IH _ cap Hcap Hm Hs).
Qed.

End QueueFacts.

(** C4. On a queue holding K items, once [shutdown()] has been called no
    [push] and no [try_push] succeeds (right after the call and after any
    number of pops), the next K calls of [pop] all succeed and return the K
    items in insertion order, and the call after them returns [false]. *)
Theorem shutdown_drains_then_closes (T : Type) (q : Queue.t T) :
  let closed := Queue.shutdown q in
  let drained := Queue.set_queue closed [] in
  (forall k x,
      match Queue.pops k closed with
      | Some (_, qk) =>
          Queue.push qk x = Done (false, qk) /\
          Queue.try_push qk x = (false, qk)
      | None => True
      end) /\
  Queue.pops (List.length (Queue.queue_ q)) closed
  = Some (Queue.queue_ q, drained) /\
  Queue.pop drained = Done (None, drained).
Proof.
  cbv zeta. split; [|split].
  - intros k x.
    destruct (Queue.pops k (Queue.shutdown q)) as [[xs qk]|] eqn:Hk; [|exact I].
    pose proof (pops_keep_flag _ _ _ _ Hk) as Hflag. cbn in Hflag.
    split.
    + now apply push_after_shutdown.
    + now apply try_push_after_shutdown.
  - apply pops_after_shutdown; [reflexivity|].
    cbn. now rewrite app_nil_r.
  - now apply pop_after_shutdown_nil.
Qed.

(** C5. [try_push] never waits.  It returns [false] and leaves the queue as
    it was exactly when the queue is shut down or it is bounded and already
    holds [max_size_] items; in every other state it returns [true] and the
    item is the new back of the buffer. *)
Theorem try_push_rejects_iff_closed_or_full (T : Type) (q : Queue.t T) (x : T) :
  let rejected :=
    Queue.shutdown_ q = true \/
    (0 < Queue.max_size_ q /\ Queue.max_size_ q <= Queue.size q) in
  (rejected /\ Queue.try_push q x = (false, q)) \/
  (~ rejected /\
   Queue.try_push q x = (true, Queue.enqueue q x) /\
   Queue.queue_ (Queue.enqueue q x) = Queue.queue_ q ++ [x] /\
   Queue.max_size_ (Queue.enqueue q x) = Queue.max_size_ q /\
   Queue.shutdown_ (Queue.enqueue q x) = Queue.shutdown_ q).
Proof.
  cbv zeta. unfold Queue.try_push.
  destruct (Queue.shutdown_ q) eqn:Hs.
  - left. split; [now left | reflexivity].
  - destruct (N.ltb_spec 0 (Queue.max_size_ q)) as [Hpos|Hzero];
      destruct (N.leb_spec (Queue.max_size_ q) (Queue.size q)) as [Hfull|Hroom];
      cbn.
    + left. split; [right; now split | reflexivity].
    + right. repeat split; [|exact Hs].
      intros [Hd | [_ Hle]]; [discriminate | lia].
    + right. repeat split; [|exact Hs].
      intros [Hd | [Hlt _]]; [discriminate | lia].
    + right. repeat split; [|exact Hs].
      intros [Hd | [Hlt _]]; [discriminate | lia].
Qed.

(** C6. In a bounded queue (capacity above 0) the number of buffered items
    never exceeds the capacity: the bound holds for the new queue, each of
    [push], [try_push], [pop], [try_pop], [pop_batch], [try_pop_batch],
    [clear] and [shutdown] keeps it, and so it holds after every sequence of
    them. *)
Theorem capacity_bound_is_invariant (T : Type) (cap bs : N) :
  0 < cap ->
  Queue.size (Queue.make (T := T) cap bs) <= cap /\
  (forall (q : Queue.t T) (o : Queue.op T),
      Queue.max_size_ q = cap -> Queue.size q <= cap ->
      Queue.max_size_ (Queue.step q o) = cap /\
      Queue.size (Queue.step q o) <= cap) /\
  (forall os : list (Queue.op T),
      Queue.size (Queue.run (Queue.make cap bs) os) <= cap).
Proof.
  intros Hcap. split; [|split].
  - cbn. lia.
  - intros q o Hmax Hsize. now apply step_keeps_bound.
  - intros os.
    apply (run_keeps_bound os (Queue.make cap bs) cap Hcap eq_refl).
    cbn. lia.
Qed.

Lemma capacity_bound_is_invariant_witness :
  0 < 2 /\
  Queue.size
    (Queue.run (Queue.make 2 100)
       [Queue.OpTryPush 10%nat; Queue.OpPush 11%nat; Queue.OpTryPush 12%nat;
        Queue.OpPush 13%nat; Queue.OpPop; Queue.OpPush 14%nat;
        Queue.OpShutdown; Queue.OpPopBatch 0 true]) <= 2.
Proof.
  split; [reflexivity|].
  apply (capacity_bound_is_invariant nat 2 100). reflexivity.
Defined.

(** * Properties of the sinks and of the dispatch *)

(** Every sink class answers [should_log] by comparing with the level that
    [get_level] reports. *)
Lemma should_log_is_threshold (s : LogSink) (l : LogLevel) :
  should_log s l = level_ge l (get_level s).
Proof.
  induction s as [id lv thr fl | lv cs | lv child IH f]; cbn;
    [reflexivity | reflexivity | exact IH].
Qed.

Lemma run_plan_app (p1 p2 : list (LogSink * LogMessage)) (w : World) :
  run_plan (p1 ++ p2) w = and_then (run_plan p1 w) (run_plan p2).
Proof.
  revert w. induction p1 as [|[s m] p1 IH]; intros w; cbn.
  - reflexivity.
  - destruct (sink_log s m w) as [w'|w']; cbn; [apply IH | reflexivity].
Qed.

(** One record: the inner loop performs the writes of the accepting sinks,
    in the order of [sinks_]. *)
Lemma process_message_plan (sinks : list LogSink) (msg : LogMessage) (w : World) :
  process_message sinks msg w
  = run_plan (map (fun s => (s, msg)) (filter (accepts msg) sinks)) w.
Proof.
  revert w. induction sinks as [|s sinks IH]; intros w; cbn.
  - reflexivity.
  - unfold accepts at 1. rewrite <- should_log_is_threshold.
    destruct (should_log s (level msg)); cbn.
    + destruct (sink_log s msg w) as [w'|w']; cbn; [apply IH | reflexivity].
    + apply IH.
Qed.

Lemma dispatch_plan_spec (sinks : list LogSink) (batch : list LogMessage)
  (s : LogSink) (m : LogMessage) :
  In (s, m) (dispatch_plan sinks batch) <->
  In m batch /\ In s sinks /\ level_ge (level m) (get_level s) = true.
Proof.
  unfold dispatch_plan. rewrite in_flat_map. split.
  - intros [m' [Hm Hin]]. apply in_map_iff in Hin.
    destruct Hin as [s' [Heq Hs]]. inversion Heq; subst.
    apply filter_In in Hs. destruct Hs as [Hs Hacc].
    repeat split; assumption.
  - intros [Hm [Hs Hacc]]. exists m. split; [exact Hm|].
    apply in_map_iff. exists s. split; [reflexivity|].
    apply filter_In. split; assumption.
Qed.

(** A throw in the inner loop: the sinks before the throwing one have run,
    the pass stops there. *)
Lemma process_message_raise (before after : list LogSink) (s : LogSink)
  (m : LogMessage) (w w1 w2 : World) :
  should_log s (level m) = true ->
  process_message before m w = Ok w1 ->
  sink_log s m w1 = Raised w2 ->
  process_message (before ++ s :: after) m w = Raised w2.
Proof.
  revert w. induction before as [|b before IH]; intros w Hacc Hbefore Hthrow.
  - cbn in *. inversion Hbefore; subst. rewrite Hacc, Hthrow. reflexivity.
  - cbn in *.
    destruct (if should_log b (level m) then sink_log b m w else Ok w)
      as [w'|w']; cbn in *; [|discriminate].
    now apply IH.
Qed.

(** C8, as stated, fails when a write throws: the second sink is registered
    and its threshold (INFO) accepts the ERROR record, yet the record never
    reaches it, because the first sink threw and [process_batch] has no
    handler. *)
Lemma dispatch_stops_at_a_throwing_sink :
  let disk := BackendSink 1 INFO always false in
  let console := BackendSink 2 INFO never false in
  let m := record_at ERROR "disk full" in
  In console [disk; console] /\
  level_ge (level m) (get_level console) = true /\
  process_batch [disk; console] [m] [] = Raised [] /\
  ~ In (Wrote 2 m) (output (process_batch [disk; console] [m] [])).
Proof.
  cbv zeta. repeat split.
  - right. left. reflexivity.
  - intros H. cbn in H. exact H.
Qed.

(** C8, amended.  [process_batch] performs exactly the writes of the
    dispatch plan, in its order (record by record, and for each record the
    registered sinks in insertion order), up to the first write that throws;
    a pair (sink, record) is in the plan iff the record is in the batch, the
    sink is registered and [record.level >= sink.threshold]; and the test
    the loop makes, [should_log], is that comparison for every sink class. *)
Theorem process_batch_follows_dispatch_plan
  (sinks : list LogSink) (batch : list LogMessage) (w : World) :
  process_batch sinks batch w = run_plan (dispatch_plan sinks batch) w /\
  (forall s m,
      In (s, m) (dispatch_plan sinks batch) <->
      In m batch /\ In s sinks /\ level_ge (level m) (get_level s) = true) /\
  (forall s l, should_log s l = level_ge l (get_level s)).
Proof.
  split; [|split].
  - revert w. induction batch as [|m batch IH]; intros w.
    + reflexivity.
    + change (dispatch_plan sinks (m :: batch))
        with (map (fun s => (s, m)) (filter (accepts m) sinks)
              ++ dispatch_plan sinks batch).
      rewrite run_plan_app, <- process_message_plan. cbn.
      destruct (process_message sinks m w) as [w'|w']; cbn;
        [apply IH | reflexivity].
  - intros s m. apply dispatch_plan_spec.
  - exact should_log_is_threshold.
Qed.

(** A throw in the outer loop: the records before the failing one have
    been dispatched, the pass stops at the throw. *)
Lemma process_batch_raise (sinks : list LogSink) (earlier later : list LogMessage)
  (m : LogMessage) (w w0 w2 : World) :
  process_batch sinks earlier w = Ok w0 ->
  process_message sinks m w0 = Raised w2 ->
  process_batch sinks (earlier ++ m :: later) w = Raised w2.
Proof.
  revert w. induction earlier as [|a earlier IH]; intros w Hearlier Hthrow.
  - cbn in *. inversion Hearlier; subst. rewrite Hthrow. reflexivity.
  - cbn in *. destruct (process_message sinks a w) as [w'|w']; cbn in *;
      [|discriminate]. now apply IH.
Qed.

(** C2, as stated, fails: with a throwing sink registered before a healthy
    one, a worker that has popped the record reaches [process_batch], the
    exception leaves it and the thread function (the process ends), and the
    healthy sink, whose threshold accepts the record, never receives it. *)
Lemma worker_pass_ends_at_a_throwing_sink :
  let failing := BackendSink 1 TRACE always false in
  let healthy := BackendSink 2 TRACE never false in
  let m := record_at WARN "low disk space" in
  let e := add_sink (add_sink (start (new_logger default_config)) failing)
                    healthy in
  let e1 := snd (log e m) in
  let env := mkEnvironment true false in
  fst (log e m) = true /\
  should_log healthy (level m) = true /\
  process_batch (sinks_ e1) [m] [] = Raised [] /\
  ~ In (Wrote 2 m) (output (process_batch (sinks_ e1) [m] [])) /\
  run_alone [env; env; env; env; env; env] e1 AtReserve []
  = Proceeds (set_logger_queue e1 (queue_ e)) (AtProcessBatch [m]) [] /\
  run_alone [env; env; env; env; env; env; env] e1 AtReserve [] = Escapes [].
Proof.
  cbv zeta. repeat split.
  intros H. cbn in H. exact H.
Qed.

(** C2, amended.  When the write of a registered sink throws on a record of
    a batch, wherever the record stands in the batch, the exception leaves
    [process_batch] and the thread function of the worker that dispatches
    the batch, and likewise [process_message] in the worker's closing loop:
    the process ends.  The output is the one at the throw: the records
    before the failing one have been dispatched, the accepting sinks
    registered before the throwing one have received the failing record,
    the sinks after it have not, and the later records of the batch are not
    dispatched. *)
Theorem sink_failure_ends_the_pass
  (e : AsyncLogger) (env : environment) (before after : list LogSink)
  (s : LogSink) (earlier later : list LogMessage) (m : LogMessage)
  (w w0 w1 w2 : World) :
  sinks_ e = before ++ s :: after ->
  process_batch (sinks_ e) earlier w = Ok w0 ->
  should_log s (level m) = true ->
  process_message before m w0 = Ok w1 ->
  sink_log s m w1 = Raised w2 ->
  process_batch (sinks_ e) (earlier ++ m :: later) w = Raised w2 /\
  worker_step e (AtProcessBatch (earlier ++ m :: later)) env w = Escapes w2 /\
  worker_step e (AtProcessMessage m) env w0 = Escapes w2.
Proof.
  intros Hsinks Hearlier Hacc Hbefore Hthrow.
  pose proof (process_message_raise before after s m w0 w1 w2
                Hacc Hbefore Hthrow) as Hpass.
  rewrite <- Hsinks in Hpass.
  pose proof (process_batch_raise (sinks_ e) earlier later m w w0 w2
                Hearlier Hpass) as Hbatch.
  split; [exact Hbatch | split].
  - cbn [worker_step].
    destruct (earlier ++ m :: later) as [|a l] eqn:E.
    + destruct earlier; discriminate E.
    + rewrite Hbatch. reflexivity.
  - cbn [worker_step]. rewrite Hpass. reflexivity.
Qed.

Lemma sink_failure_ends_the_pass_witness :
  let first := BackendSink 0 TRACE never false in
  let failing := BackendSink 1 TRACE (fun r => level_ge (level r) ERROR) false in
  let last := BackendSink 2 TRACE never false in
  let a := record_at INFO "started" in
  let m := record_at ERROR "disk full" in
  let b := record_at INFO "stopped" in
  let e := add_sink (add_sink (add_sink (start (new_logger default_config))
                                        first) failing) last in
  worker_step e (AtProcessBatch [a; m; b]) (mkEnvironment true true) []
  = Escapes [Wrote 0 a; Wrote 1 a; Wrote 2 a; Wrote 0 m].
Proof.
  cbv zeta.
  refine (proj1 (proj2
    (sink_failure_ends_the_pass _ (mkEnvironment true true)
       [BackendSink 0 TRACE never false] [BackendSink 2 TRACE never false]
       (BackendSink 1 TRACE (fun r => level_ge (level r) ERROR) false)
       [record_at INFO "started"] [record_at INFO "stopped"]
       (record_at ERROR "disk full") []
       [Wrote 0 (record_at INFO "started"); Wrote 1 (record_at INFO "started");
        Wrote 2 (record_at INFO "started")]
       [Wrote 0 (record_at INFO "started"); Wrote 1 (record_at INFO "started");
        Wrote 2 (record_at INFO "started"); Wrote 0 (record_at ERROR "disk full")]
       [Wrote 0 (record_at INFO "started"); Wrote 1 (record_at INFO "started");
        Wrote 2 (record_at INFO "started"); Wrote 0 (record_at ERROR "disk full")]
       _ _ _ _ _)));
    reflexivity.
Defined.

(** C9. A [FilterLogSink] around one child with a predicate: [log] hands the
    record to the child when the predicate returns true and does nothing
    otherwise, whatever the levels are; [flush], [get_level] and
    [should_log] are the child's, so [flush] reaches the child whatever the
    predicate says.  Seen from a child that records what it gets: the record
    shows up iff the predicate holds, and the flush always shows up. *)
Theorem filter_sink_gates_log_only
  (own : LogLevel) (child : LogSink) (pred : LogMessage -> bool)
  (m : LogMessage) (l : LogLevel) (w : World) :
  let f := FilterLogSink own child (Some pred) in
  sink_log f m w = (if pred m then sink_log child m w else Ok w) /\
  sink_flush f w = sink_flush child w /\
  get_level f = get_level child /\
  should_log f l = should_log child l /\
  (forall id lv,
      let probe := FilterLogSink own (BackendSink id lv never false)
                                 (Some pred) in
      (In (Wrote id m) (output (sink_log probe m [])) <-> pred m = true) /\
      sink_flush probe [] = Ok [Flushed id]).
Proof.
  cbv zeta. repeat split; cbn.
  - destruct (pred m); cbn; intros H; [reflexivity|contradiction].
  - intros H. rewrite H. cbn. left. reflexivity.
Qed.

(** * Properties of the logger *)

(** [log] does not touch the counter that [get_dropped_count] reads, whether
    the enqueue succeeds or not. *)
Lemma log_keeps_dropped_count (e : AsyncLogger) (m : LogMessage) :
  get_dropped_count (snd (log e m)) = get_dropped_count e.
Proof.
  unfold log. destruct (running_ e); cbn; [|reflexivity].
  destruct (Queue.try_push (queue_ e) m) as [ok q]. reflexivity.
Qed.

Lemma log_keeps_running (e : AsyncLogger) (m : LogMessage) :
  running_ (snd (log e m)) = running_ e.
Proof.
  unfold log. destruct (running_ e) eqn:Hr; cbn; [|exact Hr].
  destruct (Queue.try_push (queue_ e) m) as [ok q]. exact Hr.
Qed.

Lemma start_keeps_dropped_count (e : AsyncLogger) :
  get_dropped_count (start e) = get_dropped_count e.
Proof. unfold start. destruct (running_ e); reflexivity. Qed.

(** A failed enqueue in a running logger: [log] returns [false], and both
    the queue and the counter are as before. *)
Lemma log_on_rejecting_queue (e : AsyncLogger) (m : LogMessage) :
  running_ e = true ->
  fst (Queue.try_push (queue_ e) m) = false ->
  fst (log e m) = false /\
  get_queue_size (snd (log e m)) = get_queue_size e /\
  get_dropped_count (snd (log e m)) = get_dropped_count e.
Proof.
  intros Hrun Hfail. unfold log. rewrite Hrun. cbn.
  rewrite (try_push_failure_keeps_queue _ _ Hfail). cbn.
  destruct e; repeat split.
Qed.

(** C1, evaluated on the code: capacity 2, the logger started, A and B
    accepted; logging C returns [false] and the queue still holds two
    records, but [get_dropped_count()] is 0, not 1.  No statement of the
    logger ever writes [dropped_count_]. *)
Lemma log_on_full_queue_counts_no_drop :
  let cfg := mkConfig 2 100 1000 1 true 1024 1000 false in
  let a := log (start (new_logger cfg)) (record_at INFO "A") in
  let b := log (snd a) (record_at INFO "B") in
  let c := log (snd b) (record_at INFO "C") in
  fst a = true /\ fst b = true /\ fst c = false /\
  get_queue_size (snd c) = 2 /\
  get_dropped_count (snd c) = 0.
Proof. cbv zeta. repeat split. Qed.

(** The quotient that [get_drop_rate] computes from the two getters, when
    their sum fits a [size_t]. *)
Lemma drop_rate_formula (e : AsyncLogger) :
  get_queue_size e + get_dropped_count e < 2 ^ 64 ->
  get_drop_rate e =
  if 0 <? get_queue_size e + get_dropped_count e
  then (inject_Z (Z.of_N (get_dropped_count e))
        / inject_Z (Z.of_N (get_queue_size e + get_dropped_count e)))%Q
  else 0%Q.
Proof.
  intros Hfit. unfold get_drop_rate, size_t_wrap.
  rewrite N.mod_small by exact Hfit. reflexivity.
Qed.

(** C7, evaluated on the code: capacity 3, three records accepted and still
    queued, two more rejected; [get_drop_rate()] is 0 and not 2/5, because
    the rejected calls left [dropped_count_] at 0. *)
Lemma drop_rate_ignores_rejected_records :
  let cfg := mkConfig 3 100 1000 1 true 1024 1000 false in
  let r1 := log (start (new_logger cfg)) (record_at INFO "1") in
  let r2 := log (snd r1) (record_at INFO "2") in
  let r3 := log (snd r2) (record_at INFO "3") in
  let r4 := log (snd r3) (record_at INFO "4") in
  let r5 := log (snd r4) (record_at INFO "5") in
  [fst r1; fst r2; fst r3; fst r4; fst r5] = [true; true; true; false; false] /\
  get_queue_size (snd r5) = 3 /\
  get_dropped_count (snd r5) = 0 /\
  (get_drop_rate (snd r5) == 0)%Q /\
  ~ (get_drop_rate (snd r5) == 2 # 5)%Q.
Proof.
  cbv zeta. repeat split.
  intros H. vm_compute in H. discriminate.
Qed.

Lemma spawn_workers_joinable (n : N) (ws : list thread) :
  0 < n -> destroy_threads (spawn_workers n ws) = false.
Proof.
  intros Hn. unfold spawn_workers, destroy_threads.
  rewrite <- (N.succ_pred n) by lia.
  rewrite N.iter_succ, forallb_app. cbn.
  apply andb_false_r.
Qed.

(** With at least one worker, [stop(false)] on a started logger reaches
    [workers_.clear()] with joinable handles. *)
Lemma stop_without_wait_terminates (cfg : AsyncLoggerConfig) (w : World) :
  0 < worker_threads cfg ->
  stop (start (new_logger cfg)) false w = Terminates w.
Proof.
  intros Hn. unfold stop, start. cbn -[spawn_workers destroy_threads].
  rewrite (spawn_workers_joinable _ [] Hn). reflexivity.
Qed.

(** C3, evaluated on the code: a logger with the default configuration (one
    worker), started.  [stop(false)] skips the joins and destroys the worker
    handle while it is joinable, which ends the process; [stop(true)] on the
    same logger returns, with the logger stopped. *)
Lemma stop_false_ends_the_process (w : World) :
  let e := start (new_logger default_config) in
  running_ e = true /\
  workers_ e = [mkThread true] /\
  stop e false w = Terminates w /\
  exists e', stop e true w = Returns e' w /\ running_ e' = false.
Proof.
  cbv zeta. repeat split.
  eexists. split; reflexivity.
Qed.

Lemma stop_leaves_stopped (e e' : AsyncLogger) (wait_for_completion : bool)
  (w w' : World) :
  stop e wait_for_completion w = Returns e' w' -> running_ e' = false.
Proof.
  unfold stop. destruct (running_ e) eqn:Hr; cbn.
  - match goal with
    | |- match ?j with _ => _ end = _ -> _ => destruct j as [e2 w2|w2]
    end; [|discriminate].
    destruct (destroy_threads (workers_ e2)); [|discriminate].
    intros H. inversion H. reflexivity.
  - intros H. inversion H; subst. exact Hr.
Qed.

(** C10. A logger that is not running refuses every record: [log] returns
    [false] and the logger, queue included, is unchanged, whatever room the
    queue has.  That is the state of a new logger, before any [start()], and
    the state every returning [stop()] leaves; [log] returns [true] only in
    a running logger, [start()] is what makes it running and [log] itself
    never changes that. *)
Theorem log_refused_unless_running (e : AsyncLogger) (m : LogMessage) :
  (running_ e = false -> log e m = (false, e)) /\
  (fst (log e m) = true -> running_ e = true) /\
  (forall cfg,
      running_ (new_logger cfg) = false /\
      log (new_logger cfg) m = (false, new_logger cfg)) /\
  running_ (start e) = true /\
  running_ (snd (log e m)) = running_ e /\
  (forall wait_for_completion w e' w',
      stop e wait_for_completion w = Returns e' w' ->
      running_ e' = false /\ log e' m = (false, e')).
Proof.
  assert (Hoff : forall e0, running_ e0 = false -> log e0 m = (false, e0)).
  { intros e0 H. unfold log. rewrite H. reflexivity. }
  repeat split.
  - apply Hoff.
  - unfold log. destruct (running_ e); [reflexivity | cbn; discriminate].
  - unfold start. destruct (running_ e) eqn:Hr; [exact Hr | reflexivity].
  - apply log_keeps_running.
  - eapply stop_leaves_stopped; eassumption.
  - apply Hoff. eapply stop_leaves_stopped; eassumption.
Qed.

Lemma log_refused_unless_running_witness :
  let e := add_sink (new_logger default_config)
                    (BackendSink 1 TRACE never false) in
  get_queue_size e = 0 /\ get_queue_capacity e = 10000 /\
  log e (record_at FATAL "before start") = (false, e).
Proof.
  cbv zeta. split; [reflexivity | split; [reflexivity|]].
  apply (proj1 (log_refused_unless_running _ _)). reflexivity.
Defined.

(** * Sample runs *)

(** Three items, [shutdown()], three pops in insertion order, then [false]. *)
Example shutdown_then_three_pops :
  let q := Queue.shutdown (Queue.mk [7; 8; 9] 0 false 100) in
  Queue.pops 3 q = Some ([7; 8; 9], Queue.mk [] 0 true 100) /\
  Queue.pops 4 q = None /\
  Queue.pop (Queue.mk ([] : list N) 0 false 100) = Blocked.
Proof. cbv zeta. repeat split. Qed.

(** A full bounded queue: [try_push] fails at once, [push] would wait. *)
Example full_queue_rejects_or_blocks :
  let q := Queue.mk [1; 2] 2 false 100 in
  Queue.try_push q 3 = (false, q) /\
  Queue.push q 3 = Blocked /\
  Queue.pop_batch q [] 0 true
  = Done (Queue.Count 2, [1; 2], Queue.mk [] 2 false 100) /\
  Queue.try_pop_batch q [] 1 true
  = (Queue.Count 1, [1], Queue.mk [2] 2 false 100).
Proof. cbv zeta. repeat split. Qed.

(** A composite with child A at INFO and child B at ERROR: a WARN record
    reaches A only, a FATAL record reaches both. *)
Example composite_filters_by_child_level :
  let a := BackendSink 1 INFO never false in
  let b := BackendSink 2 ERROR never false in
  let c := CompositeLogSink TRACE [Some a; None; Some b] in
  let warn := record_at WARN "w" in
  let fatal := record_at FATAL "f" in
  sink_log c warn [] = Ok [Wrote 1 warn] /\
  sink_log c fatal [] = Ok [Wrote 1 fatal; Wrote 2 fatal] /\
  sink_flush c [] = Ok [Flushed 1; Flushed 2].
Proof. cbv zeta. repeat split. Qed.

(** A filter with predicate [level >= WARN] around a counting child. *)
Example filter_predicate_on_level :
  let child := BackendSink 1 TRACE never false in
  let f := FilterLogSink INFO child
             (Some (fun m => level_ge (level m) WARN)) in
  let info := record_at INFO "i" in
  let err := record_at ERROR "e" in
  sink_log f info [] = Ok [] /\
  sink_log f err [] = Ok [Wrote 1 err] /\
  sink_flush f [] = Ok [Flushed 1] /\
  sink_log (FilterLogSink INFO child None) err [] = Ok [].
Proof. cbv zeta. repeat split. Qed.

(** * Level names and comparisons *)

Lemma to_upper_level_name (l : LogLevel) : to_upper (to_string l) = to_string l.
Proof. destruct l; reflexivity. Qed.

Lemma to_string_injective (a b : LogLevel) : to_string a = to_string b -> a = b.
Proof. destruct a, b; cbn; intros H; try reflexivity; discriminate. Qed.

(** X1. Parsing the name that [to_string] prints gives the level back, for
    each of the seven levels. *)
Theorem from_string_inverts_to_string (l : LogLevel) :
  from_string (to_string l) = Parsed l.
Proof. destruct l; reflexivity. Qed.

(** X2. [from_string] looks only at the upper-cased spelling: it returns the
    level whose name that spelling is, and when the spelling is no level
    name it throws [invalid_argument] with the text as it was given. *)
Theorem from_string_accepts_names_in_any_case (str : string) :
  (exists l, to_upper str = to_string l /\ from_string str = Parsed l) \/
  ((forall l, to_upper str <> to_string l) /\
   from_string str = InvalidArgument ("Invalid log level: " ++ str)%string).
Proof.
  unfold from_string. cbv zeta.
  destruct (String.eqb_spec (to_upper str) "TRACE") as [E0|N0];
    [left; exists TRACE; split; [exact E0 | reflexivity]|].
  destruct (String.eqb_spec (to_upper str) "DEBUG") as [E1|N1];
    [left; exists DEBUG; split; [exact E1 | reflexivity]|].
  destruct (String.eqb_spec (to_upper str) "INFO") as [E2|N2];
    [left; exists INFO; split; [exact E2 | reflexivity]|].
  destruct (String.eqb_spec (to_upper str) "WARN") as [E3|N3];
    [left; exists WARN; split; [exact E3 | reflexivity]|].
  destruct (String.eqb_spec (to_upper str) "ERROR") as [E4|N4];
    [left; exists ERROR; split; [exact E4 | reflexivity]|].
  destruct (String.eqb_spec (to_upper str) "FATAL") as [E5|N5];
    [left; exists FATAL; split; [exact E5 | reflexivity]|].
  destruct (String.eqb_spec (to_upper str) "OFF") as [E6|N6];
    [left; exists OFF; split; [exact E6 | reflexivity]|].
  right. split; [|reflexivity].
  intros l; destruct l; assumption.
Qed.

(** X3. The four comparison operators describe one total order on the
    levels, with TRACE lowest and OFF highest: [<] is the negation of [>=],
    [>] the negation of [<=], [<=] is [>=] with the sides exchanged, [>=]
    is antisymmetric, transitive and total. *)
Theorem level_operators_form_a_total_order (a b c : LogLevel) :
  level_lt a b = negb (level_ge a b) /\
  level_gt a b = negb (level_le a b) /\
  level_le a b = level_ge b a /\
  (level_ge a b = true -> level_ge b a = true -> a = b) /\
  (level_ge a b = true -> level_ge b c = true -> level_ge a c = true) /\
  (level_ge a b = true \/ level_ge b a = true) /\
  level_ge a TRACE = true /\ level_ge OFF a = true.
Proof.
  repeat split.
  - destruct a, b; reflexivity.
  - destruct a, b; reflexivity.
  - destruct a, b; cbn; intros; try reflexivity; discriminate.
  - unfold level_ge. rewrite !N.leb_le. lia.
  - unfold level_ge. rewrite !N.leb_le. lia.
  - destruct a; reflexivity.
  - destruct a; reflexivity.
Qed.

(** X4. A sink whose threshold is OFF is not silent: it rejects the records
    of the six levels TRACE..FATAL and accepts a record whose own level is
    OFF. *)
Theorem threshold_off_accepts_only_off (s : LogSink) (l : LogLevel) :
  get_level s = OFF -> (should_log s l = true <-> l = OFF).
Proof.
  intros Hoff. rewrite should_log_is_threshold, Hoff.
  destruct l; cbn; split; intros H; try reflexivity; discriminate.
Qed.

Lemma threshold_off_accepts_only_off_witness :
  should_log (FilterLogSink INFO (BackendSink 1 OFF never false) None) OFF
  = true.
Proof.
  apply (proj2 (threshold_off_accepts_only_off
                  (FilterLogSink INFO (BackendSink 1 OFF never false) None)
                  OFF eq_refl)).
  reflexivity.
Defined.

(** * Sensitive keywords *)

(** X5. [remove_sensitive_keyword] erases one entry, the first that equals
    the keyword: a keyword that is not in the list leaves the list as it
    was, a keyword added twice is still there after one removal, and adding
    a new keyword and removing it again gives the list back. *)
Theorem remove_sensitive_keyword_erases_first (keywords : list text) (k : text) :
  (~ In k keywords -> remove_sensitive_keyword keywords k = keywords) /\
  (forall before after,
      keywords = before ++ k :: after -> ~ In k before ->
      remove_sensitive_keyword keywords k = before ++ after) /\
  (~ In k keywords ->
   remove_sensitive_keyword (add_sensitive_keyword keywords k) k = keywords) /\
  In k (remove_sensitive_keyword
          (add_sensitive_keyword (add_sensitive_keyword keywords k) k) k).
Proof.
  assert (Hsplit : forall before after,
             ~ In k before ->
             remove_sensitive_keyword (before ++ k :: after) k = before ++ after).
  { induction before as [|b before IH]; intros after Hnot; cbn.
    - destruct (text_eq_dec k k) as [_|N]; [reflexivity | contradiction].
    - destruct (text_eq_dec b k) as [E|N].
      + exfalso. apply Hnot. left. exact E.
      + rewrite IH; [reflexivity|]. intros H. apply Hnot. right. exact H. }
  assert (Habsent : forall ks, ~ In k ks -> remove_sensitive_keyword ks k = ks).
  { induction ks as [|b ks IH]; intros Hnot; cbn; [reflexivity|].
    destruct (text_eq_dec b k) as [E|N].
    - exfalso. apply Hnot. left. exact E.
    - rewrite IH; [reflexivity|]. intros H. apply Hnot. right. exact H. }
  repeat split.
  - apply Habsent.
  - intros before after Heq Hnot. subst. now apply Hsplit.
  - intros Hnot. unfold add_sensitive_keyword.
    rewrite (Hsplit keywords [] Hnot). apply app_nil_r.
  - unfold add_sensitive_keyword.
    destruct (in_dec text_eq_dec k keywords) as [Hin|Hnot].
    + assert (Hfirst : exists before after,
                 keywords = before ++ k :: after /\ ~ In k before).
      { clear Hsplit Habsent.
        induction keywords as [|b ks IH]; [destruct Hin|].
        destruct (text_eq_dec b k) as [E|N].
        - exists [], ks. subst. split; [reflexivity | intros []].
        - destruct Hin as [E|Hin]; [contradiction|].
          destruct (IH Hin) as [before [after [Heq Hnot]]].
          exists (b :: before), after. subst. split; [reflexivity|].
          intros [E|H]; [contradiction | exact (Hnot H)]. }
      destruct Hfirst as [before [after [Hk Hnot]]].
      rewrite Hk, <- !app_assoc. cbn.
      rewrite Hsplit by exact Hnot.
      apply in_or_app. right. apply in_or_app. right. left. reflexivity.
    + rewrite <- app_assoc. cbn. rewrite (Hsplit keywords [k] Hnot).
      apply in_or_app. right. left. reflexivity.
Qed.

Lemma starts_with_spec (k s : text) :
  starts_with k s = true <-> exists rest, s = k ++ rest.
Proof.
  revert s. induction k as [|a k IH]; intros s; cbn.
  - split; [intros _; exists s; reflexivity | reflexivity].
  - destruct s as [|b s].
    + split; [discriminate | intros [rest H]; discriminate].
    + destruct (Ascii.eqb_spec a b) as [E|N].
      * subst. rewrite IH. split; intros [rest H]; exists rest.
        -- now subst.
        -- now inversion H.
      * split; [discriminate | intros [rest H]; inversion H; subst; contradiction].
Qed.

Lemma starts_with_length (k s : text) :
  starts_with k s = true -> (List.length k <= List.length s)%nat.
Proof.
  intros H. apply starts_with_spec in H. destruct H as [rest H]. subst.
  rewrite length_app. lia.
Qed.

(** A match that begins inside [x] and where [x] ends either lies within
    [x] or runs into what follows. *)
Lemma starts_with_app (k x z : text) :
  starts_with k (x ++ z) = true ->
  starts_with k x = true \/
  exists c z', z = c :: z' /\ In c k.
Proof.
  revert x. induction k as [|a k IH]; intros x H; cbn in *.
  - left. reflexivity.
  - destruct x as [|b x]; cbn in *.
    + destruct z as [|c z']; [discriminate|].
      destruct (Ascii.eqb_spec a c) as [E|N]; [|discriminate].
      right. exists c, z'. split; [reflexivity | left; exact E].
    + destruct (Ascii.eqb_spec a b) as [E|N]; [|discriminate].
      destruct (IH x H) as [Hx | [c [z' [Hz Hin]]]].
      * left. exact Hx.
      * right. exists c, z'. split; [exact Hz | right; exact Hin].
Qed.

Lemma starts_with_app_left (k x z : text) :
  starts_with k x = true -> starts_with k (x ++ z) = true.
Proof.
  intros H. apply starts_with_spec in H. destruct H as [rest H]. subst.
  apply starts_with_spec. exists (rest ++ z). now rewrite app_assoc.
Qed.

Lemma find_from_some (k : text) : forall s i j,
  find_from k s i = Some j ->
  (i <= j)%nat /\ (j - i <= List.length s)%nat /\
  starts_with k (skipn (j - i) s) = true /\
  forall t, (t < j - i)%nat -> starts_with k (skipn t s) = false.
Proof.
  induction s as [|c s IH]; intros i j H; cbn [find_from] in H.
  - destruct (starts_with k []) eqn:E; [|discriminate].
    inversion H; subst. rewrite Nat.sub_diag. cbn.
    repeat split; [lia | lia | exact E | intros t Ht; lia].
  - destruct (starts_with k (c :: s)) eqn:E.
    + inversion H; subst. rewrite Nat.sub_diag. cbn [skipn].
      repeat split; [lia | lia | exact E | intros t Ht; lia].
    + destruct (IH _ _ H) as [Hle [Hlen [Hat Hbefore]]].
      replace (j - i)%nat with (S (j - S i)) by lia. cbn [skipn List.length].
      repeat split; [lia | lia | exact Hat |].
      intros [|t] Ht; cbn [skipn]; [exact E | apply Hbefore; lia].
Qed.

Lemma find_from_none (k : text) : forall s i,
  find_from k s i = None -> forall t, starts_with k (skipn t s) = false.
Proof.
  induction s as [|c s IH]; intros i H t; cbn [find_from] in H.
  - destruct (starts_with k []) eqn:E; [discriminate|].
    destruct t; exact E.
  - destruct (starts_with k (c :: s)) eqn:E; [discriminate|].
    destruct t as [|t]; cbn [skipn]; [exact E | exact (IH _ H t)].
Qed.

Lemma skipn_skipn_add (A : Type) (a b : nat) (l : list A) :
  skipn a (skipn b l) = skipn (a + b) l.
Proof.
  revert l. induction b as [|b IH]; intros l.
  - now rewrite Nat.add_0_r.
  - destruct l as [|x l]; cbn [skipn].
    + now rewrite !skipn_nil.
    + rewrite IH. replace (a + S b)%nat with (S (a + b)) by lia. reflexivity.
Qed.

(** What [find] returns, in positions of the whole text. *)
Lemma find_some (f k : text) (pos j : nat) :
  find f k pos = Some j ->
  (pos <= j)%nat /\ (j + List.length k <= List.length f)%nat /\
  starts_with k (skipn j f) = true /\
  forall t, (pos <= t < j)%nat -> starts_with k (skipn t f) = false.
Proof.
  unfold find. destruct (Nat.leb_spec pos (List.length f)) as [Hpos|]; [|discriminate].
  intros H. destruct (find_from_some k _ _ _ H) as [Hle [Hlen [Hat Hbefore]]].
  rewrite skipn_skipn_add in Hat.
  replace (j - pos + pos)%nat with j in Hat by lia.
  pose proof (starts_with_length _ _ Hat) as Hk.
  rewrite length_skipn in Hk, Hlen.
  repeat split; [exact Hle | lia | exact Hat |].
  intros t [Ht1 Ht2].
  specialize (Hbefore (t - pos)%nat ltac:(lia)).
  rewrite skipn_skipn_add in Hbefore.
  replace (t - pos + pos)%nat with t in Hbefore by lia. exact Hbefore.
Qed.

Lemma find_none (f k : text) (pos : nat) :
  (pos <= List.length f)%nat -> find f k pos = None ->
  forall t, (pos <= t)%nat -> starts_with k (skipn t f) = false.
Proof.
  unfold find. intros Hpos.
  destruct (Nat.leb_spec pos (List.length f)) as [_|]; [|lia].
  intros H t Ht. pose proof (find_from_none k _ _ H (t - pos)%nat) as Hn.
  rewrite skipn_skipn_add in Hn.
  replace (t - pos + pos)%nat with t in Hn by lia. exact Hn.
Qed.

Lemma length_replace (f : text) (j n : nat) :
  (j + n <= List.length f)%nat ->
  List.length (replace f j n) = (List.length f - n + 3)%nat.
Proof.
  intros H. unfold replace, stars.
  rewrite !length_app, length_firstn, length_skipn. cbn. lia.
Qed.

(** With a keyword that is not empty every turn of the loop brings the
    position closer to the end of the text. *)
Lemma mask_loop_ends (k : text) : k <> [] ->
  forall fuel f pos,
    (List.length f - pos < fuel)%nat ->
    exists r, mask_loop fuel k f pos = Some r.
Proof.
  intros Hk. induction fuel as [|fuel IH]; intros f pos Hfuel; [lia|].
  cbn [mask_loop]. destruct (find f k pos) as [j|] eqn:Hfind.
  - destruct (find_some _ _ _ _ Hfind) as [Hle [Hlen _]].
    assert (0 < List.length k)%nat by (destruct k; [contradiction | cbn; lia]).
    apply IH. rewrite length_replace by exact Hlen. lia.
  - exists f. reflexivity.
Qed.

Lemma mask_loop_more_fuel (k : text) : forall fuel f pos r,
  mask_loop fuel k f pos = Some r ->
  forall fuel', (fuel <= fuel')%nat -> mask_loop fuel' k f pos = Some r.
Proof.
  induction fuel as [|fuel IH]; intros f pos r H fuel' Hle; [discriminate|].
  destruct fuel' as [|fuel']; [lia|]. cbn [mask_loop] in *.
  destruct (find f k pos) as [j|]; [|exact H].
  apply (IH _ _ _ H). lia.
Qed.

Lemma mask_loop_never_ends_on_empty_keyword : forall fuel f pos,
  (pos <= List.length f)%nat -> mask_loop fuel [] f pos = None.
Proof.
  induction fuel as [|fuel IH]; intros f pos Hpos; [reflexivity|].
  cbn [mask_loop]. unfold find.
  destruct (Nat.leb_spec pos (List.length f)) as [_|]; [|lia].
  assert (Hfound : find_from [] (skipn pos f) pos = Some pos)
    by (destruct (skipn pos f); reflexivity).
  rewrite Hfound. apply IH.
  rewrite length_replace by (cbn; lia). cbn. lia.
Qed.

(** X6. An empty keyword makes the masking loop endless: [find] keeps
    answering the current position, three stars are inserted there and the
    position moves past them, still inside the text.  So with an empty
    string among the sensitive keywords, [filter_sensitive_info] (filter
    switched on) and [Logger::filter_sensitive_info] never return, for any
    message and whatever the keywords before it did. *)
Theorem empty_keyword_hangs_the_filter
  (fuel : nat) (keywords : list text) (message : text) :
  In [] keywords ->
  filter_sensitive_info fuel true keywords message = None /\
  logger_filter_sensitive_info fuel keywords message = None.
Proof.
  intros Hin.
  assert (H : mask_keywords fuel keywords message = None).
  { revert message. induction keywords as [|k ks IH]; intros message;
      [destruct Hin|]. cbn [mask_keywords].
    destruct Hin as [E|Hin].
    - subst. rewrite mask_loop_never_ends_on_empty_keyword by lia. reflexivity.
    - destruct (mask_loop fuel k message 0); [apply IH; exact Hin | reflexivity]. }
  split; exact H.
Qed.

Lemma empty_keyword_hangs_the_filter_witness :
  filter_sensitive_info 1000 true
    [list_ascii_of_string "password"; []] (list_ascii_of_string "hello")
  = None.
Proof.
  apply (proj1 (empty_keyword_hangs_the_filter 1000
                  [list_ascii_of_string "password"; []]
                  (list_ascii_of_string "hello")
                  (or_intror (or_introl eq_refl)))).
Defined.

(** X7. When no keyword is empty the filter returns: some number of turns
    is enough for all the keyword loops, and more turns change nothing. *)
Theorem filter_returns_without_empty_keywords
  (keywords : list text) (message : text) (sensitive_filter_ : bool) :
  ~ In [] keywords ->
  exists fuel r,
    forall fuel', (fuel <= fuel')%nat ->
      filter_sensitive_info fuel' sensitive_filter_ keywords message = Some r /\
      (sensitive_filter_ = true ->
       logger_filter_sensitive_info fuel' keywords message = Some r).
Proof.
  intros Hne.
  assert (H : exists fuel r, forall fuel', (fuel <= fuel')%nat ->
                mask_keywords fuel' keywords message = Some r).
  { revert message. induction keywords as [|k ks IH]; intros message.
    - exists 0%nat, message. reflexivity.
    - assert (Hk : k <> []) by (intros E; apply Hne; left; exact E).
      destruct (mask_loop_ends k Hk (S (List.length message)) message 0
                  ltac:(lia)) as [r1 Hr1].
      destruct (IH (fun H => Hne (or_intror H)) r1) as [fuel2 [r Hr]].
      exists (Nat.max (S (List.length message)) fuel2), r.
      intros fuel' Hle. cbn [mask_keywords].
      rewrite (mask_loop_more_fuel k _ _ _ _ Hr1 fuel') by lia.
      apply Hr. lia. }
  destruct H as [fuel [r Hr]].
  destruct sensitive_filter_.
  - exists fuel, r. intros fuel' Hle. split; [|intros _]; apply Hr; exact Hle.
  - exists 0%nat, message. intros fuel' _. split; [reflexivity | discriminate].
Qed.

Lemma filter_returns_without_empty_keywords_witness :
  exists fuel r,
    forall fuel', (fuel <= fuel')%nat ->
      filter_sensitive_info fuel' true [list_ascii_of_string "secret"]
        (list_ascii_of_string "a secret, two secrets") = Some r /\
      (true = true ->
       logger_filter_sensitive_info fuel' [list_ascii_of_string "secret"]
         (list_ascii_of_string "a secret, two secrets") = Some r).
Proof.
  apply (filter_returns_without_empty_keywords
           [list_ascii_of_string "secret"]
           (list_ascii_of_string "a secret, two secrets") true).
  intros [H|[]]. discriminate H.
Defined.

Lemma free_of_not_occurs (k s : text) : free_of k s -> ~ occurs k s.
Proof.
  intros Hfree [before [after Heq]].
  specialize (Hfree (List.length before)). subst s.
  rewrite skipn_app, skipn_all, Nat.sub_diag in Hfree. cbn in Hfree.
  assert (H : starts_with k (k ++ after) = true)
    by (apply starts_with_spec; exists after; reflexivity).
  congruence.
Qed.

Lemma starts_with_star (k rest : text) :
  k <> [] -> ~ In star k -> starts_with k (star :: rest) = false.
Proof.
  intros Hne Hstar. destruct k as [|c k]; [contradiction|]. cbn.
  destruct (Ascii.eqb_spec c star) as [E|N]; [|reflexivity].
  exfalso. apply Hstar. left. exact E.
Qed.

(** After a replacement at [j], no copy of a star-free keyword starts
    before the end of the three stars, if none started before [j]. *)
Lemma replace_free_below (k f : text) (j n : nat) :
  k <> [] -> ~ In star k -> (j <= List.length f)%nat ->
  (forall t, (t < j)%nat -> starts_with k (skipn t f) = false) ->
  forall t, (t < j + 3)%nat ->
    starts_with k (skipn t (replace f j n)) = false.
Proof.
  intros Hne Hstar Hj Hbelow t Ht. unfold replace.
  rewrite skipn_app, length_firstn, Nat.min_l by exact Hj.
  destruct (Nat.lt_ge_cases t j) as [Hlow|Hhigh].
  - replace (t - j)%nat with 0%nat by lia. cbn [skipn].
    destruct (starts_with k (skipn t (firstn j f) ++ stars ++ skipn (j + n) f))
      eqn:E; [|reflexivity].
    exfalso. apply starts_with_app in E.
    destruct E as [Hin | [c [z' [Hz Hc]]]].
    + apply (starts_with_app_left _ _ (skipn j f)) in Hin.
      assert (Hsplit : skipn t (firstn j f) ++ skipn j f = skipn t f).
      { rewrite <- (firstn_skipn j f) at 3.
        rewrite skipn_app, length_firstn, Nat.min_l by exact Hj.
        replace (t - j)%nat with 0%nat by lia. reflexivity. }
      rewrite Hsplit in Hin. rewrite (Hbelow t Hlow) in Hin. discriminate.
    + unfold stars in Hz. cbn in Hz. inversion Hz; subst.
      apply Hstar. exact Hc.
  - rewrite skipn_all2 by (rewrite length_firstn; lia). cbn [app].
    assert (Hcases : (t - j = 0 \/ t - j = 1 \/ t - j = 2)%nat) by lia.
    unfold stars.
    destruct Hcases as [E | [E | E]]; rewrite E; cbn [skipn app list_ascii_of_string];
      apply starts_with_star; assumption.
Qed.

Lemma replace_free_above (k f : text) (j n : nat) :
  (j <= List.length f)%nat ->
  (forall t, (j + n <= t)%nat -> starts_with k (skipn t f) = false) ->
  forall t, (j + 3 <= t)%nat ->
    starts_with k (skipn t (replace f j n)) = false.
Proof.
  intros Hj Habove t Ht. unfold replace, stars.
  rewrite skipn_app, length_firstn, Nat.min_l by exact Hj.
  rewrite skipn_all2 by (rewrite length_firstn; lia). cbn [app].
  rewrite skipn_app. cbn [List.length list_ascii_of_string].
  rewrite skipn_all2 by (cbn; lia). cbn [app].
  rewrite skipn_skipn_add. apply Habove. lia.
Qed.

Lemma replace_keeps_free (k f : text) (j n : nat) :
  k <> [] -> ~ In star k -> (j <= List.length f)%nat ->
  free_of k f -> free_of k (replace f j n).
Proof.
  intros Hne Hstar Hj Hfree t.
  destruct (Nat.lt_ge_cases t (j + 3)) as [Hlow|Hhigh].
  - apply replace_free_below; try assumption. intros u _. apply Hfree.
  - apply replace_free_above; try assumption. intros u _. apply Hfree.
Qed.

(** The loop for keyword [k] leaves no copy of [k]. *)
Lemma mask_loop_masks (k : text) : k <> [] -> ~ In star k ->
  forall fuel f pos r,
    (forall t, (t < pos)%nat -> starts_with k (skipn t f) = false) ->
    mask_loop fuel k f pos = Some r -> free_of k r.
Proof.
  intros Hne Hstar. induction fuel as [|fuel IH]; intros f pos r Hbelow H;
    [discriminate|].
  cbn [mask_loop] in H. destruct (find f k pos) as [j|] eqn:Hfind.
  - destruct (find_some _ _ _ _ Hfind) as [Hle [Hlen [_ Hmin]]].
    assert (Hbefore : forall t, (t < j)%nat ->
                        starts_with k (skipn t f) = false).
    { intros t Ht. destruct (Nat.lt_ge_cases t pos) as [Hlow|Hhigh];
        [apply Hbelow; exact Hlow | apply Hmin; lia]. }
    apply (IH _ _ _ (replace_free_below k f j (List.length k) Hne Hstar
                       ltac:(lia) Hbefore) H).
  - inversion H; subst. intros t.
    destruct (Nat.lt_ge_cases t pos) as [Hlow|Hhigh]; [now apply Hbelow|].
    destruct (Nat.leb_spec pos (List.length r)) as [Hpos|Hpos].
    + now apply (find_none r k pos Hpos Hfind).
    + rewrite skipn_all2 by lia. destruct k; [contradiction | reflexivity].
Qed.

(** The loop for keyword [k] brings in no copy of another star-free
    keyword. *)
Lemma mask_loop_keeps_free (k k' : text) : k' <> [] -> ~ In star k' ->
  forall fuel f pos r,
    free_of k' f -> mask_loop fuel k f pos = Some r -> free_of k' r.
Proof.
  intros Hne Hstar. induction fuel as [|fuel IH]; intros f pos r Hfree H;
    [discriminate|].
  cbn [mask_loop] in H. destruct (find f k pos) as [j|] eqn:Hfind.
  - destruct (find_some _ _ _ _ Hfind) as [Hle [Hlen _]].
    apply (IH _ _ _ (replace_keeps_free k' f j (List.length k) Hne Hstar
                       ltac:(lia) Hfree) H).
  - inversion H; subst. exact Hfree.
Qed.

Lemma mask_keywords_masks (fuel : nat) (keywords : list text) :
  (forall k, In k keywords -> k <> [] /\ ~ In star k) ->
  forall message r,
    mask_keywords fuel keywords message = Some r ->
    (forall k', k' <> [] -> ~ In star k' -> free_of k' message -> free_of k' r) /\
    (forall k, In k keywords -> free_of k r).
Proof.
  induction keywords as [|k ks IH]; intros Hok message r H; cbn [mask_keywords] in H.
  - inversion H; subst. split; [intros; assumption | intros k []].
  - destruct (mask_loop fuel k message 0) as [m1|] eqn:Hloop; [|discriminate].
    destruct (Hok k (or_introl eq_refl)) as [Hne Hstar].
    destruct (IH (fun k' Hin => Hok k' (or_intror Hin)) m1 r H) as [Hkeep Hall].
    split.
    + intros k' Hne' Hstar' Hfree. apply Hkeep; try assumption.
      exact (mask_loop_keeps_free k k' Hne' Hstar' _ _ _ _ Hfree Hloop).
    + intros k0 [E|Hin]; [subst k0 | now apply Hall].
      apply Hkeep; try assumption.
      apply (mask_loop_masks k Hne Hstar _ _ _ _
               (fun t (Ht : (t < 0)%nat) =>
                  False_ind _ (Nat.nlt_0_r t Ht)) Hloop).
Qed.

(** X8. When the filter is on and no sensitive keyword is empty or contains
    the character [*], the text that [filter_sensitive_info] returns
    contains none of the keywords. *)
Theorem filtered_text_contains_no_keyword
  (fuel : nat) (keywords : list text) (message r : text) :
  (forall k, In k keywords -> k <> [] /\ ~ In star k) ->
  filter_sensitive_info fuel true keywords message = Some r ->
  forall k, In k keywords -> ~ occurs k r.
Proof.
  intros Hok H k Hin. apply free_of_not_occurs.
  exact (proj2 (mask_keywords_masks fuel keywords Hok message r H) k Hin).
Qed.

Lemma filtered_text_contains_no_keyword_witness :
  filter_sensitive_info 50 true
    [list_ascii_of_string "secret"; list_ascii_of_string "pin"]
    (list_ascii_of_string "pin 1234 is secret, secretpin")
  = Some (list_ascii_of_string "*** 1234 is ***, ******") /\
  ~ occurs (list_ascii_of_string "pin")
           (list_ascii_of_string "*** 1234 is ***, ******").
Proof.
  split; [reflexivity|].
  apply (filtered_text_contains_no_keyword 50
           [list_ascii_of_string "secret"; list_ascii_of_string "pin"]
           (list_ascii_of_string "pin 1234 is secret, secretpin")).
  - intros k [E | [E | []]]; subst k; (split; [discriminate|]);
      cbn; unfold star; intuition discriminate.
  - reflexivity.
  - right. left. reflexivity.
Defined.

(** A keyword that contains [*] can survive its own masking. *)
Example starred_keyword_survives :
  filter_sensitive_info 50 true [[star]] [star] = Some stars /\
  occurs [star] stars.
Proof. split; [reflexivity | exists [], [star; star]; reflexivity]. Qed.

(** * More on the queue *)

Section QueueMore.

Context {T : Type}.
Implicit Types (q : Queue.t T) (x : T) (l : list T).

Lemma pops_fifo l : forall q l',
  Queue.queue_ q = l ++ l' ->
  Queue.pops (List.length l) q = Some (l, Queue.set_queue q l').
Proof.
  induction l as [|y l IH]; intros q l' Hq; cbn.
  - destruct q as [items cap sd bs]; cbn in *. subst. reflexivity.
  - assert (Hpop : Queue.pop q = Done (Some y, Queue.set_queue q (l ++ l'))).
    { unfold Queue.pop, Queue.empty, Queue.take_front, wait. rewrite Hq. cbn.
      rewrite andb_false_r. reflexivity. }
    rewrite Hpop, (IH (Queue.set_queue q (l ++ l')) l' eq_refl). reflexivity.
Qed.

Lemma run_app q (os1 os2 : list (Queue.op T)) :
  Queue.run q (os1 ++ os2) = Queue.run (Queue.run q os1) os2.
Proof. unfold Queue.run. apply fold_left_app. Qed.

(** Accepted pushes line up at the back, in the order of the calls. *)
Lemma run_pushes_append (mk_op : T -> Queue.op T) :
  (mk_op = Queue.OpPush \/ mk_op = Queue.OpTryPush) ->
  forall xs q,
    Queue.shutdown_ q = false ->
    (Queue.max_size_ q = 0 \/
     Queue.size q + N.of_nat (List.length xs) <= Queue.max_size_ q) ->
    Queue.run q (map mk_op xs) = Queue.set_queue q (Queue.queue_ q ++ xs).
Proof.
  intros Hop. induction xs as [|x xs IH]; intros q Hopen Hroom.
  - cbn. rewrite app_nil_r. destruct q; reflexivity.
  - cbn [map Queue.run fold_left].
    assert (Hstep : Queue.step q (mk_op x) = Queue.enqueue q x).
    { destruct Hop; subst mk_op; cbn.
      - unfold Queue.push, wait. rewrite Hopen.
        destruct (N.ltb_spec 0 (Queue.max_size_ q)); [|reflexivity].
        rewrite orb_false_r.
        destruct (N.ltb_spec (Queue.size q) (Queue.max_size_ q));
          [reflexivity|]. cbn [List.length] in Hroom. lia.
      - unfold Queue.try_push. rewrite Hopen.
        destruct (N.ltb_spec 0 (Queue.max_size_ q)); [|reflexivity].
        destruct (N.leb_spec (Queue.max_size_ q) (Queue.size q));
          [|reflexivity]. cbn [List.length] in Hroom. lia. }
    rewrite Hstep.
    change (fold_left Queue.step (map mk_op xs) (Queue.enqueue q x))
      with (Queue.run (Queue.enqueue q x) (map mk_op xs)).
    rewrite IH.
    + unfold Queue.enqueue, Queue.set_queue. cbn. rewrite <- app_assoc.
      reflexivity.
    + exact Hopen.
    + destruct Hroom as [Hz|Hr]; [left; exact Hz | right].
      rewrite size_enqueue. cbn [List.length] in Hr. cbn. lia.
Qed.

End QueueMore.

(** X9. First in, first out.  On a queue that is open and has room (it is
    unbounded, or its size plus the number of new items stays within the
    capacity) every [push] and every [try_push] is accepted, the items join
    the back in call order, and as many [pop] calls as there are items
    return the old items and then the new ones, in that order, leaving the
    queue empty. *)
Theorem pushes_then_pops_are_fifo (T : Type) (q : Queue.t T) (xs ys : list T) :
  Queue.shutdown_ q = false ->
  (Queue.max_size_ q = 0 \/
   Queue.size q + N.of_nat (List.length (xs ++ ys)) <= Queue.max_size_ q) ->
  let q' := Queue.run q (map Queue.OpPush xs ++ map Queue.OpTryPush ys) in
  Queue.queue_ q' = Queue.queue_ q ++ xs ++ ys /\
  Queue.pops (List.length (Queue.queue_ q ++ xs ++ ys)) q'
  = Some (Queue.queue_ q ++ xs ++ ys, Queue.set_queue q' []).
Proof.
  intros Hopen Hroom. cbv zeta.
  assert (Hq' : Queue.run q (map Queue.OpPush xs ++ map Queue.OpTryPush ys)
                = Queue.set_queue q (Queue.queue_ q ++ xs ++ ys)).
  { rewrite run_app, (run_pushes_append Queue.OpPush (or_introl eq_refl) xs q Hopen).
    - rewrite (run_pushes_append Queue.OpTryPush (or_intror eq_refl)).
      + cbn. rewrite <- app_assoc. reflexivity.
      + exact Hopen.
      + destruct Hroom as [Hz|Hr]; [left; exact Hz | right]. cbn.
        unfold Queue.size in *. cbn. rewrite !length_app in *. lia.
    - destruct Hroom as [Hz|Hr]; [left; exact Hz | right].
      rewrite length_app in Hr. lia. }
  rewrite Hq'. split; [reflexivity|].
  apply (pops_fifo (Queue.queue_ q ++ xs ++ ys)
           (Queue.set_queue q (Queue.queue_ q ++ xs ++ ys)) []).
  cbn. now rewrite app_nil_r.
Qed.

Lemma pushes_then_pops_are_fifo_witness :
  Queue.pops 4 (Queue.run (Queue.mk [1] 4 false 100)
                  (map Queue.OpPush [2; 3] ++ map Queue.OpTryPush [4]))
  = Some ([1; 2; 3; 4], Queue.mk [] 4 false 100).
Proof.
  refine (proj2 (pushes_then_pops_are_fifo N (Queue.mk [1] 4 false 100)
                   [2; 3] [4] eq_refl (or_intror _))).
  vm_compute. discriminate.
Defined.

Lemma batch_loop_takes_prefix (T : Type) (l : list T) :
  forall (batch : list T) (count max_items : N) (k : nat),
    max_items < 2 ^ 64 ->
    k = Nat.min (List.length l) (N.to_nat (max_items - count)) ->
    Queue.batch_loop l batch count max_items
    = (skipn k l, batch ++ firstn k l, count + N.of_nat k).
Proof.
  induction l as [|x l IH]; intros batch count max_items k Hmax Hk.
  - cbn in *. subst k. cbn. rewrite app_nil_r, N.add_0_r. reflexivity.
  - cbn [Queue.batch_loop]. destruct (N.ltb_spec count max_items) as [Hlt|Hge].
    + assert (Hwrap : size_t_wrap (count + 1) = count + 1)
        by (unfold size_t_wrap; apply N.mod_small; lia).
      rewrite Hwrap.
      destruct k as [|k'].
      * cbn [List.length] in Hk. lia.
      * rewrite (IH (batch ++ [x]) (count + 1) max_items k' Hmax).
        -- cbn [skipn firstn]. rewrite <- app_assoc. cbn [app].
           f_equal. lia.
        -- cbn [List.length] in Hk. lia.
    + assert (Hk0 : k = 0%nat) by (cbn [List.length] in Hk; lia).
      rewrite Hk0. cbn. rewrite app_nil_r, N.add_0_r. reflexivity.
Qed.

(** X10. A batch is a prefix of the queue.  With a non-empty queue, when
    the reservation [batch.reserve(max_items)] goes through, [pop_batch] and
    [try_pop_batch] move the first [min(size, max_items)] items into the
    batch, in queue order, replace what the batch held, leave the rest
    queued and return that number ([max_items] is [batch_size_] when 0 is
    passed); when the reservation throws, the exception leaves the call
    with the batch emptied and the queue as it was.  On an empty queue
    [try_pop_batch] returns 0, [pop_batch] returns 0 after shutdown and
    waits otherwise; nothing is reserved and the caller's batch is left as
    it was. *)
Theorem batch_pop_takes_a_fifo_prefix
  (T : Type) (q : Queue.t T) (batch : list T) (max_items : N)
  (reserved : bool) :
  Queue.effective_max q max_items < 2 ^ 64 ->
  let k := Nat.min (List.length (Queue.queue_ q))
                   (N.to_nat (Queue.effective_max q max_items)) in
  (Queue.queue_ q <> [] ->
   Queue.pop_batch q batch max_items true
   = Done (Queue.Count (N.of_nat k), firstn k (Queue.queue_ q),
           Queue.set_queue q (skipn k (Queue.queue_ q))) /\
   Queue.try_pop_batch q batch max_items true
   = (Queue.Count (N.of_nat k), firstn k (Queue.queue_ q),
      Queue.set_queue q (skipn k (Queue.queue_ q))) /\
   Queue.pop_batch q batch max_items false
   = Done (Queue.ReserveThrows, [], q) /\
   Queue.try_pop_batch q batch max_items false
   = (Queue.ReserveThrows, [], q)) /\
  (Queue.queue_ q = [] ->
   Queue.try_pop_batch q batch max_items reserved = (Queue.Count 0, batch, q) /\
   Queue.pop_batch q batch max_items reserved
   = if Queue.shutdown_ q then Done (Queue.Count 0, batch, q) else Blocked).
Proof.
  intros Hmax. cbv zeta. split.
  - intros Hne.
    pose proof (batch_loop_takes_prefix T (Queue.queue_ q) [] 0
                  (Queue.effective_max q max_items) _ Hmax
                  ltac:(rewrite N.sub_0_r; reflexivity)) as Hloop.
    cbn [app] in Hloop. rewrite N.add_0_l in Hloop.
    unfold Queue.pop_batch, Queue.try_pop_batch, Queue.empty, wait.
    cbv zeta. rewrite Hloop.
    destruct (Queue.queue_ q) as [|y l] eqn:Hq; [contradiction|].
    cbn [negb orb]. rewrite andb_false_r. repeat split; reflexivity.
  - intros Hempty.
    unfold Queue.pop_batch, Queue.try_pop_batch, Queue.empty, wait.
    rewrite Hempty. cbn. destruct (Queue.shutdown_ q); split; reflexivity.
Qed.

Lemma batch_pop_takes_a_fifo_prefix_witness :
  Queue.pop_batch (Queue.mk [1; 2; 3; 4; 5] 0 false 2) [9] 0 true
  = Done (Queue.Count 2, [1; 2], Queue.mk [3; 4; 5] 0 false 2) /\
  Queue.try_pop_batch (Queue.mk [1; 2; 3] 0 false 2) [9] 7 false
  = (Queue.ReserveThrows, [], Queue.mk [1; 2; 3] 0 false 2).
Proof.
  split.
  - apply (proj1 (proj1 (batch_pop_takes_a_fifo_prefix N
             (Queue.mk [1; 2; 3; 4; 5] 0 false 2) [9] 0 true eq_refl)
             ltac:(discriminate))).
  - apply (proj2 (proj2 (proj2 (proj1 (batch_pop_takes_a_fifo_prefix N
             (Queue.mk [1; 2; 3] 0 false 2) [9] 7 true eq_refl)
             ltac:(discriminate))))).
Defined.

(** X11. [full()] tells what the two enqueue calls will do on an open
    queue: [try_push] is accepted exactly when [full()] is false, and
    [push] waits exactly when [full()] is true. *)
Theorem full_predicts_the_enqueue_calls (T : Type) (q : Queue.t T) (x : T) :
  Queue.shutdown_ q = false ->
  fst (Queue.try_push q x) = negb (Queue.full q) /\
  (Queue.push q x = Blocked <-> Queue.full q = true) /\
  (Queue.full q = false -> Queue.push q x = Done (true, Queue.enqueue q x)).
Proof.
  intros Hopen. unfold Queue.try_push, Queue.push, Queue.full, wait.
  rewrite Hopen.
  destruct (N.eqb_spec (Queue.max_size_ q) 0) as [Hz|Hnz].
  - rewrite Hz. cbn. repeat split; try discriminate.
  - destruct (N.ltb_spec 0 (Queue.max_size_ q)); [|lia]. cbn.
    rewrite orb_false_r, N.ltb_antisym.
    destruct (Queue.max_size_ q <=? Queue.size q); cbn;
      repeat split; try discriminate; try reflexivity.
Qed.

Lemma full_predicts_the_enqueue_calls_witness :
  Queue.push (Queue.mk [1; 2] 2 false 100) 3 = Blocked.
Proof.
  apply (proj1 (proj2 (full_predicts_the_enqueue_calls N
           (Queue.mk [1; 2] 2 false 100) 3 eq_refl))).
  reflexivity.
Defined.

Lemma step_keeps_shutdown (T : Type) (q : Queue.t T) (o : Queue.op T) :
  Queue.shutdown_ q = true -> Queue.shutdown_ (Queue.step q o) = true.
Proof.
  intros Hs. destruct o as [x|x| | |n a|n a| |]; cbn [Queue.step].
  - unfold Queue.push. rewrite Hs. exact Hs.
  - unfold Queue.try_push. rewrite Hs. exact Hs.
  - unfold Queue.pop, Queue.take_front, wait. rewrite Hs, orb_true_r.
    cbn [andb]. destruct (Queue.empty q); [exact Hs|].
    destruct (Queue.queue_ q); exact Hs.
  - unfold Queue.try_pop, Queue.take_front.
    destruct (Queue.empty q); [exact Hs|].
    destruct (Queue.queue_ q); exact Hs.
  - unfold Queue.pop_batch, wait. cbv zeta. rewrite Hs, orb_true_r.
    cbn [andb]. destruct (Queue.empty q); [exact Hs|].
    destruct a; [|exact Hs].
    destruct (Queue.batch_loop (Queue.queue_ q) [] 0
                (Queue.effective_max q n)) as [[rest b] c]. exact Hs.
  - unfold Queue.try_pop_batch. cbv zeta.
    destruct (Queue.empty q); [exact Hs|].
    destruct a; [|exact Hs].
    destruct (Queue.batch_loop (Queue.queue_ q) [] 0
                (Queue.effective_max q n)) as [[rest b] c]. exact Hs.
  - exact Hs.
  - reflexivity.
Qed.

(** X12. Shutdown is final.  No operation of the queue clears the flag:
    after [shutdown()], whatever calls follow ([clear] and a change of the
    capacity included), the queue is still shut down and every [push] and
    [try_push] is refused with the queue unchanged. *)
Theorem shutdown_is_final
  (T : Type) (q : Queue.t T) (os : list (Queue.op T)) (max_size : N) (x : T) :
  let q' := Queue.set_max_size (Queue.run (Queue.shutdown q) os) max_size in
  Queue.is_shutdown (Queue.run (Queue.shutdown q) os) = true /\
  Queue.is_shutdown q' = true /\
  Queue.push q' x = Done (false, q') /\
  Queue.try_push q' x = (false, q').
Proof.
  cbv zeta.
  assert (H : Queue.shutdown_ (Queue.run (Queue.shutdown q) os) = true).
  { generalize (Queue.shutdown q) (eq_refl : Queue.shutdown_ (Queue.shutdown q) = true).
    induction os as [|o os IH]; intros q0 H0; cbn; [exact H0|].
    apply IH. now apply step_keeps_shutdown. }
  repeat split.
  - exact H.
  - exact H.
  - apply push_after_shutdown. exact H.
  - apply try_push_after_shutdown. exact H.
Qed.

(** X13. [set_max_size] evicts nothing.  Lowering the capacity below the
    current size keeps every item, so the capacity bound no longer holds:
    the queue reports full, refuses [try_push], and still gives out all its
    items in order. *)
Theorem set_max_size_keeps_the_items
  (T : Type) (q : Queue.t T) (max_size : N) (x : T) :
  0 < max_size -> max_size < Queue.size q ->
  let q' := Queue.set_max_size q max_size in
  Queue.queue_ q' = Queue.queue_ q /\
  ~ Queue.within_capacity q' /\
  Queue.full q' = true /\
  Queue.try_push q' x = (false, q') /\
  Queue.pops (List.length (Queue.queue_ q)) q'
  = Some (Queue.queue_ q, Queue.set_queue q' []).
Proof.
  intros Hpos Hlt. cbv zeta. repeat split.
  - unfold Queue.within_capacity. cbn. intros H. specialize (H Hpos).
    unfold Queue.size in *. cbn in *. lia.
  - unfold Queue.full. cbn.
    destruct (N.eqb_spec max_size 0); [lia|].
    apply N.leb_le. unfold Queue.size in *. cbn. lia.
  - unfold Queue.try_push. cbn. destruct (Queue.shutdown_ q); [reflexivity|].
    destruct (N.ltb_spec 0 max_size); [|lia].
    destruct (N.leb_spec max_size (Queue.size (Queue.set_max_size q max_size)));
      [reflexivity|]. unfold Queue.size in *. cbn in *. lia.
  - apply pops_fifo. cbn. now rewrite app_nil_r.
Qed.

Lemma set_max_size_keeps_the_items_witness :
  Queue.try_push (Queue.set_max_size (Queue.mk [1; 2; 3] 5 false 100) 2) 4
  = (false, Queue.mk [1; 2; 3] 2 false 100).
Proof.
  apply (proj1 (proj2 (proj2 (proj2
    (set_max_size_keeps_the_items N (Queue.mk [1; 2; 3] 5 false 100) 2 4
       eq_refl eq_refl))))).
Defined.

Lemma try_push_open_not_full (T : Type) (q : Queue.t T) (x : T) :
  Queue.shutdown_ q = false -> Queue.full q = false ->
  Queue.try_push q x = (true, Queue.enqueue q x).
Proof.
  intros Hopen Hfull. unfold Queue.try_push, Queue.full in *. rewrite Hopen.
  destruct (N.eqb_spec (Queue.max_size_ q) 0) as [Hz|Hnz].
  - rewrite Hz. reflexivity.
  - rewrite Hfull, andb_false_r. reflexivity.
Qed.

(** * The priority queue *)

(** Linear arithmetic with the divisions by two of the heap's indices. *)
Ltac dlia := zify; Z.to_euclidean_division_equations; lia.

Section PriorityQueueFacts.

Local Open Scope nat_scope.

Context {T : Type}.
Variable comp : T -> T -> bool.

(** [Compare] has to be a strict weak ordering: asymmetric, and what is
    not below is transitive (so [comp] itself is transitive too). *)
Hypothesis comp_asym : forall a b, comp a b = true -> comp b a = false.
Hypothesis comp_neg :
  forall a b c, comp a b = false -> comp b c = false -> comp a c = false.

Lemma comp_irrefl (x : T) : comp x x = false.
Proof. destruct (comp x x) eqn:E; [|reflexivity]. now rewrite (comp_asym _ _ E) in E. Qed.

Lemma length_assign (a : list T) : forall i x,
  List.length (PriorityQueue.assign a i x) = List.length a.
Proof.
  induction a as [|y a IH]; intros [|i] x; cbn; try reflexivity.
  now rewrite IH.
Qed.

Lemma nth_assign_same (a : list T) : forall i x d,
  i < List.length a -> nth i (PriorityQueue.assign a i x) d = x.
Proof.
  induction a as [|y a IH]; intros [|i] x d H; cbn in *; try lia; try reflexivity.
  apply IH. lia.
Qed.

Lemma nth_assign_other (a : list T) : forall i j x d,
  i <> j -> nth j (PriorityQueue.assign a i x) d = nth j a d.
Proof.
  induction a as [|y a IH]; intros [|i] [|j] x d H; cbn; try reflexivity; try lia.
  apply IH. lia.
Qed.

Lemma assign_perm (a : list T) : forall i x d,
  i < List.length a -> Permutation (x :: a) (nth i a d :: PriorityQueue.assign a i x).
Proof.
  induction a as [|y a IH]; intros [|i] x d H; cbn in *; try lia.
  - apply perm_swap.
  - eapply perm_trans; [apply perm_swap|].
    eapply perm_trans; [apply perm_skip, (IH i x d); lia|].
    apply perm_swap.
Qed.

Lemma push_heap_loop_length (fuel : nat) : forall a hole top value,
  List.length (PriorityQueue.push_heap_loop comp fuel a hole top value) = List.length a.
Proof.
  induction fuel as [|fuel IH]; intros a hole top value; cbn [PriorityQueue.push_heap_loop].
  - apply length_assign.
  - destruct (_ && _).
    + rewrite IH. apply length_assign.
    + apply length_assign.
Qed.

Lemma push_heap_loop_above (fuel : nat) : forall a hole top value j d,
  hole < j -> nth j (PriorityQueue.push_heap_loop comp fuel a hole top value) d = nth j a d.
Proof.
  induction fuel as [|fuel IH]; intros a hole top value j d Hj; cbn [PriorityQueue.push_heap_loop].
  - apply nth_assign_other. lia.
  - destruct (_ && _).
    + rewrite IH by dlia. apply nth_assign_other. lia.
    + apply nth_assign_other. lia.
Qed.

Lemma push_heap_loop_perm (fuel : nat) : forall a hole top value d,
  hole < List.length a ->
  Permutation (value :: a)
              (nth hole a d :: PriorityQueue.push_heap_loop comp fuel a hole top value).
Proof.
  induction fuel as [|fuel IH]; intros a hole top value d Hh; cbn [PriorityQueue.push_heap_loop].
  - now apply assign_perm.
  - destruct ((top <? hole) && _) eqn:E; [|now apply assign_perm].
    apply andb_true_iff in E. destruct E as [Ht _]. apply Nat.ltb_lt in Ht.
    set (parent := (hole - 1) / 2) in *.
    assert (Hp : parent < hole) by (subst parent; dlia).
    set (P := nth parent a value).
    pose proof (IH (PriorityQueue.assign a hole P) parent top value d) as H1.
    rewrite length_assign in H1. specialize (H1 ltac:(lia)).
    rewrite nth_assign_other in H1 by lia.
    rewrite (nth_indep a d value) in H1 by lia. fold P in H1.
    pose proof (assign_perm a hole P d Hh) as H2.
    apply (Permutation_cons_inv (a := P)).
    eapply perm_trans; [apply perm_swap|].
    eapply perm_trans; [apply perm_skip; exact H2|].
    eapply perm_trans; [apply perm_swap|].
    eapply perm_trans; [apply perm_skip; exact H1|].
    apply perm_swap.
Qed.

Lemma push_heap_loop_heap (d : T) (len : nat) (fuel : nat) :
  forall a hole value,
  hole <= fuel -> hole < len -> len <= List.length a ->
  PriorityQueue.sift_inv comp d len a hole value ->
  PriorityQueue.heap_upto comp d len (PriorityQueue.push_heap_loop comp fuel a hole 0 value).
Proof.
  induction fuel as [|fuel IH]; intros a hole value Hf Hh Hlen (H1 & H2 & H3).
  - assert (hole = 0) by lia. subst hole. cbn [PriorityQueue.push_heap_loop]. intros i Hi.
    destruct (Nat.eq_dec ((i - 1) / 2) 0) as [E|E].
    + rewrite E, nth_assign_same by lia.
      rewrite nth_assign_other by lia. now apply H2.
    + rewrite !nth_assign_other by lia. apply H1; lia.
  - cbn [PriorityQueue.push_heap_loop]. set (parent := (hole - 1) / 2) in *.
    destruct ((0 <? hole) && _) eqn:E.
    + apply andb_true_iff in E. destruct E as [Ht Hc]. apply Nat.ltb_lt in Ht.
      assert (Hp : parent < hole) by (subst parent; dlia).
      rewrite (nth_indep a value d) in * by lia.
      set (P := nth parent a d) in *.
      apply IH; [lia|lia|now rewrite length_assign|].
      repeat split.
      * intros i Hi Hne. destruct (Nat.eq_dec i hole) as [->|Hih].
        -- rewrite nth_assign_same by lia. fold parent.
           rewrite nth_assign_other by lia. fold P. apply comp_irrefl.
        -- rewrite (nth_assign_other a hole i) by lia.
           destruct (Nat.eq_dec ((i - 1) / 2) hole) as [Ep|Ep].
           ++ rewrite Ep, nth_assign_same by lia. now apply H3.
           ++ rewrite nth_assign_other by lia. now apply H1.
      * intros i Hi Hpi. destruct (Nat.eq_dec i hole) as [->|Hih].
        -- rewrite nth_assign_same by lia. now apply comp_asym.
        -- rewrite nth_assign_other by lia.
           apply (comp_neg _ P); [now apply comp_asym|].
           subst P. rewrite <- Hpi. now apply H1.
      * intros i Hi Hpi Hpos.
        rewrite (nth_assign_other a hole ((parent - 1) / 2)) by dlia.
        destruct (Nat.eq_dec i hole) as [->|Hih].
        -- rewrite nth_assign_same by lia. subst P. apply H1; lia.
        -- rewrite nth_assign_other by lia.
           apply (comp_neg _ P).
           ++ subst P. apply H1; lia.
           ++ subst P. rewrite <- Hpi. now apply H1.
    + intros i Hi. destruct (Nat.eq_dec i hole) as [->|Hih].
      * rewrite nth_assign_same by lia. fold parent.
        assert (Hp : parent < hole) by (subst parent; dlia).
        rewrite nth_assign_other by lia.
        apply andb_false_iff in E. destruct E as [E|E].
        -- apply Nat.ltb_ge in E. lia.
        -- rewrite (nth_indep a value d) in E by lia. exact E.
      * rewrite (nth_assign_other a hole i) by lia.
        destruct (Nat.eq_dec ((i - 1) / 2) hole) as [Ep|Ep].
        -- rewrite Ep, nth_assign_same by lia. now apply H2.
        -- rewrite nth_assign_other by lia. now apply H1.
Qed.


Lemma adjust_down_spec (d : T) (len : nat) (fuel : nat) :
  forall a hole,
  hole < len -> len <= List.length a -> PriorityQueue.heap_upto comp d len a ->
  let r := PriorityQueue.adjust_down comp fuel a hole len d in
  PriorityQueue.heap_upto comp d len (fst r) /\
  List.length (fst r) = List.length a /\
  hole <= snd r < len /\
  ((len - 1) / 2 <= hole + fuel -> (len - 1) / 2 <= snd r) /\
  (forall j, len <= j -> nth j (fst r) d = nth j a d) /\
  Permutation (nth hole a d :: fst r) (nth (snd r) (fst r) d :: a).
Proof.
  induction fuel as [|fuel IH]; intros a hole Hh Hlen Hheap;
    cbn [PriorityQueue.adjust_down].
  - cbn [fst snd]. repeat split; try lia; try assumption. apply Permutation_refl.
  - destruct (hole <? (len - 1) / 2) eqn:E.
    2:{ cbn [fst snd]. apply Nat.ltb_ge in E.
        repeat split; try lia; try assumption. apply Permutation_refl. }
    apply Nat.ltb_lt in E.
    set (right := 2 * (hole + 1)) in *.
    assert (Hr : right < len) by (subst right; dlia).
    set (second := if comp (nth right a d) (nth (right - 1) a d)
                   then right - 1 else right).
    assert (Hsec : (second = right - 1 \/ second = right) /\
                   forall o, o = right - 1 \/ o = right ->
                             comp (nth second a d) (nth o a d) = false).
    { subst second.
      destruct (comp (nth right a d) (nth (right - 1) a d)) eqn:C.
      - split; [now left|]. intros o [->| ->];
          [apply comp_irrefl | now apply comp_asym].
      - split; [now right|]. intros o [->| ->];
          [exact C | apply comp_irrefl]. }
    destruct Hsec as [Hs Hdom].
    assert (Hs1 : hole < second < len) by (subst right; lia).
    assert (Hs2 : (second - 1) / 2 = hole) by (subst right; dlia).
    set (child := nth second a d) in *.
    assert (Hheap1 : PriorityQueue.heap_upto comp d len (PriorityQueue.assign a hole child)).
    { intros i Hi. destruct (Nat.eq_dec i hole) as [->|Hih].
      - rewrite nth_assign_same by lia.
        rewrite nth_assign_other by dlia.
        apply (comp_neg _ (nth hole a d)); [now apply Hheap|].
        subst child. rewrite <- Hs2 at 1. apply Hheap. lia.
      - rewrite (nth_assign_other a hole i) by lia.
        destruct (Nat.eq_dec ((i - 1) / 2) hole) as [Ep|Ep].
        + rewrite Ep, nth_assign_same by lia.
          apply Hdom. subst right. dlia.
        + rewrite nth_assign_other by lia. now apply Hheap. }
    specialize (IH (PriorityQueue.assign a hole child) second ltac:(lia)
                   ltac:(now rewrite length_assign) Hheap1).
    cbv zeta in IH. fold second.
    destruct (PriorityQueue.adjust_down comp fuel (PriorityQueue.assign a hole child) second len d)
      as [a' hole'] eqn:Er.
    cbn [fst snd] in *.
    destruct IH as (I1 & I2 & I3 & I4 & I5 & I6).
    rewrite length_assign in I2.
    repeat split; try lia; try assumption.
    + intros j Hj. rewrite I5 by lia. apply nth_assign_other. lia.
    + rewrite nth_assign_other in I6 by lia.
      pose proof (assign_perm a hole child d ltac:(lia)) as H2.
      apply (Permutation_cons_inv (a := child)).
      eapply perm_trans; [apply perm_swap|].
      eapply perm_trans; [apply perm_skip; exact I6|].
      eapply perm_trans; [apply perm_swap|].
      eapply perm_trans; [apply perm_skip; apply Permutation_sym; exact H2|].
      apply perm_swap.
Qed.


Lemma last_is_nth (l : list T) (d : T) :
  last l d = nth (List.length l - 1) l d.
Proof.
  induction l as [|x l IH]; [reflexivity|].
  destruct l as [|y l]; [reflexivity|].
  change (last (x :: y :: l) d) with (last (y :: l) d). rewrite IH.
  cbn [List.length]. replace (S (S (List.length l)) - 1) with
    (S (S (List.length l) - 1)) by lia. reflexivity.
Qed.

Lemma nth_removelast (l : list T) (i : nat) (d : T) :
  i < List.length l - 1 -> nth i (removelast l) d = nth i l d.
Proof.
  intros H. rewrite removelast_firstn_len, nth_firstn.
  destruct (Nat.ltb_spec i (Nat.pred (List.length l))); [reflexivity | lia].
Qed.

Lemma length_removelast' (l : list T) :
  List.length (removelast l) = List.length l - 1.
Proof. rewrite removelast_firstn_len, firstn_length_le; lia. Qed.

Lemma heap_upto_indep (d d' : T) (len : nat) (a : list T) :
  len <= List.length a -> PriorityQueue.heap_upto comp d len a -> PriorityQueue.heap_upto comp d' len a.
Proof.
  intros Hlen H i Hi.
  rewrite (nth_indep a d' d), (nth_indep a d' d) by dlia. now apply H.
Qed.

(** [std::__adjust_heap(first, 0, len, value, comp)] on a heap of [len]
    items gives a heap of [len] items: the first item is replaced by
    [value]; what lies behind the [len] items stays. *)
Lemma adjust_heap_spec (a : list T) (len : nat) (value : T) :
  0 < len -> len <= List.length a -> PriorityQueue.heap_upto comp value len a ->
  let r := PriorityQueue.adjust_heap comp a len value in
  PriorityQueue.heap_upto comp value len r /\
  List.length r = List.length a /\
  (forall j, len <= j -> nth j r value = nth j a value) /\
  Permutation (nth 0 a value :: r) (value :: a).
Proof.
  intros Hpos Hlen Hheap. unfold PriorityQueue.adjust_heap.
  pose proof (adjust_down_spec value len len a 0 Hpos Hlen Hheap) as H.
  cbv zeta in H.
  destruct (PriorityQueue.adjust_down comp len a 0 len value) as [a1 hole1].
  cbn [fst snd] in H. destruct H as (I1 & I2 & I3 & I4 & I5 & I6).
  specialize (I4 ltac:(dlia)).
  set (left := 2 * (hole1 + 1) - 1).
  assert (H2 : exists a2 hole2,
    (if Nat.even len && (hole1 =? (len - 2) / 2)
     then (PriorityQueue.assign a1 hole1 (nth left a1 value), left)
     else (a1, hole1)) = (a2, hole2) /\
    PriorityQueue.heap_upto comp value len a2 /\
    List.length a2 = List.length a /\
    hole2 < len /\
    (forall i, 0 < i < len -> (i - 1) / 2 <> hole2) /\
    (forall j, len <= j -> nth j a2 value = nth j a value) /\
    Permutation (nth 0 a value :: a2) (nth hole2 a2 value :: a)).
  { destruct (Nat.even len && (hole1 =? (len - 2) / 2)) eqn:E.
    - apply andb_true_iff in E. destruct E as [Ev Eh].
      apply Nat.eqb_eq in Eh. apply Nat.even_spec in Ev.
      destruct Ev as [k Hk].
      assert (Hl : left = len - 1 /\ hole1 < left /\ (left - 1) / 2 = hole1)
        by (subst left; dlia).
      destruct Hl as (Hl1 & Hl2 & Hl3).
      exists (PriorityQueue.assign a1 hole1 (nth left a1 value)), left.
      split; [reflexivity|]. repeat split; try lia.
      + intros i Hi. destruct (Nat.eq_dec i hole1) as [->|Hih].
        * rewrite nth_assign_same by lia.
          rewrite nth_assign_other by dlia.
          apply (comp_neg _ (nth hole1 a1 value)); [now apply I1|].
          rewrite <- Hl3 at 1. apply I1. lia.
        * rewrite (nth_assign_other a1 hole1 i) by lia.
          destruct (Nat.eq_dec ((i - 1) / 2) hole1) as [Ep|Ep].
          -- rewrite Ep, nth_assign_same by lia.
             assert (i = left) by dlia. subst i. apply comp_irrefl.
          -- rewrite nth_assign_other by lia. now apply I1.
      + now rewrite length_assign.
      + intros j Hj. rewrite nth_assign_other by lia. now apply I5.
      + rewrite nth_assign_other by lia.
        pose proof (assign_perm a1 hole1 (nth left a1 value) value
                                ltac:(lia)) as P.
        apply (Permutation_cons_inv (a := nth hole1 a1 value)).
        eapply perm_trans; [apply perm_swap|].
        eapply perm_trans;
          [apply perm_skip; apply Permutation_sym; exact P|].
        eapply perm_trans; [apply perm_swap|].
        eapply perm_trans; [apply perm_skip; exact I6|].
        apply perm_swap.
    - exists a1, hole1. split; [reflexivity|].
      repeat split; try lia; try assumption.
      intros i Hi. apply andb_false_iff in E. destruct E as [E|E].
      + assert (Hodd : Nat.odd len = true)
          by (rewrite <- Nat.negb_even, E; reflexivity).
        apply Nat.odd_spec in Hodd. destruct Hodd as [k Hk]. dlia.
      + apply Nat.eqb_neq in E.
        destruct (Nat.even len) eqn:Ev.
        * apply Nat.even_spec in Ev. destruct Ev as [k Hk]. dlia.
        * assert (Hodd : Nat.odd len = true)
            by (rewrite <- Nat.negb_even, Ev; reflexivity).
          apply Nat.odd_spec in Hodd. destruct Hodd as [k Hk]. dlia. }
  destruct H2 as (a2 & hole2 & -> & J1 & J2 & J3 & J4 & J5 & J6).
  repeat split.
  - apply push_heap_loop_heap; try lia.
    repeat split.
    + intros i Hi _. now apply J1.
    + intros i Hi Hp. now destruct (J4 i Hi).
    + intros i Hi Hp. now destruct (J4 i Hi).
  - now rewrite push_heap_loop_length.
  - intros j Hj. rewrite push_heap_loop_above by lia. now apply J5.
  - pose proof (push_heap_loop_perm hole2 a2 hole2 0 value value
                                    ltac:(lia)) as P.
    apply (Permutation_cons_inv (a := nth hole2 a2 value)).
    eapply perm_trans; [apply perm_swap|].
    eapply perm_trans; [apply perm_skip; apply Permutation_sym; exact P|].
    eapply perm_trans; [apply perm_swap|].
    eapply perm_trans; [apply perm_skip; exact J6|].
    apply perm_swap.
Qed.

Lemma heap_push_is_heap (x : T) (a : list T) :
  PriorityQueue.is_heap comp a -> PriorityQueue.is_heap comp (PriorityQueue.heap_push comp x a).
Proof.
  intros Hheap d. unfold PriorityQueue.heap_push.
  rewrite push_heap_loop_length, length_app. cbn [List.length].
  apply push_heap_loop_heap; try lia.
  - rewrite length_app. cbn [List.length]. lia.
  - repeat split.
    + intros i Hi Hne. rewrite !app_nth1 by dlia. apply Hheap. lia.
    + intros i Hi Hp. dlia.
    + intros i Hi Hp. dlia.
Qed.

Lemma heap_push_perm (x : T) (a : list T) :
  Permutation (x :: a) (PriorityQueue.heap_push comp x a).
Proof.
  unfold PriorityQueue.heap_push.
  pose proof (push_heap_loop_perm (List.length a) (a ++ [x]) (List.length a)
                                  0 x x) as P.
  rewrite length_app in P. cbn [List.length] in P. specialize (P ltac:(lia)).
  rewrite app_nth2, Nat.sub_diag in P by lia. cbn [nth] in P.
  apply Permutation_cons_inv in P.
  eapply perm_trans; [|exact P]. apply Permutation_cons_append.
Qed.

Lemma heap_pop_spec (top : T) (rest : list T) :
  PriorityQueue.is_heap comp (top :: rest) ->
  PriorityQueue.is_heap comp (PriorityQueue.heap_pop comp (top :: rest)) /\
  Permutation (top :: rest) (top :: PriorityQueue.heap_pop comp (top :: rest)).
Proof.
  intros Hheap. unfold PriorityQueue.heap_pop.
  set (a := top :: rest) in *. set (n := List.length a).
  destruct (1 <? n) eqn:E.
  2:{ apply Nat.ltb_ge in E. destruct rest as [|y rest]; [|cbn in *; lia].
      cbn. split; [|apply Permutation_refl]. intros d i Hi. cbn in Hi. lia. }
  apply Nat.ltb_lt in E.
  set (value := last a top).
  assert (Hv : value = nth (n - 1) a value)
    by (subst value n; rewrite (last_is_nth a top);
        apply nth_indep; cbn [List.length]; lia).
  set (a0 := PriorityQueue.assign a (n - 1) top).
  assert (H0 : PriorityQueue.heap_upto comp value (n - 1) a0).
  { intros i Hi. subst a0. rewrite !nth_assign_other by dlia.
    apply Hheap. fold n. lia. }
  pose proof (adjust_heap_spec a0 (n - 1) value ltac:(lia)
                ltac:(subst a0; rewrite length_assign; fold n; lia) H0) as H.
  cbv zeta in H. set (r := PriorityQueue.adjust_heap comp a0 (n - 1) value) in *.
  destruct H as (K1 & K2 & K3 & K4).
  assert (Hlen0 : List.length a0 = n) by (subst a0; now rewrite length_assign).
  rewrite Hlen0 in K2.
  split.
  - intros d. rewrite length_removelast', K2.
    apply (heap_upto_indep value).
    + rewrite length_removelast'. lia.
    + intros i Hi. rewrite !nth_removelast by dlia. now apply K1.
  - assert (Hr : r = removelast r ++ [top]).
    { rewrite (app_removelast_last value) at 1
        by (intros ->; cbn in K2; lia).
      f_equal. f_equal. rewrite last_is_nth, K2, K3 by lia.
      subst a0. apply nth_assign_same. fold n. lia. }
    assert (Hra : Permutation r a).
    { pose proof (assign_perm a (n - 1) top value ltac:(fold n; lia)) as P.
      rewrite <- Hv in P. fold a0 in P.
      assert (Htop : nth 0 a0 value = top)
        by (subst a0; rewrite nth_assign_other by lia; reflexivity).
      rewrite Htop in K4.
      apply (Permutation_cons_inv (a := top)).
      eapply perm_trans; [exact K4|]. apply Permutation_sym. exact P. }
    eapply perm_trans; [apply Permutation_sym; exact Hra|].
    rewrite Hr at 1. apply Permutation_sym, Permutation_cons_append.
Qed.

Lemma heap_top_is_highest (a : list T) (d : T) :
  PriorityQueue.is_heap comp a ->
  forall i, i < List.length a -> comp (nth 0 a d) (nth i a d) = false.
Proof.
  intros Hheap i. induction i as [i IH] using lt_wf_ind. intros Hi.
  destruct (Nat.eq_dec i 0) as [->|Hne]; [apply comp_irrefl|].
  apply (comp_neg _ (nth ((i - 1) / 2) a d)).
  - apply IH; dlia.
  - apply Hheap. lia.
Qed.

Lemma heap_top_dominates (top : T) (rest : list T) (y : T) :
  PriorityQueue.is_heap comp (top :: rest) -> In y (top :: rest) -> comp top y = false.
Proof.
  intros Hheap Hin. destruct (In_nth _ _ top Hin) as (i & Hi & <-).
  exact (heap_top_is_highest (top :: rest) top Hheap i Hi).
Qed.


(** The lengths need nothing of [comp]. *)
Lemma adjust_down_length (fuel : nat) : forall a hole len d,
  List.length (fst (PriorityQueue.adjust_down comp fuel a hole len d))
  = List.length a.
Proof.
  induction fuel as [|fuel IH]; intros a hole len d;
    cbn [PriorityQueue.adjust_down]; [reflexivity|].
  destruct (hole <? (len - 1) / 2); [|reflexivity].
  rewrite IH. apply length_assign.
Qed.

Lemma adjust_heap_length (a : list T) (len : nat) (value : T) :
  List.length (PriorityQueue.adjust_heap comp a len value) = List.length a.
Proof.
  unfold PriorityQueue.adjust_heap.
  pose proof (adjust_down_length len a 0 len value) as H.
  destruct (PriorityQueue.adjust_down comp len a 0 len value) as [a1 hole1].
  cbn [fst] in H.
  destruct (Nat.even len && (hole1 =? (len - 2) / 2));
    rewrite push_heap_loop_length; [rewrite length_assign|]; exact H.
Qed.

Lemma heap_pop_length (heap : list T) :
  List.length (PriorityQueue.heap_pop comp heap) = List.length heap - 1.
Proof.
  destruct heap as [|top rest]; [reflexivity|]. unfold PriorityQueue.heap_pop.
  destruct (1 <? List.length (top :: rest));
    rewrite length_removelast'; [|reflexivity].
  now rewrite adjust_heap_length, length_assign.
Qed.

Lemma clear_loop_empties (fuel : nat) : forall heap,
  List.length heap <= fuel -> PriorityQueue.clear_loop comp fuel heap = [].
Proof.
  induction fuel as [|fuel IH]; intros [|top rest] H; cbn in H;
    try reflexivity; try lia.
  cbn [PriorityQueue.clear_loop]. apply IH.
  rewrite heap_pop_length. cbn [List.length]. lia.
Qed.

(** [clear()] leaves no item in the container. *)
Lemma priority_queue_clear_empties (q : PriorityQueue.t T) :
  PriorityQueue.priority_queue_ (PriorityQueue.clear comp q) = [].
Proof. unfold PriorityQueue.clear. cbn. now apply clear_loop_empties. Qed.

Lemma pushes_unbounded (xs : list T) : forall q,
  Queue.shutdown_ (PriorityQueue.base q) = false ->
  Queue.max_size_ (PriorityQueue.base q) = 0%N ->
  PriorityQueue.pushes comp xs q
  = Some (PriorityQueue.set_heap q
            (fold_left (fun heap x => PriorityQueue.heap_push comp x heap) xs
                       (PriorityQueue.priority_queue_ q))).
Proof.
  induction xs as [|x xs IH]; intros q Hopen Hmax; cbn.
  - destruct q; reflexivity.
  - unfold PriorityQueue.push. rewrite Hopen, Hmax. cbn.
    rewrite IH by assumption. reflexivity.
Qed.

Lemma fold_heap_push (xs : list T) : forall heap,
  PriorityQueue.is_heap comp heap ->
  let heap' := fold_left (fun heap x => PriorityQueue.heap_push comp x heap)
                         xs heap in
  PriorityQueue.is_heap comp heap' /\ Permutation (xs ++ heap) heap'.
Proof.
  induction xs as [|x xs IH]; intros heap Hs; cbn.
  - split; [exact Hs | apply Permutation_refl].
  - destruct (IH _ (heap_push_is_heap x heap Hs)) as [Hs' Hp].
    split; [exact Hs'|].
    eapply perm_trans; [|exact Hp].
    eapply perm_trans; [apply Permutation_middle|].
    apply Permutation_app_head. apply heap_push_perm.
Qed.

(** Popping a heap empty gives its items highest first. *)
Lemma try_pops_all (n : nat) : forall heap q,
  List.length heap = n ->
  PriorityQueue.is_heap comp heap ->
  PriorityQueue.priority_queue_ q = heap ->
  exists ys,
    PriorityQueue.try_pops comp n q = Some (ys, PriorityQueue.set_heap q []) /\
    Permutation heap ys /\
    StronglySorted (fun a b => comp a b = false) ys.
Proof.
  induction n as [|n IH]; intros heap q Hlen Hheap Hq.
  - destruct heap; [|discriminate]. exists []. cbn.
    split; [|split; [apply Permutation_refl | constructor]].
    destruct q; cbn in *; subst; reflexivity.
  - destruct heap as [|top rest]; [discriminate|].
    destruct (heap_pop_spec top rest Hheap) as [Hheap' Hperm].
    set (heap' := PriorityQueue.heap_pop comp (top :: rest)) in *.
    assert (Hlen' : List.length heap' = n).
    { apply Permutation_length in Hperm. cbn [List.length] in Hperm, Hlen. lia. }
    destruct (IH heap' (PriorityQueue.set_heap q heap') Hlen' Hheap' eq_refl)
      as (ys & Hpops & Hp & Hsorted).
    exists (top :: ys). cbn [PriorityQueue.try_pops].
    unfold PriorityQueue.try_pop. rewrite Hq. fold heap'. rewrite Hpops.
    split; [reflexivity|]. split.
    + eapply perm_trans; [exact Hperm|]. now apply perm_skip.
    + constructor; [exact Hsorted|]. apply Forall_forall. intros y Hy.
      apply (heap_top_dominates top rest); [exact Hheap|].
      apply (Permutation_in y (Permutation_sym Hperm)). right.
      exact (Permutation_in y (Permutation_sym Hp) Hy).
Qed.

(** The items come out highest first. *)
Lemma priority_order (xs : list T) :
  exists q ys,
    PriorityQueue.pushes comp xs (PriorityQueue.make 0) = Some q /\
    PriorityQueue.try_pops comp (List.length xs) q
    = Some (ys, PriorityQueue.set_heap q []) /\
    Permutation xs ys /\
    StronglySorted (fun a b => comp a b = false) ys.
Proof.
  rewrite (pushes_unbounded xs (PriorityQueue.make 0) eq_refl eq_refl).
  assert (Hnil : PriorityQueue.is_heap comp []) by (intros d i Hi; cbn in Hi; lia).
  destruct (fold_heap_push xs [] Hnil) as [Hs Hp].
  cbn in Hs, Hp. rewrite app_nil_r in Hp.
  set (heap := fold_left _ xs _) in *.
  destruct (try_pops_all (List.length xs) heap
              (PriorityQueue.set_heap (PriorityQueue.make 0) heap)
              (eq_sym (Permutation_length Hp)) Hs eq_refl)
    as (ys & Hpops & Hperm & Hsorted).
  exists (PriorityQueue.set_heap (PriorityQueue.make 0) heap), ys.
  split; [reflexivity|]. split; [exact Hpops|]. split; [|exact Hsorted].
  eapply perm_trans; [exact Hp | exact Hperm].
Qed.

End PriorityQueueFacts.

(** X14. A priority queue gives its items out in priority order.  When
    [comp] is a strict weak ordering, as [Compare] must be (it is
    asymmetric, and an item not below a second one that is not below a
    third one is not below the third), pushing a list of items into a new
    unbounded priority queue succeeds, and popping as many items returns a
    rearrangement of the list in which no item is below ([comp]) an item
    that comes after it. *)
Theorem priority_queue_pops_highest_first
  (T : Type) (comp : T -> T -> bool) (xs : list T) :
  (forall a b, comp a b = true -> comp b a = false) ->
  (forall a b c, comp a b = false -> comp b c = false -> comp a c = false) ->
  exists q ys,
    PriorityQueue.pushes comp xs (PriorityQueue.make 0) = Some q /\
    PriorityQueue.try_pops comp (List.length xs) q
    = Some (ys, PriorityQueue.set_heap q []) /\
    Permutation xs ys /\
    StronglySorted (fun a b => comp a b = false) ys.
Proof. intros Hasym Hneg. now apply priority_order. Qed.

Lemma priority_queue_pops_highest_first_witness :
  exists q ys,
    PriorityQueue.pushes N.ltb [3; 1; 4; 1; 5] (PriorityQueue.make 0) = Some q /\
    PriorityQueue.try_pops N.ltb 5 q = Some (ys, PriorityQueue.set_heap q []) /\
    Permutation [3; 1; 4; 1; 5] ys /\
    StronglySorted (fun a b => N.ltb a b = false) ys.
Proof.
  apply (priority_queue_pops_highest_first N N.ltb [3; 1; 4; 1; 5]).
  - intros a b. rewrite N.ltb_lt, N.ltb_ge. lia.
  - intros a b c. rewrite !N.ltb_ge. lia.
Defined.

(** The run of the statement above, evaluated: the vector after the five
    pushes, and the items in the order in which they are popped. *)
Example priority_queue_run_evaluated :
  PriorityQueue.pushes N.ltb [3; 1; 4; 1; 5] (PriorityQueue.make 0)
  = Some (PriorityQueue.mk (Queue.mk [] 0 false 0) [5; 4; 3; 1; 1]) /\
  PriorityQueue.try_pops N.ltb 5
    (PriorityQueue.mk (Queue.mk [] 0 false 0) [5; 4; 3; 1; 1])
  = Some ([5; 4; 3; 1; 1], PriorityQueue.mk (Queue.mk [] 0 false 0) []).
Proof. split; vm_compute; reflexivity. Qed.

(** The order on pairs that compares both parts is a strict order, but it
    is not a weak one, and with it the queue gives (1,1) out before (2,2),
    which is above it. *)
Example priority_queue_needs_a_weak_order :
  exists q,
    PriorityQueue.pushes both_below [(1, 1); (0, 5); (0, 0); (2, 2)]
                         (PriorityQueue.make 0) = Some q /\
    PriorityQueue.try_pops both_below 4 q
    = Some ([(1, 1); (0, 5); (2, 2); (0, 0)], PriorityQueue.set_heap q []) /\
    both_below (1, 1) (2, 2) = true.
Proof. eexists. split; [reflexivity|]. split; vm_compute; reflexivity. Qed.

(** X15. [PriorityQueue] does not redefine [try_push] and [full], so they
    are the base class's and work on the base class's own, otherwise unused
    buffer.  An item that [try_push] accepts never enters the priority
    container: [size()] and [empty()] do not see it and [pop]/[try_pop]
    never return it.  And [full()] is false however many items were pushed,
    also in a bounded queue at its capacity. *)
Theorem priority_queue_try_push_is_lost
  (T : Type) (comp : T -> T -> bool) (q : PriorityQueue.t T) (x : T) :
  Queue.shutdown_ (PriorityQueue.base q) = false ->
  Queue.queue_ (PriorityQueue.base q) = [] ->
  let q' := snd (PriorityQueue.try_push q x) in
  fst (PriorityQueue.try_push q x) = true /\
  PriorityQueue.priority_queue_ q' = PriorityQueue.priority_queue_ q /\
  PriorityQueue.size q' = PriorityQueue.size q /\
  PriorityQueue.empty q' = PriorityQueue.empty q /\
  fst (PriorityQueue.try_pop comp q') = fst (PriorityQueue.try_pop comp q) /\
  (PriorityQueue.empty q = true -> PriorityQueue.pop comp q' = Blocked) /\
  (forall y q2, PriorityQueue.push comp q y = Done (true, q2) ->
                PriorityQueue.full q2 = PriorityQueue.full q /\
                PriorityQueue.full q2 = false).
Proof.
  intros Hopen Hbase. cbv zeta.
  assert (Hfull : PriorityQueue.full q = false).
  { unfold PriorityQueue.full, Queue.full, Queue.size. rewrite Hbase. cbn.
    destruct (N.eqb_spec (Queue.max_size_ (PriorityQueue.base q)) 0);
      [reflexivity|]. apply N.leb_gt. lia. }
  assert (Hacc : Queue.try_push (PriorityQueue.base q) x
                 = (true, Queue.enqueue (PriorityQueue.base q) x)).
  { apply try_push_open_not_full; assumption. }
  unfold PriorityQueue.try_push. rewrite Hacc. cbn.
  repeat split.
  - unfold PriorityQueue.try_pop. cbn.
    destruct (PriorityQueue.priority_queue_ q); reflexivity.
  - intros Hempty. unfold PriorityQueue.pop, PriorityQueue.empty, wait in *.
    cbn. rewrite Hempty, Hopen. reflexivity.
  - unfold PriorityQueue.push, wait in H.
    destruct (Queue.shutdown_ (PriorityQueue.base q)); [discriminate|].
    destruct (0 <? Queue.max_size_ (PriorityQueue.base q));
      [destruct ((PriorityQueue.size q <? Queue.max_size_ (PriorityQueue.base q)) || false);
       [|discriminate]|]; inversion H; reflexivity.
  - unfold PriorityQueue.push, wait in H.
    destruct (Queue.shutdown_ (PriorityQueue.base q)); [discriminate|].
    destruct (0 <? Queue.max_size_ (PriorityQueue.base q));
      [destruct ((PriorityQueue.size q <? Queue.max_size_ (PriorityQueue.base q)) || false);
       [|discriminate]|]; inversion H; exact Hfull.
Qed.

Lemma priority_queue_try_push_is_lost_witness :
  let q := PriorityQueue.mk (Queue.mk [] 2 false 0) [7; 5] in
  PriorityQueue.size q = 2 /\
  PriorityQueue.full q = false /\
  fst (PriorityQueue.try_push q 9) = true /\
  fst (PriorityQueue.try_pop N.ltb (snd (PriorityQueue.try_push q 9))) = Some 7.
Proof.
  cbv zeta. split; [reflexivity | split; [reflexivity|]].
  pose proof (priority_queue_try_push_is_lost N N.ltb
                (PriorityQueue.mk (Queue.mk [] 2 false 0) [7; 5]) 9
                eq_refl eq_refl) as H.
  cbv zeta in H. destruct H as [Hacc [_ [_ [_ [Hpop _]]]]].
  split; [exact Hacc | rewrite Hpop; reflexivity].
Defined.

(** * Thresholds *)

(** Induction over a sink and the sinks below it. *)
Lemma LogSink_nested_ind (P : LogSink -> Prop) :
  (forall id lv thr fl, P (BackendSink id lv thr fl)) ->
  (forall lv cs, (forall c, In (Some c) cs -> P c) -> P (CompositeLogSink lv cs)) ->
  (forall lv child f, P child -> P (FilterLogSink lv child f)) ->
  forall s, P s.
Proof.
  intros Hb Hc Hf. fix IH 1. intros [id lv thr fl | lv cs | lv child f].
  - apply Hb.
  - apply Hc. revert cs.
    fix IHcs 1. intros [|[c|] cs] c' Hin.
    + destruct Hin.
    + pose proof (IH c) as Hhere.
      destruct Hin as [E|Hin]; [|exact (IHcs cs c' Hin)].
      injection E as E. rewrite <- E. exact Hhere.
    + destruct Hin as [E|Hin]; [discriminate | exact (IHcs cs c' Hin)].
  - apply Hf. apply IH.
Qed.

Lemma get_level_set_level (s : LogSink) (l : LogLevel) :
  get_level (set_level s l) = l.
Proof.
  induction s as [id lv thr fl | lv cs | lv child IH f]; cbn;
    [reflexivity | reflexivity | exact IH].
Qed.

(** X16. [set_level] reaches every sink below the one it is called on:
    afterwards each [level_] member in the tree (children of composites,
    the child of a filter, at any depth) is the new level, [get_level]
    returns it and [should_log] compares with it. *)
Theorem set_level_reaches_every_sink (s : LogSink) (l l' : LogLevel) :
  Forall (fun t => t = l) (thresholds (set_level s l)) /\
  get_level (set_level s l) = l /\
  should_log (set_level s l) l' = level_ge l' l.
Proof.
  assert (Hall : Forall (fun t => t = l) (thresholds (set_level s l))).
  { induction s as [id lv thr fl | lv cs IH | lv child f IH]
      using LogSink_nested_ind; cbn.
    - constructor; [reflexivity | constructor].
    - constructor; [reflexivity|].
      induction cs as [|[c|] cs IHcs]; cbn.
      + constructor.
      + apply Forall_app. split.
        * apply IH. left. reflexivity.
        * apply IHcs. intros c' Hin. apply IH. right. exact Hin.
      + apply IHcs. intros c' Hin. apply IH. right. exact Hin.
    - constructor; [reflexivity | exact IH]. }
  pose proof (get_level_set_level s l) as Hget.
  split; [exact Hall | split; [exact Hget|]].
  rewrite should_log_is_threshold, Hget. reflexivity.
Qed.

(** X17. The level of the logger is the level of its first sink.
    [get_level] is INFO while no sink is registered, and a [set_level] made
    then is lost; with sinks, [set_level] gives every one of them the level
    and [get_level] returns it; [should_log] asks the first sink only, so
    a later sink with a lower threshold does not count. *)
Theorem logger_level_is_the_first_sink (e : AsyncLogger) (l l' : LogLevel) :
  (sinks_ e = [] ->
   logger_get_level (logger_set_level e l) = INFO /\
   logger_should_log (logger_set_level e l) l' = level_ge l' INFO /\
   forall s, logger_get_level (add_sink (logger_set_level e l) s)
             = get_level s) /\
  (sinks_ e <> [] ->
   logger_get_level (logger_set_level e l) = l /\
   Forall (fun s => get_level s = l) (sinks_ (logger_set_level e l))) /\
  (forall front rest,
      sinks_ e = front :: rest ->
      logger_should_log e l' = should_log front l').
Proof.
  repeat split.
  - unfold logger_get_level, logger_set_level. cbn. rewrite H. reflexivity.
  - unfold logger_should_log, logger_get_level, logger_set_level. cbn.
    rewrite H. reflexivity.
  - intros s. unfold logger_get_level, add_sink, logger_set_level. cbn.
    rewrite H. reflexivity.
  - unfold logger_get_level, logger_set_level. cbn.
    destruct (sinks_ e) as [|front rest]; [contradiction|]. cbn.
    apply get_level_set_level.
  - unfold logger_set_level. cbn. apply Forall_forall. intros s Hin.
    apply in_map_iff in Hin. destruct Hin as [s0 [E _]]. subst.
    apply get_level_set_level.
  - intros front rest Hs. unfold logger_should_log, logger_get_level.
    rewrite Hs. symmetry. apply should_log_is_threshold.
Qed.

(** * The worker threads *)

Lemma writes_app (w1 w2 : World) : writes (w1 ++ w2) = writes w1 ++ writes w2.
Proof. unfold writes. apply filter_app. Qed.

(** A flush writes no record, whatever the sink. *)
Lemma sink_flush_writes_nothing (s : LogSink) :
  forall w, writes (output (sink_flush s w)) = writes w.
Proof.
  induction s as [id lv thr fl | lv cs IH | lv child f IH]
    using LogSink_nested_ind; intros w; cbn.
  - destruct fl; cbn; [reflexivity|].
    rewrite writes_app. cbn. apply app_nil_r.
  - revert w. induction cs as [|[c|] cs IHcs]; intros w; cbn.
    + reflexivity.
    + pose proof (IH c (or_introl eq_refl) w) as Hc.
      destruct (sink_flush c w) as [w1|w1]; cbn in *.
      * rewrite IHcs; [exact Hc|]. intros c' Hin. apply IH. right. exact Hin.
      * exact Hc.
    + apply IHcs. intros c' Hin. apply IH. right. exact Hin.
  - apply IH.
Qed.

Lemma flush_loop_writes_nothing (sinks : list LogSink) :
  forall w, writes (output (flush_loop sinks w)) = writes w.
Proof.
  induction sinks as [|s sinks IH]; intros w; cbn; [reflexivity|].
  pose proof (sink_flush_writes_nothing s w) as Hs.
  destruct (sink_flush s w) as [w1|w1]; cbn in *.
  - rewrite IH. exact Hs.
  - exact Hs.
Qed.

Lemma process_batch_without_sinks (batch : list LogMessage) (w : World) :
  process_batch [] batch w = Ok w.
Proof. induction batch as [|m batch IH]; cbn; [reflexivity | exact IH]. Qed.

Lemma process_batch_is_the_plan (sinks : list LogSink) (batch : list LogMessage) :
  forall w, process_batch sinks batch w = run_plan (dispatch_plan sinks batch) w.
Proof.
  induction batch as [|m batch IH]; intros w; [reflexivity|].
  change (dispatch_plan sinks (m :: batch))
    with (map (fun s => (s, m)) (filter (accepts m) sinks)
          ++ dispatch_plan sinks batch).
  rewrite run_plan_app, <- process_message_plan. cbn.
  destruct (process_message sinks m w) as [w'|w']; cbn;
    [apply IH | reflexivity].
Qed.

Lemma add_sinks_spec (sinks : list LogSink) : forall e,
  add_sinks sinks e
  = mkLogger (config_ e) (queue_ e) (sinks_ e ++ sinks) (workers_ e)
             (running_ e) (stop_requested_ e) (dropped_count_ e).
Proof.
  induction sinks as [|s sinks IH]; intros e; cbn.
  - rewrite app_nil_r. destruct e; reflexivity.
  - rewrite IH. cbn. rewrite <- app_assoc. reflexivity.
Qed.

Lemma extend_extend (w d : World) (r : result) :
  extend w (extend d r) = extend (w ++ d) r.
Proof. destruct r; cbn; rewrite app_assoc; reflexivity. Qed.

Lemma extend_nil (r : result) : extend [] r = r.
Proof. destruct r; reflexivity. Qed.

Lemma and_then_extend (w : World) (r : result) (k k0 : World -> result) :
  (forall d, k (w ++ d) = extend w (k0 d)) ->
  and_then (extend w r) k = extend w (and_then r k0).
Proof. intros H. destruct r as [d|d]; cbn; [apply H | reflexivity]. Qed.

(** A sink only adds to the output; what it adds and whether it throws do
    not depend on what is there already. *)
Lemma sink_log_extend (s : LogSink) (m : LogMessage) :
  forall w, sink_log s m w = extend w (sink_log s m []).
Proof.
  induction s as [id lv thr fl | lv cs IH | lv child f IH]
    using LogSink_nested_ind; intros w; cbn [sink_log].
  - destruct (thr m); cbn; [rewrite app_nil_r|]; reflexivity.
  - revert w. induction cs as [|[c|] cs IHcs]; intros w.
    + cbn. rewrite app_nil_r. reflexivity.
    + assert (IHrest : forall c', In (Some c') cs ->
                forall w0, sink_log c' m w0 = extend w0 (sink_log c' m []))
        by (intros c' Hin; apply IH; right; exact Hin).
      specialize (IHcs IHrest).
      destruct (should_log c (level m)).
      * rewrite (IH c (or_introl eq_refl) w).
        apply and_then_extend. intros d.
        rewrite (IHcs (w ++ d)), (IHcs d), extend_extend. reflexivity.
      * apply IHcs.
    + apply IHcs. intros c' Hin. apply IH. right. exact Hin.
  - destruct f as [f|]; [|cbn; rewrite app_nil_r; reflexivity].
    destruct (f m); [apply IH | cbn; rewrite app_nil_r; reflexivity].
Qed.

Lemma process_message_extend (sinks : list LogSink) (m : LogMessage) :
  forall w, process_message sinks m w = extend w (process_message sinks m []).
Proof.
  induction sinks as [|s sinks IH]; intros w; cbn [process_message].
  - cbn. rewrite app_nil_r. reflexivity.
  - destruct (should_log s (level m)).
    + rewrite (sink_log_extend s m w). apply and_then_extend. intros d.
      rewrite (IH (w ++ d)), (IH d), extend_extend. reflexivity.
    + cbn [and_then]. apply IH.
Qed.

Lemma process_batch_extend (sinks : list LogSink) (batch : list LogMessage) :
  forall w, process_batch sinks batch w = extend w (process_batch sinks batch []).
Proof.
  induction batch as [|m batch IH]; intros w; cbn [process_batch].
  - cbn. rewrite app_nil_r. reflexivity.
  - rewrite (process_message_extend sinks m w). apply and_then_extend.
    intros d. rewrite (IH (w ++ d)), (IH d), extend_extend. reflexivity.
Qed.

Lemma process_batch_app (sinks : list LogSink) (b1 b2 : list LogMessage) :
  forall w, process_batch sinks (b1 ++ b2) w
            = and_then (process_batch sinks b1 w) (process_batch sinks b2).
Proof.
  induction b1 as [|m b1 IH]; intros w; cbn; [reflexivity|].
  destruct (process_message sinks m w) as [w1|w1]; cbn; [apply IH | reflexivity].
Qed.

(** Dispatching [b] behind the output [w] without a throw: the records
    dispatched so far and [b] make one longer pass. *)
Lemma dispatched_more (sinks : list LogSink) (delivered b : list LogMessage)
  (d w w' : World) :
  process_batch sinks delivered [] = Ok d ->
  process_batch sinks b w = Ok w' ->
  exists db,
    w' = w ++ db /\ process_batch sinks (delivered ++ b) [] = Ok (d ++ db).
Proof.
  intros Hd Hb. rewrite process_batch_extend in Hb.
  destruct (process_batch sinks b []) as [db|db] eqn:Hb0; cbn in Hb;
    [|discriminate].
  inversion Hb; subst. exists db. split; [reflexivity|].
  rewrite process_batch_app, Hd. cbn.
  rewrite process_batch_extend, Hb0. reflexivity.
Qed.

Lemma try_pop_spec (T : Type) (q : Queue.t T) :
  match Queue.queue_ q with
  | [] => Queue.try_pop q = (None, q)
  | x :: rest => Queue.try_pop q = (Some x, Queue.set_queue q rest)
  end.
Proof.
  unfold Queue.try_pop, Queue.empty, Queue.take_front.
  destruct (Queue.queue_ q); reflexivity.
Qed.

(** What one step of a worker does to the records: some records [b] that
    the worker held are dispatched in one pass, and what the worker holds
    afterwards, followed by the queue, is what is left of what it held,
    followed by the queue as it was. *)
Lemma worker_step_effect (e : AsyncLogger) (t : worker) (env : environment)
  (w : World) :
  match worker_step e t env w with
  | Proceeds e' t' w' =>
      sinks_ e' = sinks_ e /\ stop_requested_ e' = stop_requested_ e /\
      running_ e' = running_ e /\ config_ e' = config_ e /\
      exists b wmid,
        b ++ held t' ++ Queue.queue_ (queue_ e')
        = held t ++ Queue.queue_ (queue_ e) /\
        process_batch (sinks_ e) b w = Ok wmid /\
        writes w' = writes wmid
  | Escapes _ => True
  end.
Proof.
  destruct t as [| |b c|b c|b| | |m|]; cbn [worker_step].
  - destruct (reserve_succeeds env); [|exact I].
    repeat split. exists [], w. repeat split.
  - destruct (stop_requested_ e) eqn:Hs; repeat split; try exact Hs;
      exists [], w; repeat split.
  - destruct ((c <? batch_size (config_ e)) && negb (stop_requested_ e));
      repeat split; exists [], w; repeat split.
  - pose proof (try_pop_spec _ (queue_ e)) as Hpop.
    destruct (Queue.queue_ (queue_ e)) as [|x rest] eqn:Hq; rewrite Hpop.
    + repeat split. exists [], w. cbn. rewrite Hq. repeat split.
    + repeat split. exists [], w. cbn. rewrite <- app_assoc. repeat split.
  - destruct b as [|x b].
    + repeat split. exists [], w. repeat split.
    + destruct (process_batch (sinks_ e) (x :: b) w) as [w'|w'] eqn:Hb;
        [|exact I].
      repeat split. exists (x :: b), w'. cbn [held app].
      repeat split. exact Hb.
  - destruct (auto_flush (config_ e) && interval_elapsed env).
    + pose proof (flush_loop_writes_nothing (sinks_ e) w) as Hw.
      unfold flush. destruct (flush_loop (sinks_ e) w) as [w'|w']; [|exact I].
      repeat split. exists [], w. repeat split. exact Hw.
    + repeat split. exists [], w. repeat split.
  - pose proof (try_pop_spec _ (queue_ e)) as Hpop.
    destruct (Queue.queue_ (queue_ e)) as [|x rest] eqn:Hq; rewrite Hpop.
    + repeat split. exists [], w. cbn. rewrite Hq. repeat split.
    + repeat split. exists [], w. repeat split.
  - destruct (process_message (sinks_ e) m w) as [w'|w'] eqn:Hm; [|exact I].
    repeat split. exists [m], w'. cbn. rewrite Hm. repeat split.
  - repeat split. exists [], w. repeat split.
Qed.

Lemma log_effect (e : AsyncLogger) (m : LogMessage) :
  sinks_ (snd (log e m)) = sinks_ e /\
  stop_requested_ (snd (log e m)) = stop_requested_ e /\
  running_ (snd (log e m)) = running_ e /\
  config_ (snd (log e m)) = config_ e /\
  Queue.queue_ (queue_ (snd (log e m)))
  = Queue.queue_ (queue_ e) ++ (if fst (log e m) then [m] else []).
Proof.
  unfold log. destruct (running_ e) eqn:Hr; cbn.
  - unfold Queue.try_push.
    destruct (Queue.shutdown_ (queue_ e)); cbn;
      [rewrite app_nil_r; repeat split; exact Hr|].
    destruct ((0 <? Queue.max_size_ (queue_ e))
              && (Queue.max_size_ (queue_ e) <=? Queue.size (queue_ e))); cbn;
      [rewrite app_nil_r|]; repeat split; exact Hr.
  - rewrite app_nil_r. repeat split. exact Hr.
Qed.

Lemma request_stop_effect (e : AsyncLogger) :
  sinks_ (request_stop e) = sinks_ e /\
  running_ (request_stop e) = running_ e /\
  config_ (request_stop e) = config_ e /\
  queue_ (request_stop e) = queue_ e /\
  (running_ e = true -> stop_requested_ (request_stop e) = true) /\
  (stop_requested_ e = true -> stop_requested_ (request_stop e) = true).
Proof.
  unfold request_stop. destruct (running_ e) eqn:Hr; cbn; repeat split;
    try reflexivity; try assumption; try discriminate; intros H; exact H.
Qed.

Lemma nth_error_set_thread_same (ts : list worker) :
  forall i t t0, nth_error ts i = Some t0 ->
                 nth_error (set_thread i t ts) i = Some t.
Proof.
  induction ts as [|a ts IH]; intros [|i] t t0 H; cbn in *;
    try discriminate; [reflexivity | exact (IH i t t0 H)].
Qed.

Lemma nth_error_set_thread_other (ts : list worker) :
  forall i j t, i <> j -> nth_error (set_thread j t ts) i = nth_error ts i.
Proof.
  induction ts as [|a ts IH]; intros [|i] [|j] t Hne; cbn;
    try reflexivity; [contradiction | apply IH; congruence].
Qed.

Lemma set_thread_split (ts : list worker) :
  forall i t t0, nth_error ts i = Some t0 ->
    exists l1 l2, ts = l1 ++ t0 :: l2 /\ set_thread i t ts = l1 ++ t :: l2.
Proof.
  induction ts as [|a ts IH]; intros [|i] t t0 H; cbn in *; try discriminate.
  - inversion H; subst. exists [], ts. split; reflexivity.
  - destruct (IH i t t0 H) as [l1 [l2 [E1 E2]]].
    exists (a :: l1), l2. rewrite E1 at 1. rewrite E2. split; reflexivity.
Qed.

Lemma remaining_monotone (t : worker) (a b : nat) :
  (a <= b)%nat -> (remaining t a <= remaining t b)%nat.
Proof. intros H. destruct t; cbn; lia. Qed.

Lemma remaining_zero (t : worker) (n : nat) :
  remaining t n = 0%nat -> t = AtReturn.
Proof. destruct t; cbn; intros H; try lia. reflexivity. Qed.

(** One step of a worker once [stop_requested_] is set: it comes closer to
    its return, it does not make the queue longer, and it returns only
    from an empty queue. *)
Lemma worker_step_after_request (e : AsyncLogger) (t : worker)
  (env : environment) (w : World) :
  stop_requested_ e = true ->
  match worker_step e t env w with
  | Proceeds e' t' w' =>
      let n := List.length (Queue.queue_ (queue_ e)) in
      let n' := List.length (Queue.queue_ (queue_ e')) in
      (n' <= n)%nat /\
      (t <> AtReturn -> (remaining t' n' + 1 <= remaining t n)%nat) /\
      (t = AtReturn -> t' = AtReturn) /\
      (t' = AtReturn -> t <> AtReturn -> Queue.queue_ (queue_ e') = [])
  | Escapes _ => True
  end.
Proof.
  intros Hs. destruct t as [| |b c|b c|b| | |m|]; cbn [worker_step].
  - destruct (reserve_succeeds env); [|exact I]. cbv zeta. cbn.
    repeat split; intros; try lia; try congruence.
  - rewrite Hs. cbv zeta. cbn. repeat split; intros; try lia; try congruence.
  - rewrite Hs, andb_false_r. cbv zeta. cbn.
    repeat split; intros; try lia; try congruence.
  - pose proof (try_pop_spec _ (queue_ e)) as Hpop.
    destruct (Queue.queue_ (queue_ e)) as [|x rest] eqn:Hq; rewrite Hpop;
      cbv zeta; cbn; rewrite ?Hq; cbn;
      repeat split; intros; try lia; try congruence.
  - destruct (match b with
              | [] => Ok w
              | _ :: _ => process_batch (sinks_ e) b w
              end) as [w'|w']; [|exact I].
    cbv zeta. cbn. repeat split; intros; try lia; try congruence.
  - destruct (auto_flush (config_ e) && interval_elapsed env).
    + destruct (flush e w) as [w'|w']; [|exact I]. cbv zeta. cbn.
      repeat split; intros; try lia; try congruence.
    + cbv zeta. cbn. repeat split; intros; try lia; try congruence.
  - pose proof (try_pop_spec _ (queue_ e)) as Hpop.
    destruct (Queue.queue_ (queue_ e)) as [|x rest] eqn:Hq; rewrite Hpop;
      cbv zeta; cbn; rewrite ?Hq; cbn;
      repeat split; intros; try lia; try congruence.
  - destruct (process_message (sinks_ e) m w) as [w'|w']; [|exact I].
    cbv zeta. cbn. repeat split; intros; try lia; try congruence.
  - cbv zeta. cbn. repeat split; intros; try lia; try congruence.
Qed.

Lemma steps_of_cons (i : nat) (a : action) (acts : list action) :
  steps_of i (a :: acts)
  = ((match a with
      | Work j _ => if Nat.eqb j i then 1 else 0
      | _ => 0
      end) + steps_of i acts)%nat.
Proof.
  unfold steps_of. cbn [filter].
  destruct a as [m| |j env]; try reflexivity.
  destruct (Nat.eqb j i); reflexivity.
Qed.

(** After the request, while only workers act: the flag stays set, no
    record is accepted, every thread comes closer to its return by each of
    its steps, and once a thread has returned the queue is empty. *)
Lemma workers_after_request (acts : list action) :
  forall e ts accepted w,
    stop_requested_ e = true ->
    forallb is_work acts = true ->
    match run_actions acts e ts accepted w with
    | Crashed _ => True
    | Live e' ts' accepted' w' =>
        stop_requested_ e' = true /\ accepted' = accepted /\
        (List.length (Queue.queue_ (queue_ e'))
         <= List.length (Queue.queue_ (queue_ e)))%nat /\
        (forall i t, nth_error ts i = Some t ->
           exists t', nth_error ts' i = Some t' /\
             (remaining t' (List.length (Queue.queue_ (queue_ e')))
              <= remaining t (List.length (Queue.queue_ (queue_ e)))
                 - steps_of i acts)%nat /\
             (t' = AtReturn -> t <> AtReturn ->
              Queue.queue_ (queue_ e') = []))
    end.
Proof.
  induction acts as [|a acts IH]; intros e ts accepted w Hs Hwork.
  - cbn. split; [exact Hs | split; [reflexivity | split; [lia|]]].
    intros i t Ht. exists t. split; [exact Ht | split; [lia|]].
    intros E N. contradiction.
  - cbn [forallb] in Hwork. apply andb_true_iff in Hwork.
    destruct Hwork as [Ha Hwork].
    destruct a as [m| |j env]; try discriminate Ha.
    cbn [run_actions act].
    destruct (nth_error ts j) as [tj|] eqn:Hj.
    + pose proof (worker_step_after_request e tj env w Hs) as Hstep.
      pose proof (worker_step_effect e tj env w) as Heff.
      destruct (worker_step e tj env w) as [e1 tj1 w1|w1]; [|exact I].
      destruct Heff as [_ [Hs1 _]]. rewrite Hs in Hs1.
      cbv zeta in Hstep. destruct Hstep as [Hlen [Hdec [Hret Hempty]]].
      specialize (IH e1 (set_thread j tj1 ts) accepted w1 Hs1 Hwork).
      destruct (run_actions acts e1 (set_thread j tj1 ts) accepted w1)
        as [e' ts' accepted' w'|w']; [|exact I].
      destruct IH as [Hs' [Hacc [Hlen' Hthreads]]].
      split; [exact Hs' | split; [exact Hacc | split; [lia|]]].
      intros i t Ht. rewrite steps_of_cons.
      destruct (Nat.eqb_spec j i) as [E|N].
      * subst i. rewrite Hj in Ht. inversion Ht; subst t.
        destruct (Hthreads j tj1 (nth_error_set_thread_same ts j tj1 tj Hj))
          as [t' [Ht' [Hrem Hq]]].
        exists t'. split; [exact Ht'|].
        assert (Hcase : tj = AtReturn \/ tj <> AtReturn)
          by (destruct tj; (left; reflexivity) || (right; discriminate)).
        assert (Hcase1 : tj1 = AtReturn \/ tj1 <> AtReturn)
          by (destruct tj1; (left; reflexivity) || (right; discriminate)).
        split.
        -- destruct Hcase as [E|N].
           ++ rewrite (Hret E) in Hrem. subst tj. cbn in *. lia.
           ++ specialize (Hdec N). lia.
        -- intros E N. destruct Hcase1 as [E1|N1].
           ++ pose proof (Hempty E1 N) as Hq1.
              rewrite Hq1 in Hlen'. cbn in Hlen'.
              destruct (Queue.queue_ (queue_ e'));
                [reflexivity | cbn in Hlen'; lia].
           ++ exact (Hq E N1).
      * rewrite <- (nth_error_set_thread_other ts i j tj1
                      (fun E => N (eq_sym E))) in Ht.
        destruct (Hthreads i t Ht) as [t' [Ht' [Hrem Hq]]].
        exists t'. split; [exact Ht'|]. split; [|exact Hq].
        pose proof (remaining_monotone t _ _ Hlen). lia.
    + specialize (IH e ts accepted w Hs Hwork).
      destruct (run_actions acts e ts accepted w)
        as [e' ts' accepted' w'|w']; [|exact I].
      destruct IH as [Hs' [Hacc [Hlen' Hthreads]]].
      split; [exact Hs' | split; [exact Hacc | split; [exact Hlen'|]]].
      intros i t Ht. rewrite steps_of_cons.
      destruct (Nat.eqb_spec j i) as [E|N];
        [subst i; rewrite Hj in Ht; discriminate|].
      exact (Hthreads i t Ht).
Qed.

Lemma held_all_app (l1 l2 : list worker) :
  held_all (l1 ++ l2) = held_all l1 ++ held_all l2.
Proof. unfold held_all. apply flat_map_app. Qed.

Lemma held_all_split (l1 l2 : list worker) (t : worker) :
  held_all (l1 ++ t :: l2) = held_all l1 ++ held t ++ held_all l2.
Proof. rewrite held_all_app. reflexivity. Qed.

Lemma records_moved (a b h1 x x' h2 q q' : list LogMessage) :
  b ++ x' ++ q' = x ++ q ->
  Permutation ((a ++ b) ++ (h1 ++ x' ++ h2) ++ q')
              (a ++ (h1 ++ x ++ h2) ++ q).
Proof.
  intros H. rewrite <- !app_assoc. apply Permutation_app_head.
  apply perm_trans with (h1 ++ h2 ++ b ++ x' ++ q').
  - apply perm_trans with (h1 ++ b ++ x' ++ h2 ++ q').
    + apply Permutation_app_swap_app.
    + apply Permutation_app_head.
      rewrite (app_assoc b x' (h2 ++ q')), (app_assoc b x' q').
      apply Permutation_app_swap_app.
  - apply Permutation_app_head. rewrite H.
    apply Permutation_app_swap_app.
Qed.

(** Nothing is lost and nothing is dispatched twice: at every moment of a
    run the records dispatched so far, those held by the workers and those
    queued are, together, the records that were there at the start and
    those accepted since; and the output holds the writes of the
    dispatched records, pass after pass. *)
Lemma run_conserves_records (acts : list action) :
  forall e ts accepted w w0 delivered d pending,
    process_batch (sinks_ e) delivered [] = Ok d ->
    writes w = writes w0 ++ writes d ->
    Permutation (delivered ++ held_all ts ++ Queue.queue_ (queue_ e)) pending ->
    match run_actions acts e ts accepted w with
    | Crashed _ => True
    | Live e' ts' accepted' w' =>
        sinks_ e' = sinks_ e /\
        exists delivered' d' news,
          accepted' = accepted ++ news /\
          process_batch (sinks_ e) delivered' [] = Ok d' /\
          writes w' = writes w0 ++ writes d' /\
          Permutation (delivered' ++ held_all ts' ++ Queue.queue_ (queue_ e'))
                      (pending ++ news)
    end.
Proof.
  induction acts as [|a acts IH];
    intros e ts accepted w w0 delivered d pending Hd Hw Hperm.
  - cbn. split; [reflexivity|]. exists delivered, d, [].
    rewrite !app_nil_r. repeat split; assumption.
  - cbn [run_actions]. destruct a as [m| |j env]; cbn [act].
    + pose proof (log_effect e m) as Hlog.
      destruct (log e m) as [ok e1]. cbn [fst snd] in Hlog.
      destruct Hlog as [Hs1 [_ [_ [_ Hq1]]]].
      specialize (IH e1 ts (if ok then accepted ++ [m] else accepted) w w0
                     delivered d (pending ++ (if ok then [m] else []))).
      rewrite Hs1 in IH. specialize (IH Hd Hw).
      assert (Hperm1 : Permutation
                (delivered ++ held_all ts ++ Queue.queue_ (queue_ e1))
                (pending ++ (if ok then [m] else []))).
      { rewrite Hq1, !app_assoc. apply Permutation_app_tail.
        rewrite <- app_assoc. exact Hperm. }
      specialize (IH Hperm1).
      destruct (run_actions acts e1 ts _ w) as [e' ts' accepted' w'|w'];
        [|exact I].
      destruct IH as [Hs' [delivered' [d' [news [Hacc [Hd' [Hw' Hp']]]]]]].
      split; [congruence|].
      exists delivered', d', ((if ok then [m] else []) ++ news).
      repeat split; try assumption.
      * rewrite Hacc. destruct ok; [rewrite <- app_assoc|]; reflexivity.
      * rewrite <- (app_assoc pending) in Hp'. exact Hp'.
    + destruct (request_stop_effect e) as [Hs1 [_ [_ [Hq1 _]]]].
      specialize (IH (request_stop e) ts accepted w w0 delivered d pending).
      rewrite Hs1, Hq1 in IH. specialize (IH Hd Hw Hperm).
      destruct (run_actions acts (request_stop e) ts accepted w)
        as [e' ts' accepted' w'|w']; [|exact I].
      exact IH.
    + destruct (nth_error ts j) as [tj|] eqn:Hj; [|apply (IH _ _ _ _ _ _ _ _ Hd Hw Hperm)].
      pose proof (worker_step_effect e tj env w) as Heff.
      destruct (worker_step e tj env w) as [e1 tj1 w1|w1]; [|exact I].
      destruct Heff as [Hs1 [_ [_ [_ [b [wmid [Hmove [Hb Hwmid]]]]]]]].
      destruct (dispatched_more _ _ _ _ _ _ Hd Hb) as [db [Ewmid Hd1]].
      destruct (set_thread_split ts j tj1 tj Hj) as [l1 [l2 [Ets Ets1]]].
      specialize (IH e1 (set_thread j tj1 ts) accepted w1 w0
                     (delivered ++ b) (d ++ db) pending).
      rewrite Hs1 in IH. specialize (IH Hd1).
      assert (Hw1 : writes w1 = writes w0 ++ writes (d ++ db)).
      { rewrite Hwmid, Ewmid, !writes_app, Hw, <- app_assoc. reflexivity. }
      assert (Hperm1 : Permutation
                ((delivered ++ b) ++ held_all (set_thread j tj1 ts)
                 ++ Queue.queue_ (queue_ e1)) pending).
      { eapply perm_trans; [|exact Hperm].
        rewrite Ets1, Ets, !held_all_split.
        apply records_moved. exact Hmove. }
      specialize (IH Hw1 Hperm1).
      destruct (run_actions acts e1 (set_thread j tj1 ts) accepted w1)
        as [e' ts' accepted' w'|w']; [|exact I].
      destruct IH as [Hs' IH]. split; [congruence | exact IH].
Qed.

Lemma run_actions_app (a1 a2 : list action) :
  forall e ts accepted w,
    run_actions (a1 ++ a2) e ts accepted w
    = match run_actions a1 e ts accepted w with
      | Live e' ts' accepted' w' => run_actions a2 e' ts' accepted' w'
      | Crashed w' => Crashed w'
      end.
Proof.
  induction a1 as [|a a1 IH]; intros e ts accepted w; cbn; [reflexivity|].
  destruct (act a e ts accepted w) as [e1 ts1 acc1 w1|w1]; [apply IH | reflexivity].
Qed.

Lemma forallb_set_thread (f : worker -> bool) (ts : list worker) :
  forall i t, forallb f ts = true -> f t = true ->
              forallb f (set_thread i t ts) = true.
Proof.
  induction ts as [|a ts IH]; intros [|i] t Hts Ht; cbn in *;
    try reflexivity; apply andb_true_iff in Hts; destruct Hts as [Ha Hts];
    apply andb_true_iff; split; try assumption.
  now apply IH.
Qed.

(** While [stop_requested_] is not set a worker stays in its loop. *)
Lemma worker_step_in_loop (e : AsyncLogger) (t : worker) (env : environment)
  (w : World) :
  stop_requested_ e = false -> in_loop t = true ->
  match worker_step e t env w with
  | Proceeds _ t' _ => in_loop t' = true
  | Escapes _ => True
  end.
Proof.
  intros Hs Ht. destruct t as [| |b c|b c|b| | |m|]; try discriminate Ht;
    cbn [worker_step].
  - destruct (reserve_succeeds env); [reflexivity | exact I].
  - rewrite Hs. reflexivity.
  - destruct ((c <? batch_size (config_ e)) && negb (stop_requested_ e));
      reflexivity.
  - destruct (Queue.try_pop (queue_ e)) as [[x|] q]; reflexivity.
  - destruct (match b with
              | [] => Ok w
              | _ :: _ => process_batch (sinks_ e) b w
              end); [reflexivity | exact I].
  - destruct (auto_flush (config_ e) && interval_elapsed env);
      [destruct (flush e w); [reflexivity | exact I] | reflexivity].
Qed.

(** Before any stop request: the flag stays clear, the logger stays
    running and no worker leaves its loop. *)
Lemma run_before_request (acts : list action) :
  forall e ts accepted w,
    stop_requested_ e = false ->
    forallb (fun a => negb (is_request a)) acts = true ->
    forallb in_loop ts = true ->
    match run_actions acts e ts accepted w with
    | Crashed _ => True
    | Live e' ts' _ _ =>
        stop_requested_ e' = false /\ running_ e' = running_ e /\
        forallb in_loop ts' = true
    end.
Proof.
  induction acts as [|a acts IH]; intros e ts accepted w Hs Hacts Hts.
  - cbn. repeat split; assumption.
  - cbn [forallb] in Hacts. apply andb_true_iff in Hacts.
    destruct Hacts as [Ha Hacts]. cbn [run_actions].
    destruct a as [m| |j env]; try discriminate Ha; cbn [act].
    + pose proof (log_effect e m) as Hlog.
      destruct (log e m) as [ok e1]. cbn [fst snd] in Hlog.
      destruct Hlog as [_ [Hs1 [Hr1 _]]]. rewrite Hs in Hs1.
      specialize (IH e1 ts (if ok then accepted ++ [m] else accepted) w
                     Hs1 Hacts Hts).
      destruct (run_actions acts e1 ts _ w); [|exact I].
      rewrite <- Hr1. exact IH.
    + destruct (nth_error ts j) as [tj|] eqn:Hj; [|now apply IH].
      assert (Htj : in_loop tj = true).
      { rewrite forallb_forall in Hts. apply Hts.
        apply (nth_error_In _ _ Hj). }
      pose proof (worker_step_in_loop e tj env w Hs Htj) as Hloop.
      pose proof (worker_step_effect e tj env w) as Heff.
      destruct (worker_step e tj env w) as [e1 tj1 w1|w1]; [|exact I].
      destruct Heff as [_ [Hs1 [Hr1 _]]]. rewrite Hs in Hs1.
      specialize (IH e1 (set_thread j tj1 ts) accepted w1 Hs1 Hacts
                     (forallb_set_thread _ _ _ _ Hts Hloop)).
      destruct (run_actions acts e1 (set_thread j tj1 ts) accepted w1);
        [|exact I].
      rewrite <- Hr1. exact IH.
Qed.

(** With one worker the order is kept: the records dispatched so far,
    those the worker holds and those queued are, in this order, the
    records that were there at the start and those accepted since. *)
Lemma single_worker_keeps_order (acts : list action) :
  forall e t accepted w w0 delivered d pending,
    process_batch (sinks_ e) delivered [] = Ok d ->
    writes w = writes w0 ++ writes d ->
    delivered ++ held t ++ Queue.queue_ (queue_ e) = pending ->
    match run_actions acts e [t] accepted w with
    | Crashed _ => True
    | Live e' ts' accepted' w' =>
        exists delivered' t' d' news,
          ts' = [t'] /\ accepted' = accepted ++ news /\
          process_batch (sinks_ e) delivered' [] = Ok d' /\
          writes w' = writes w0 ++ writes d' /\
          delivered' ++ held t' ++ Queue.queue_ (queue_ e') = pending ++ news
    end.
Proof.
  induction acts as [|a acts IH];
    intros e t accepted w w0 delivered d pending Hd Hw Hpending.
  - cbn. exists delivered, t, d, []. rewrite !app_nil_r.
    repeat split; assumption.
  - cbn [run_actions]. destruct a as [m| |j env]; cbn [act].
    + pose proof (log_effect e m) as Hlog.
      destruct (log e m) as [ok e1]. cbn [fst snd] in Hlog.
      destruct Hlog as [Hs1 [_ [_ [_ Hq1]]]].
      specialize (IH e1 t (if ok then accepted ++ [m] else accepted) w w0
                     delivered d (pending ++ (if ok then [m] else []))).
      rewrite Hs1 in IH. specialize (IH Hd Hw).
      assert (Hpending1 : delivered ++ held t ++ Queue.queue_ (queue_ e1)
                          = pending ++ (if ok then [m] else [])).
      { rewrite Hq1, !app_assoc. f_equal. rewrite <- app_assoc.
        exact Hpending. }
      specialize (IH Hpending1).
      destruct (run_actions acts e1 [t] _ w) as [e' ts' accepted' w'|w'];
        [|exact I].
      destruct IH as [delivered' [t' [d' [news [Ets [Hacc [Hd' [Hw' Hp']]]]]]]].
      exists delivered', t', d', ((if ok then [m] else []) ++ news).
      repeat split; try assumption.
      * rewrite Hacc. destruct ok; [rewrite <- app_assoc|]; reflexivity.
      * rewrite <- (app_assoc pending) in Hp'. exact Hp'.
    + destruct (request_stop_effect e) as [Hs1 [_ [_ [Hq1 _]]]].
      specialize (IH (request_stop e) t accepted w w0 delivered d pending).
      rewrite Hs1, Hq1 in IH. exact (IH Hd Hw Hpending).
    + destruct j as [|j]; cbn [nth_error].
      * pose proof (worker_step_effect e t env w) as Heff.
        destruct (worker_step e t env w) as [e1 t1 w1|w1]; [|exact I].
        destruct Heff as [Hs1 [_ [_ [_ [b [wmid [Hmove [Hb Hwmid]]]]]]]].
        destruct (dispatched_more _ _ _ _ _ _ Hd Hb) as [db [Ewmid Hd1]].
        specialize (IH e1 t1 accepted w1 w0 (delivered ++ b) (d ++ db) pending).
        rewrite Hs1 in IH. cbn [set_thread]. apply IH.
        -- exact Hd1.
        -- rewrite Hwmid, Ewmid, !writes_app, Hw, <- app_assoc. reflexivity.
        -- rewrite <- app_assoc, Hmove. exact Hpending.
      * destruct j; cbn [nth_error]; apply (IH _ _ _ _ _ _ _ _ Hd Hw Hpending).
Qed.

Lemma process_batch_returns (sinks : list LogSink) (batch : list LogMessage) :
  forallb (dispatches sinks) batch = true ->
  forall w, exists w', process_batch sinks batch w = Ok w'.
Proof.
  induction batch as [|m batch IH]; intros Hall w; cbn.
  - exists w. reflexivity.
  - cbn [forallb] in Hall. apply andb_true_iff in Hall.
    destruct Hall as [Hm Hall]. unfold dispatches in Hm.
    rewrite process_message_extend.
    destruct (process_message sinks m []) as [d|d]; [|discriminate Hm].
    cbn. apply IH. exact Hall.
Qed.

Lemma sink_flush_extend (s : LogSink) :
  forall w, sink_flush s w = extend w (sink_flush s []).
Proof.
  induction s as [id lv thr fl | lv cs IH | lv child f IH]
    using LogSink_nested_ind; intros w; cbn [sink_flush].
  - destruct fl; cbn; [rewrite app_nil_r|]; reflexivity.
  - revert w. induction cs as [|[c|] cs IHcs]; intros w.
    + cbn. rewrite app_nil_r. reflexivity.
    + assert (IHrest : forall c', In (Some c') cs ->
                forall w0, sink_flush c' w0 = extend w0 (sink_flush c' []))
        by (intros c' Hin; apply IH; right; exact Hin).
      specialize (IHcs IHrest).
      rewrite (IH c (or_introl eq_refl) w).
      apply and_then_extend. intros d.
      rewrite (IHcs (w ++ d)), (IHcs d), extend_extend. reflexivity.
    + apply IHcs. intros c' Hin. apply IH. right. exact Hin.
  - apply IH.
Qed.

Lemma flush_loop_extend (sinks : list LogSink) :
  forall w, flush_loop sinks w = extend w (flush_loop sinks []).
Proof.
  induction sinks as [|s sinks IH]; intros w; cbn [flush_loop].
  - cbn. rewrite app_nil_r. reflexivity.
  - rewrite (sink_flush_extend s w). apply and_then_extend. intros d.
    rewrite (IH (w ++ d)), (IH d), extend_extend. reflexivity.
Qed.

(** A step in which nothing throws leads to the next point. *)
Lemma worker_step_proceeds (e : AsyncLogger) (t : worker) (env : environment)
  (w : World) :
  reserve_succeeds env = true ->
  (auto_flush (config_ e) = false \/
   returned (flush_loop (sinks_ e) []) = true) ->
  forallb (dispatches (sinks_ e)) (held t) = true ->
  exists e' t' w', worker_step e t env w = Proceeds e' t' w'.
Proof.
  intros Hres Hflush Hheld.
  destruct t as [| |b c|b c|b| | |m|]; cbn [worker_step].
  - rewrite Hres. eauto.
  - destruct (stop_requested_ e); eauto.
  - destruct ((c <? batch_size (config_ e)) && negb (stop_requested_ e)); eauto.
  - destruct (Queue.try_pop (queue_ e)) as [[x|] q]; eauto.
  - destruct b as [|x b]; [eauto|].
    destruct (process_batch_returns (sinks_ e) (x :: b) Hheld w) as [w' Hw'].
    rewrite Hw'. eauto.
  - destruct Hflush as [Hoff|Hok].
    + rewrite Hoff. cbn. eauto.
    + destruct (auto_flush (config_ e) && interval_elapsed env); [|eauto].
      unfold flush. rewrite flush_loop_extend.
      destruct (flush_loop (sinks_ e) []) as [d|d]; [|discriminate Hok].
      cbn. eauto.
  - destruct (Queue.try_pop (queue_ e)) as [[x|] q]; eauto.
  - cbn in Hheld. rewrite andb_true_r in Hheld. unfold dispatches in Hheld.
    rewrite process_message_extend.
    destruct (process_message (sinks_ e) m []) as [d|d]; [|discriminate Hheld].
    cbn. eauto.
  - eauto.
Qed.

(** A run in which nothing throws goes on: the process is not ended when
    every reservation goes through, [flush] does not throw (or auto-flush
    is off) and no sink throws on a record that is held, queued or
    logged. *)
Lemma run_stays_alive (acts : list action) :
  forall e ts accepted w,
    forallb (harmless (sinks_ e)) acts = true ->
    (auto_flush (config_ e) = false \/
     returned (flush_loop (sinks_ e) []) = true) ->
    forallb (dispatches (sinks_ e))
            (held_all ts ++ Queue.queue_ (queue_ e)) = true ->
    exists e' ts' accepted' w',
      run_actions acts e ts accepted w = Live e' ts' accepted' w'.
Proof.
  induction acts as [|a acts IH]; intros e ts accepted w Hacts Hflush Hrec.
  - cbn. eauto.
  - cbn [forallb] in Hacts. apply andb_true_iff in Hacts.
    destruct Hacts as [Ha Hacts]. cbn [run_actions].
    destruct a as [m| |j env]; cbn [act harmless] in *.
    + pose proof (log_effect e m) as Hlog.
      destruct (log e m) as [ok e1]. cbn [fst snd] in Hlog.
      destruct Hlog as [Hs1 [_ [_ [Hc1 Hq1]]]].
      apply IH; rewrite ?Hs1, ?Hc1; try assumption.
      rewrite Hq1, !forallb_app in *.
      apply andb_true_iff in Hrec. destruct Hrec as [H1 H2].
      rewrite H1, H2. destruct ok; cbn; [rewrite Ha|]; reflexivity.
    + destruct (request_stop_effect e) as [Hs1 [_ [Hc1 [Hq1 _]]]].
      apply IH; rewrite ?Hs1, ?Hc1, ?Hq1; assumption.
    + destruct (nth_error ts j) as [tj|] eqn:Hj; [|now apply IH].
      rewrite forallb_forall in Hrec.
      assert (Hheld : forallb (dispatches (sinks_ e)) (held tj) = true).
      { apply forallb_forall. intros x Hx. apply Hrec.
        destruct (set_thread_split ts j tj tj Hj) as [l1 [l2 [Ets _]]].
        rewrite Ets, held_all_split, !in_app_iff. tauto. }
      destruct (worker_step_proceeds e tj env w Ha Hflush Hheld)
        as [e1 [tj1 [w1 Hstep]]].
      pose proof (worker_step_effect e tj env w) as Heff.
      rewrite Hstep in Heff. rewrite Hstep.
      destruct Heff as [Hs1 [_ [_ [Hc1 [b [wmid [Hmove _]]]]]]].
      apply IH; rewrite ?Hs1, ?Hc1; try assumption.
      destruct (set_thread_split ts j tj1 tj Hj) as [l1 [l2 [Ets Ets1]]].
      apply forallb_forall. intros x Hx. apply Hrec.
      rewrite Ets1, held_all_split in Hx. rewrite Ets, held_all_split.
      assert (Hin : In x (held tj1 ++ Queue.queue_ (queue_ e1)) ->
                    In x (held tj ++ Queue.queue_ (queue_ e))).
      { intros H. rewrite <- Hmove. apply in_or_app. right. exact H. }
      rewrite !in_app_iff in *. tauto.
Qed.

(** X18. A graceful stop loses nothing, whatever the workers were doing.
    Take a logger on which [stop] has set [stop_requested_], with any
    number of worker threads, each at any point of its function, and let
    only the workers act from then on, in any order (no producer logs).
    - If every reservation goes through, [flush] does not throw (or
      auto-flush is off) and no sink throws on a record that is held or
      queued, the process is not ended.
    - While the process lives, no record is lost or dispatched twice: the
      records dispatched during the run, those still held and those still
      queued are a rearrangement of the records held and queued at the
      request, and the output has grown by the writes of the dispatched
      records, pass after pass.
    - A worker that has taken the number of steps that [remaining] gives
      has returned, so the joins of [stop(true)] come back; and once a
      worker has returned during the run the queue is empty. *)
Theorem stop_true_delivers_the_queue
  (e : AsyncLogger) (ts : list worker) (acts : list action)
  (accepted : list LogMessage) (w : World) :
  stop_requested_ e = true ->
  forallb is_work acts = true ->
  (forallb (harmless (sinks_ e)) acts = true ->
   auto_flush (config_ e) = false \/
   returned (flush_loop (sinks_ e) []) = true ->
   forallb (dispatches (sinks_ e)) (pending e ts) = true ->
   exists e' ts' w', run_actions acts e ts accepted w = Live e' ts' accepted w') /\
  match run_actions acts e ts accepted w with
  | Crashed _ => True
  | Live e' ts' accepted' w' =>
      accepted' = accepted /\ sinks_ e' = sinks_ e /\
      (exists delivered d,
         Permutation (delivered ++ pending e' ts') (pending e ts) /\
         process_batch (sinks_ e) delivered [] = Ok d /\
         writes w' = writes w ++ writes d) /\
      (forall i t,
         nth_error ts i = Some t ->
         (remaining t (List.length (Queue.queue_ (queue_ e)))
          <= steps_of i acts)%nat ->
         nth_error ts' i = Some AtReturn) /\
      (forall i t,
         nth_error ts i = Some t -> t <> AtReturn ->
         nth_error ts' i = Some AtReturn ->
         Queue.queue_ (queue_ e') = [])
  end.
Proof.
  intros Hs Hwork.
  pose proof (workers_after_request acts e ts accepted w Hs Hwork) as Hafter.
  pose proof (run_conserves_records acts e ts accepted w w [] [] (pending e ts)
                eq_refl ltac:(cbn; now rewrite app_nil_r)
                (Permutation_refl _)) as Hcons.
  split.
  - intros Hharmless Hflush Hrec.
    destruct (run_stays_alive acts e ts accepted w Hharmless Hflush Hrec)
      as [e' [ts' [accepted' [w' Hrun]]]].
    rewrite Hrun in Hafter. destruct Hafter as [_ [Hacc _]]. subst accepted'.
    exists e', ts', w'. exact Hrun.
  - destruct (run_actions acts e ts accepted w) as [e' ts' accepted' w'|w'];
      [|exact I].
    destruct Hafter as [_ [Hacc [_ Hthreads]]].
    destruct Hcons as [Hsinks [delivered [d [news [Hnews [Hd [Hw Hperm]]]]]]].
    split; [exact Hacc | split; [exact Hsinks | split; [|split]]].
    + exists delivered, d. split; [|split; assumption].
      assert (Enews : news = []).
      { rewrite Hacc in Hnews. rewrite <- (app_nil_r accepted) in Hnews at 1.
        apply app_inv_head in Hnews. symmetry. exact Hnews. }
      rewrite Enews, app_nil_r in Hperm. exact Hperm.
    + intros i t Ht Hsteps.
      destruct (Hthreads i t Ht) as [t' [Ht' [Hrem _]]].
      rewrite Ht'. f_equal.
      apply (remaining_zero t' (List.length (Queue.queue_ (queue_ e')))). lia.
    + intros i t Ht Hnot Hret.
      destruct (Hthreads i t Ht) as [t' [Ht' [_ Hq]]].
      rewrite Ht' in Hret. inversion Hret. now apply Hq.
Qed.

Lemma stop_true_delivers_the_queue_witness :
  let sink := BackendSink 1 TRACE never false in
  let a := record_at ERROR "a" in
  let b := record_at INFO "b" in
  let c := record_at WARN "c" in
  let cfg := mkConfig 0 2 1000 2 true 1024 1000 false in
  let e := request_stop
             (log_all [b; c] (add_sinks [sink] (start (new_logger cfg)))) in
  let ts := [AtTryPop [a] 1; AtLoopTest] in
  let go := mkEnvironment true true in
  let acts := [Work 0 go; Work 1 go; Work 1 go; Work 1 go; Work 0 go;
               Work 0 go; Work 0 go; Work 0 go; Work 0 go; Work 1 go] in
  run_actions acts e ts [] []
  = Live (set_logger_queue e (Queue.set_queue (queue_ e) []))
         [AtReturn; AtReturn] []
         [Wrote 1 c; Wrote 1 a; Wrote 1 b; Flushed 1] /\
  exists delivered d,
    Permutation (delivered ++ []) [a; b; c] /\
    process_batch [sink] delivered [] = Ok d /\
    writes [Wrote 1 c; Wrote 1 a; Wrote 1 b; Flushed 1] = writes [] ++ writes d.
Proof.
  cbv zeta. split; [vm_compute; reflexivity|].
  pose proof (proj2 (stop_true_delivers_the_queue
    (request_stop
       (log_all [record_at INFO "b"; record_at WARN "c"]
          (add_sinks [BackendSink 1 TRACE never false]
             (start (new_logger (mkConfig 0 2 1000 2 true 1024 1000 false))))))
    [AtTryPop [record_at ERROR "a"] 1; AtLoopTest]
    [Work 0 (mkEnvironment true true); Work 1 (mkEnvironment true true);
     Work 1 (mkEnvironment true true); Work 1 (mkEnvironment true true);
     Work 0 (mkEnvironment true true); Work 0 (mkEnvironment true true);
     Work 0 (mkEnvironment true true); Work 0 (mkEnvironment true true);
     Work 0 (mkEnvironment true true); Work 1 (mkEnvironment true true)]
    [] [] eq_refl eq_refl)) as H.
  vm_compute in H. exact (proj1 (proj2 (proj2 H))).
Defined.

(** X19. Without worker threads nothing is ever delivered.  With
    [worker_threads = 0], [start()] makes the logger running but spawns no
    thread; [log] then accepts records as usual, and [stop], waiting or
    not, returns at once with the world unchanged and every accepted record
    still in the queue. *)
Theorem no_worker_no_delivery
  (cfg : AsyncLoggerConfig) (sinks : list LogSink) (ms : list LogMessage)
  (wait_for_completion : bool) (w : World) :
  worker_threads cfg = 0 ->
  let e := log_all ms (add_sinks sinks (start (new_logger cfg))) in
  running_ e = true /\ workers_ e = [] /\
  exists e',
    stop e wait_for_completion w = Returns e' w /\
    queue_ e' = queue_ e /\ running_ e' = false.
Proof.
  intros Hzero. cbv zeta.
  assert (Hstart : running_ (start (new_logger cfg)) = true /\
                   workers_ (start (new_logger cfg)) = []).
  { unfold start, new_logger, spawn_workers. cbn. rewrite Hzero. now split. }
  assert (Hsinks : forall ss e0, running_ e0 = true /\ workers_ e0 = [] ->
             running_ (add_sinks ss e0) = true /\ workers_ (add_sinks ss e0) = []).
  { induction ss as [|s ss IH]; intros e0 H0; cbn; [exact H0|].
    apply IH. exact H0. }
  assert (Hlogs : forall l e0, running_ e0 = true /\ workers_ e0 = [] ->
             running_ (log_all l e0) = true /\ workers_ (log_all l e0) = []).
  { induction l as [|m l IH]; intros e0 [Hr Hw]; cbn; [now split|].
    apply IH. unfold log. rewrite Hr. cbn.
    destruct (Queue.try_push (queue_ e0) m) as [ok q]. cbn. now split. }
  destruct (Hlogs ms _ (Hsinks sinks _ Hstart)) as [Hr Hw].
  split; [exact Hr | split; [exact Hw|]].
  unfold stop. rewrite Hr, Hw. cbn.
  destruct wait_for_completion; cbn; eexists; repeat split.
Qed.

Lemma no_worker_no_delivery_witness :
  let cfg := mkConfig 0 100 1000 0 true 1024 1000 false in
  let e := log_all [record_at FATAL "lost"]
             (add_sinks [BackendSink 1 TRACE never false]
                        (start (new_logger cfg))) in
  get_queue_size e = 1 /\
  exists e', stop e true [] = Returns e' [] /\
             queue_ e' = queue_ e /\ running_ e' = false.
Proof.
  cbv zeta. split; [reflexivity|].
  apply (no_worker_no_delivery
           (mkConfig 0 100 1000 0 true 1024 1000 false)
           [BackendSink 1 TRACE never false] [record_at FATAL "lost"]
           true [] eq_refl).
Defined.

Lemma set_queue_same (e : AsyncLogger) :
  set_logger_queue e (Queue.set_queue (queue_ e) (Queue.queue_ (queue_ e))) = e.
Proof. destruct e as [c [items cap sd bs] s ws r sr d]. reflexivity. Qed.

(** The collecting loop of a worker that is alone with the queue: it pops
    a record in two steps until it has a full batch or the queue is
    empty. *)
Lemma collect_alone (items : list LogMessage) :
  forall (e : AsyncLogger) (batch : list LogMessage) (c : N)
         (envs : list environment) (w : World),
    Queue.queue_ (queue_ e) = items ->
    stop_requested_ e = false ->
    batch_size (config_ e) < 2 ^ 64 ->
    c <= batch_size (config_ e) ->
    let k := Nat.min (List.length items)
                     (N.to_nat (batch_size (config_ e) - c)) in
    List.length envs
    = (2 * k + (if (c + N.of_nat k <? batch_size (config_ e))%N
                then 2 else 1))%nat ->
    run_alone envs e (AtCollectTest batch c) w
    = Proceeds (set_logger_queue e (Queue.set_queue (queue_ e) (skipn k items)))
               (AtProcessBatch (batch ++ firstn k items)) w.
Proof.
  induction items as [|x rest IH]; intros e batch c envs w Hq Hs Hbs Hc k Hlen.
  - subst k. cbn [List.length Nat.min] in *. cbn [skipn firstn].
    rewrite app_nil_r, <- Hq, set_queue_same. rewrite N.add_0_r in Hlen.
    destruct (N.ltb_spec c (batch_size (config_ e))) as [Hlt|Hge].
    + destruct envs as [|env1 [|env2 [|env3 envs]]]; try discriminate Hlen.
      cbn [run_alone worker_step].
      rewrite Hs. destruct (N.ltb_spec c (batch_size (config_ e))); [|lia].
      cbn [andb negb].
      pose proof (try_pop_spec _ (queue_ e)) as Hpop. rewrite Hq in Hpop.
      cbn [run_alone worker_step]. rewrite Hpop. reflexivity.
    + destruct envs as [|env1 [|env2 envs]]; try discriminate Hlen.
      cbn [run_alone worker_step].
      destruct (N.ltb_spec c (batch_size (config_ e))); [lia|]. reflexivity.
  - destruct (N.ltb_spec c (batch_size (config_ e))) as [Hlt|Hge].
    + assert (Hk : k = S (Nat.min (List.length rest)
                            (N.to_nat (batch_size (config_ e) - (c + 1))))).
      { subst k. cbn [List.length].
        replace (N.to_nat (batch_size (config_ e) - c))
          with (S (N.to_nat (batch_size (config_ e) - (c + 1)))) by lia.
        reflexivity. }
      rewrite Hk in *. clear Hk k.
      set (k' := Nat.min (List.length rest)
                   (N.to_nat (batch_size (config_ e) - (c + 1)))) in *.
      destruct envs as [|env1 [|env2 envs]];
        try (exfalso; cbn [List.length] in Hlen;
             destruct (_ <? _)%N in Hlen; lia).
      cbn [run_alone worker_step].
      rewrite Hs. destruct (N.ltb_spec c (batch_size (config_ e))); [|lia].
      cbn [andb negb].
      pose proof (try_pop_spec _ (queue_ e)) as Hpop. rewrite Hq in Hpop.
      cbn [run_alone worker_step]. rewrite Hpop.
      assert (Hwrap : size_t_wrap (c + 1) = c + 1)
        by (unfold size_t_wrap; apply N.mod_small; lia).
      rewrite Hwrap.
      rewrite (IH (set_logger_queue e (Queue.set_queue (queue_ e) rest))
                  (batch ++ [x]) (c + 1) envs w eq_refl Hs Hbs ltac:(cbn; lia)).
      * cbn [skipn firstn]. rewrite <- app_assoc. reflexivity.
      * cbn [config_ set_logger_queue]. fold k'.
        replace (c + 1 + N.of_nat k') with (c + N.of_nat (S k')) by lia.
        cbn [List.length] in Hlen. lia.
    + assert (Hk : k = 0%nat) by (subst k; lia).
      rewrite Hk in *. cbn [skipn firstn] in *.
      rewrite app_nil_r, <- Hq, set_queue_same.
      rewrite N.add_0_r in Hlen.
      destruct (N.ltb_spec c (batch_size (config_ e))); [lia|].
      destruct envs as [|env1 [|env2 envs]]; try discriminate Hlen.
      cbn [run_alone worker_step].
      destruct (N.ltb_spec c (batch_size (config_ e))); [lia|]. reflexivity.
Qed.

Lemma run_alone_app (envs1 envs2 : list environment) :
  forall e t w,
    run_alone (envs1 ++ envs2) e t w
    = match run_alone envs1 e t w with
      | Proceeds e' t' w' => run_alone envs2 e' t' w'
      | Escapes w' => Escapes w'
      end.
Proof.
  induction envs1 as [|env envs1 IH]; intros e t w; cbn; [reflexivity|].
  destruct (worker_step e t env w); [apply IH | reflexivity].
Qed.

(** A turn of a worker that no other thread disturbs. *)
Lemma worker_turn_alone
  (e : AsyncLogger) (envs : list environment) (env1 env2 : environment)
  (w : World) :
  batch_size (config_ e) < 2 ^ 64 ->
  stop_requested_ e = false ->
  let items := Queue.queue_ (queue_ e) in
  let k := Nat.min (List.length items) (N.to_nat (batch_size (config_ e))) in
  let e' := set_logger_queue e (Queue.set_queue (queue_ e) (skipn k items)) in
  List.length envs
  = (2 * k + (if (N.of_nat k <? batch_size (config_ e))%N
              then 3 else 2))%nat ->
  run_alone envs e AtLoopTest w = Proceeds e' (AtProcessBatch (firstn k items)) w /\
  run_alone (envs ++ [env1; env2]) e AtLoopTest w
  = match and_then (process_batch (sinks_ e) (firstn k items) w)
                   (fun w' => if auto_flush (config_ e) && interval_elapsed env2
                              then flush_loop (sinks_ e) w' else Ok w') with
    | Ok w' => Proceeds e' AtLoopTest w'
    | Raised w' => Escapes w'
    end.
Proof.
  intros Hbs Hs. cbv zeta. intros Hlen.
  assert (Hfirst : run_alone envs e AtLoopTest w
                   = Proceeds
                       (set_logger_queue e
                          (Queue.set_queue (queue_ e)
                             (skipn (Nat.min (List.length (Queue.queue_ (queue_ e)))
                                             (N.to_nat (batch_size (config_ e))))
                                    (Queue.queue_ (queue_ e)))))
                       (AtProcessBatch
                          (firstn (Nat.min (List.length (Queue.queue_ (queue_ e)))
                                           (N.to_nat (batch_size (config_ e))))
                                  (Queue.queue_ (queue_ e)))) w).
  { destruct envs as [|env envs];
      [destruct (_ <? _); cbn in Hlen; lia|].
    cbn [run_alone worker_step]. rewrite Hs.
    rewrite (collect_alone (Queue.queue_ (queue_ e)) e [] 0 envs w
               eq_refl Hs Hbs ltac:(lia)).
    - rewrite N.sub_0_r. reflexivity.
    - rewrite N.sub_0_r, N.add_0_l. cbn [List.length] in Hlen.
      destruct (_ <? _); lia. }
  split; [exact Hfirst|].
  rewrite run_alone_app, Hfirst.
  cbn [run_alone worker_step sinks_ config_ set_logger_queue].
  set (b := firstn _ _).
  assert (Hd : match b with
               | [] => Ok w
               | _ :: _ => process_batch (sinks_ e) b w
               end = process_batch (sinks_ e) b w)
    by (destruct b; reflexivity).
  rewrite Hd. destruct (process_batch (sinks_ e) b w) as [w1|w1];
    cbn [and_then worker_step config_ set_logger_queue]; [|reflexivity].
  destruct (auto_flush (config_ e) && interval_elapsed env2); [|reflexivity].
  unfold flush. cbn [sinks_ set_logger_queue].
  destruct (flush_loop (sinks_ e) w1); reflexivity.
Qed.

(** X20. One turn of a worker that is alone with the queue.  While no stop
    is requested and no other thread moves, a worker at the head of its
    loop takes the first [min(queue size, batch_size)] records off the
    queue, one [try_pop] each, and leaves the others queued; its next two
    steps dispatch them in queue order by the rule of [process_batch] and
    then flush every sink if auto-flush is on and the interval has passed;
    an exception of a sink ends the process.  With [batch_size = 0] a turn
    takes and delivers nothing. *)
Theorem worker_turn_dispatches_a_prefix
  (e : AsyncLogger) (envs : list environment) (env1 env2 : environment)
  (w : World) :
  batch_size (config_ e) < 2 ^ 64 ->
  stop_requested_ e = false ->
  let items := Queue.queue_ (queue_ e) in
  let k := Nat.min (List.length items) (N.to_nat (batch_size (config_ e))) in
  let e' := set_logger_queue e (Queue.set_queue (queue_ e) (skipn k items)) in
  List.length envs
  = (2 * k + (if (N.of_nat k <? batch_size (config_ e))%N
              then 3 else 2))%nat ->
  run_alone envs e AtLoopTest w = Proceeds e' (AtProcessBatch (firstn k items)) w /\
  run_alone (envs ++ [env1; env2]) e AtLoopTest w
  = match and_then (process_batch (sinks_ e) (firstn k items) w)
                   (fun w' => if auto_flush (config_ e) && interval_elapsed env2
                              then flush_loop (sinks_ e) w' else Ok w') with
    | Ok w' => Proceeds e' AtLoopTest w'
    | Raised w' => Escapes w'
    end.
Proof. exact (worker_turn_alone e envs env1 env2 w). Qed.

Lemma worker_turn_dispatches_a_prefix_witness :
  let cfg := mkConfig 0 2 1000 1 true 1024 1000 false in
  let sink := BackendSink 1 TRACE never false in
  let a := record_at INFO "a" in
  let b := record_at INFO "b" in
  let c := record_at INFO "c" in
  let e := log_all [a; b; c] (add_sinks [sink] (start (new_logger cfg))) in
  let env := mkEnvironment true true in
  run_alone [env; env; env; env; env; env; env; env] e AtLoopTest []
  = Proceeds (set_logger_queue e (Queue.set_queue (queue_ e) [c])) AtLoopTest
             [Wrote 1 a; Wrote 1 b; Flushed 1].
Proof.
  cbv zeta.
  pose proof (proj2 (worker_turn_dispatches_a_prefix
                (log_all [record_at INFO "a"; record_at INFO "b";
                          record_at INFO "c"]
                   (add_sinks [BackendSink 1 TRACE never false]
                      (start (new_logger
                                (mkConfig 0 2 1000 1 true 1024 1000 false)))))
                [mkEnvironment true true; mkEnvironment true true;
                 mkEnvironment true true; mkEnvironment true true;
                 mkEnvironment true true; mkEnvironment true true]
                (mkEnvironment true true) (mkEnvironment true true)
                [] eq_refl eq_refl eq_refl)) as H.
  exact H.
Defined.

(** * A whole turn and the steps it is made of

    [worker_iteration] and [join_worker] take a turn of a worker, or its
    closing loop, as one step.  They are what the step-by-step worker does
    when no other thread moves in between. *)

Lemma collect_loop_takes_a_prefix (items : list LogMessage) :
  forall (batch : list LogMessage) (c bs : N),
    bs < 2 ^ 64 -> c <= bs ->
    let k := Nat.min (List.length items) (N.to_nat (bs - c)) in
    collect_loop items batch c bs false = (skipn k items, batch ++ firstn k items).
Proof.
  induction items as [|x rest IH]; intros batch c bs Hbs Hc k.
  - subst k. cbn. now rewrite app_nil_r.
  - cbn [collect_loop]. destruct (N.ltb_spec c bs) as [Hlt|Hge]; cbn [andb negb].
    + assert (Hwrap : size_t_wrap (c + 1) = c + 1)
        by (unfold size_t_wrap; apply N.mod_small; lia).
      rewrite Hwrap, (IH (batch ++ [x]) (c + 1) bs Hbs ltac:(lia)).
      subst k. cbn [List.length].
      replace (N.to_nat (bs - c)) with (S (N.to_nat (bs - (c + 1)))) by lia.
      cbn [Nat.min skipn firstn]. now rewrite <- app_assoc.
    + subst k. replace (N.to_nat (bs - c)) with 0%nat by lia.
      rewrite Nat.min_0_r. cbn. now rewrite app_nil_r.
Qed.

(** The closing loop of a worker that is alone with the queue. *)
Lemma drain_alone (items : list LogMessage) :
  forall (e : AsyncLogger) (w : World),
    Queue.queue_ (queue_ e) = items ->
    exists envs,
      run_alone envs e AtDrainPop w
      = match drain_loop (sinks_ e) items w with
        | (rest, Ok w') =>
            Proceeds (set_logger_queue e (Queue.set_queue (queue_ e) rest))
                     AtReturn w'
        | (_, Raised w') => Escapes w'
        end.
Proof.
  induction items as [|x rest IH]; intros e w Hq;
    pose proof (try_pop_spec _ (queue_ e)) as Hpop; rewrite Hq in Hpop.
  - exists [mkEnvironment true false]. cbn [run_alone worker_step drain_loop].
    rewrite Hpop, <- Hq, set_queue_same. reflexivity.
  - cbn [drain_loop].
    set (e1 := set_logger_queue e (Queue.set_queue (queue_ e) rest)).
    destruct (process_message (sinks_ e) x w) as [w1|w1] eqn:Hm.
    + destruct (IH e1 w1 eq_refl) as [envs Henvs].
      exists (mkEnvironment true false :: mkEnvironment true false :: envs).
      cbn [run_alone worker_step]. rewrite Hpop. fold e1.
      cbn [run_alone worker_step]. change (sinks_ e1) with (sinks_ e).
      rewrite Hm. rewrite Henvs. change (sinks_ e1) with (sinks_ e).
      destruct (drain_loop (sinks_ e) rest w1) as [rest' [w2|w2]];
        reflexivity.
    + exists [mkEnvironment true false; mkEnvironment true false].
      cbn [run_alone worker_step]. rewrite Hpop. fold e1.
      cbn [run_alone worker_step]. change (sinks_ e1) with (sinks_ e).
      rewrite Hm. reflexivity.
Qed.

(** [join_worker] is the run of a worker that stands at the head of its loop
    when the stop is requested and is alone with the queue from then on. *)
Lemma join_worker_is_the_closing_run (e : AsyncLogger) (w : World) :
  stop_requested_ e = true ->
  exists envs,
    run_alone envs e AtLoopTest w
    = match join_worker e w with
      | Returns e' w' => Proceeds e' AtReturn w'
      | Terminates w' => Escapes w'
      end.
Proof.
  intros Hs. destruct (drain_alone (Queue.queue_ (queue_ e)) e w eq_refl)
    as [envs Henvs].
  exists (mkEnvironment true false :: envs).
  cbn [run_alone worker_step]. rewrite Hs, Henvs. unfold join_worker.
  destruct (drain_loop (sinks_ e) (Queue.queue_ (queue_ e)) w)
    as [rest [w1|w1]]; reflexivity.
Qed.

(** [worker_iteration] is a turn of a worker that stands at the head of its
    loop, has its vector reserved and is alone with the queue. *)
Lemma worker_iteration_is_a_turn_alone
  (e : AsyncLogger) (envs : list environment) (env1 env2 : environment)
  (w : World) :
  batch_size (config_ e) < 2 ^ 64 ->
  stop_requested_ e = false ->
  List.length envs
  = (2 * Nat.min (List.length (Queue.queue_ (queue_ e)))
                 (N.to_nat (batch_size (config_ e)))
     + (if (N.of_nat (Nat.min (List.length (Queue.queue_ (queue_ e)))
                              (N.to_nat (batch_size (config_ e))))
            <? batch_size (config_ e))%N
        then 3 else 2))%nat ->
  run_alone (envs ++ [env1; env2]) e AtLoopTest w
  = match worker_iteration e (interval_elapsed env2) w with
    | (e', Ok w') => Proceeds e' AtLoopTest w'
    | (_, Raised w') => Escapes w'
    end.
Proof.
  intros Hbs Hs Hlen.
  rewrite (proj2 (worker_turn_alone e envs env1 env2 w Hbs Hs Hlen)).
  unfold worker_iteration. rewrite Hs.
  rewrite (collect_loop_takes_a_prefix (Queue.queue_ (queue_ e)) [] 0
             (batch_size (config_ e)) Hbs ltac:(lia)).
  rewrite N.sub_0_r. cbn [app].
  set (b := firstn _ _).
  assert (Hd : match b with
               | [] => Ok w
               | _ :: _ => process_batch (sinks_ e) b w
               end = process_batch (sinks_ e) b w)
    by (destruct b; reflexivity).
  rewrite Hd. unfold flush. cbn [sinks_ set_logger_queue]. reflexivity.
Qed.

(** * What the calls on a logger keep *)

Lemma invariant_set_queue cfg e l :
  logger_invariant cfg e ->
  logger_invariant cfg (set_logger_queue e (Queue.set_queue (queue_ e) l)).
Proof. intros [Hd [Hs Hm]]. repeat split; assumption. Qed.

Lemma invariant_join_loop cfg (todo : list thread) : forall done e w e' w',
  logger_invariant cfg e ->
  join_loop done todo e w = Returns e' w' -> logger_invariant cfg e'.
Proof.
  induction todo as [|t todo IH]; intros done e w e' w' Hinv H; cbn in H.
  - inversion H; subst. exact Hinv.
  - destruct (joinable t).
    + unfold join_worker in H.
      destruct (drain_loop (sinks_ e) (Queue.queue_ (queue_ e)) w)
        as [rest [w1|w1]]; [|discriminate].
      apply (IH _ _ _ _ _ (invariant_set_queue cfg e rest Hinv) H).
    + apply (IH _ _ _ _ _ Hinv H).
Qed.

Lemma invariant_perform cfg (c : call) (e e' : AsyncLogger) (w w' : World) :
  logger_invariant cfg e ->
  perform c e w = Returns e' w' -> logger_invariant cfg e'.
Proof.
  intros Hinv H. destruct c as [|b|m|s| |l|fd]; cbn in H.
  - inversion H; subst. unfold start. destruct (running_ e); exact Hinv.
  - unfold stop in H. destruct (running_ e); cbn in H.
    + match type of H with
      | match ?j with _ => _ end = _ => destruct j as [e2 w2|w2] eqn:Hj
      end; [|discriminate].
      assert (Hinv1 : logger_invariant cfg
                        (mkLogger (config_ e) (queue_ e) (sinks_ e)
                                  (workers_ e) true true (dropped_count_ e)))
        by exact Hinv.
      assert (Hinv2 : logger_invariant cfg e2).
      { destruct b.
        - apply (invariant_join_loop cfg _ _ _ _ _ _ Hinv1 Hj).
        - inversion Hj; subst. exact Hinv1. }
      destruct (destroy_threads (workers_ e2)); [|discriminate].
      inversion H; subst. exact Hinv2.
    + inversion H; subst. exact Hinv.
  - inversion H; subst. unfold log. destruct (running_ e); cbn; [|exact Hinv].
    destruct Hinv as [Hd [Hs Hm]]. unfold Queue.try_push. rewrite Hs.
    destruct ((0 <? Queue.max_size_ (queue_ e))
              && (Queue.max_size_ (queue_ e) <=? Queue.size (queue_ e)));
      repeat split; assumption.
  - inversion H; subst. exact Hinv.
  - inversion H; subst. exact Hinv.
  - inversion H; subst. exact Hinv.
  - destruct (workers_ e); [inversion H; subst; exact Hinv|].
    unfold worker_iteration in H.
    destruct (stop_requested_ e); [inversion H; subst; exact Hinv|].
    destruct (collect_loop (Queue.queue_ (queue_ e)) [] 0
                (batch_size (config_ e)) false) as [rest batch].
    match type of H with
    | match ?r with _ => _ end = _ => destruct r as [w1|w1]
    end; [|discriminate].
    inversion H; subst. now apply invariant_set_queue.
Qed.

Lemma invariant_run_calls cfg (cs : list call) : forall e w e' w',
  logger_invariant cfg e ->
  run_calls cs e w = Returns e' w' -> logger_invariant cfg e'.
Proof.
  induction cs as [|c cs IH]; intros e w e' w' Hinv H; cbn in H.
  - inversion H; subst. exact Hinv.
  - destruct (perform c e w) as [e1 w1|w1] eqn:Hp; [|discriminate].
    exact (IH _ _ _ _ (invariant_perform cfg c e e1 w w1 Hinv Hp) H).
Qed.

Lemma invariant_new_logger cfg : logger_invariant cfg (new_logger cfg).
Proof. repeat split. Qed.

(** X21. No call on a logger counts a drop or closes its queue.  After any
    sequence of [start], [stop], [log], [add_sink], [clear_sinks],
    [set_level] and worker turns on a new logger, if the process is still
    alive then [get_dropped_count()] is 0 and [get_drop_rate()] is 0,
    however many records were refused; the queue has not been shut down
    and its capacity is the configured [queue_size]. *)
Theorem logger_never_counts_a_drop
  (cfg : AsyncLoggerConfig) (cs : list call) (w : World) :
  match run_calls cs (new_logger cfg) w with
  | Returns e _ =>
      get_dropped_count e = 0 /\
      (get_drop_rate e == 0)%Q /\
      Queue.is_shutdown (queue_ e) = false /\
      get_queue_capacity e = queue_size cfg
  | Terminates _ => True
  end.
Proof.
  destruct (run_calls cs (new_logger cfg) w) as [e w'|w'] eqn:Hrun; [|exact I].
  destruct (invariant_run_calls cfg cs _ _ _ _ (invariant_new_logger cfg) Hrun)
    as [Hd [Hs Hm]].
  repeat split; try assumption.
  unfold get_drop_rate, get_dropped_count. rewrite Hd.
  destruct (0 <? size_t_wrap (get_queue_size e + 0)); [|reflexivity].
  unfold Qdiv. apply Qmult_0_l.
Qed.

Lemma try_push_open_is_not_full (T : Type) (q : Queue.t T) (x : T) :
  Queue.shutdown_ q = false ->
  fst (Queue.try_push q x) = negb (Queue.full q).
Proof.
  intros Hopen. unfold Queue.try_push, Queue.full. rewrite Hopen.
  destruct (N.eqb_spec (Queue.max_size_ q) 0) as [Hz|Hnz].
  - rewrite Hz. reflexivity.
  - destruct (N.ltb_spec 0 (Queue.max_size_ q)); [|lia]. cbn.
    destruct (Queue.max_size_ q <=? Queue.size q); reflexivity.
Qed.

(** X22. When [log] accepts.  In every state that calls on a new logger
    can reach, [log] returns true exactly when the logger is running and
    its queue is not full (a queue of capacity 0 is never full); it never
    waits and nothing else makes it fail. *)
Theorem log_accepts_iff_running_with_room
  (cfg : AsyncLoggerConfig) (cs : list call) (w : World) :
  match run_calls cs (new_logger cfg) w with
  | Returns e _ =>
      forall m, fst (log e m) = running_ e && negb (Queue.full (queue_ e))
  | Terminates _ => True
  end.
Proof.
  destruct (run_calls cs (new_logger cfg) w) as [e w'|w'] eqn:Hrun; [|exact I].
  destruct (invariant_run_calls cfg cs _ _ _ _ (invariant_new_logger cfg) Hrun)
    as [_ [Hs _]].
  intros m. unfold log. destruct (running_ e); cbn; [|reflexivity].
  rewrite <- (try_push_open_is_not_full _ (queue_ e) m Hs).
  destruct (Queue.try_push (queue_ e) m). reflexivity.
Qed.

(** * From [log] to the sinks *)

Lemma started_logger (cfg : AsyncLoggerConfig) (sinks : list LogSink) :
  let e0 := add_sinks sinks (start (new_logger cfg)) in
  sinks_ e0 = sinks /\ config_ e0 = cfg /\ running_ e0 = true /\
  stop_requested_ e0 = false /\ Queue.queue_ (queue_ e0) = [] /\
  workers_ e0 = spawn_workers (worker_threads cfg) [].
Proof. cbv zeta. rewrite add_sinks_spec. cbn. repeat split. Qed.

(** X23. With one worker the records are written in the order in which
    they were accepted.  Take a new logger with [worker_threads = 1],
    started, with its sinks registered, and any run made of [log] calls
    and steps of the worker, then the stop request, then steps of the
    worker only.
    - Before the request and after it, while the process lives: the
      records accepted so far are, in this order, those dispatched, those
      the worker holds and those queued; and the output has grown by the
      writes of the dispatch plan of the dispatched records, a record
      after the other and for each the accepting sinks in registration
      order.
    - After the request the worker returns within [2 n + 6] of its steps,
      [n] being the number of accepted records, and when it has returned
      every accepted record has been dispatched.
    - The process is not ended if every reservation goes through, [flush]
      does not throw (or auto-flush is off) and no sink throws on a logged
      record. *)
Theorem logged_records_are_delivered_in_order
  (cfg : AsyncLoggerConfig) (sinks : list LogSink) (acts1 acts2 : list action)
  (w : World) :
  worker_threads cfg = 1 ->
  forallb (fun a => negb (is_request a)) acts1 = true ->
  forallb is_work acts2 = true ->
  let e0 := add_sinks sinks (start (new_logger cfg)) in
  let acts := acts1 ++ RequestStop :: acts2 in
  match run_actions acts1 e0 (spawned e0) [] w with
  | Crashed _ => True
  | Live e ts accepted w' =>
      exists delivered t d,
        ts = [t] /\
        accepted = delivered ++ held t ++ Queue.queue_ (queue_ e) /\
        run_plan (dispatch_plan sinks delivered) [] = Ok d /\
        writes w' = writes w ++ writes d
  end /\
  match run_actions acts e0 (spawned e0) [] w with
  | Crashed _ => True
  | Live e ts accepted w' =>
      exists delivered t d,
        ts = [t] /\
        accepted = delivered ++ held t ++ Queue.queue_ (queue_ e) /\
        run_plan (dispatch_plan sinks delivered) [] = Ok d /\
        writes w' = writes w ++ writes d /\
        ((2 * List.length accepted + 6 <= steps_of 0 acts2)%nat ->
         t = AtReturn) /\
        (t = AtReturn -> accepted = delivered)
  end /\
  (forallb (harmless sinks) acts = true ->
   auto_flush cfg = false \/ returned (flush_loop sinks []) = true ->
   exists e ts accepted w',
     run_actions acts e0 (spawned e0) [] w = Live e ts accepted w').
Proof.
  intros Hone Hacts1 Hacts2. cbv zeta.
  destruct (started_logger cfg sinks) as [Hsinks [Hcfg [Hrun [Hflag [Hq Hws]]]]].
  set (e0 := add_sinks sinks (start (new_logger cfg))) in *.
  assert (Hts : spawned e0 = [AtReserve]).
  { unfold spawned. rewrite Hws, Hone. reflexivity. }
  rewrite Hts.
  assert (Horder : forall acts,
            match run_actions acts e0 [AtReserve] [] w with
            | Crashed _ => True
            | Live e ts accepted w' =>
                exists delivered t d,
                  ts = [t] /\
                  accepted = delivered ++ held t ++ Queue.queue_ (queue_ e) /\
                  run_plan (dispatch_plan sinks delivered) [] = Ok d /\
                  writes w' = writes w ++ writes d
            end).
  { intros acts.
    pose proof (single_worker_keeps_order acts e0 AtReserve [] w w [] [] []
                  eq_refl ltac:(cbn; now rewrite app_nil_r)
                  ltac:(cbn; exact Hq)) as H.
    rewrite Hsinks in H.
    destruct (run_actions acts e0 [AtReserve] [] w)
      as [e1 ts1 accepted1 w1|w1]; [|exact I].
    destruct H as [delivered [t [d [news [Ets [Hacc [Hd [Hw Hp]]]]]]]].
    exists delivered, t, d. cbn in Hacc, Hp. subst news.
    split; [exact Ets | split; [symmetry; exact Hp | split; [|exact Hw]]].
    rewrite <- process_batch_is_the_plan. exact Hd. }
  split; [apply Horder | split].
  - pose proof (Horder (acts1 ++ RequestStop :: acts2)) as Hall.
    pose proof (Horder acts1) as Hfirst.
    pose proof (run_before_request acts1 e0 [AtReserve] [] w Hflag Hacts1
                  eq_refl) as Hbefore.
    rewrite run_actions_app in *.
    destruct (run_actions acts1 e0 [AtReserve] [] w)
      as [e1 ts1 accepted1 w1|w1]; [|exact I].
    destruct Hfirst as [delivered1 [t1 [d1 [Ets1 [Hacc1 _]]]]]. subst ts1.
    destruct Hbefore as [_ [Hrun1 Hloop1]]. rewrite Hrun in Hrun1.
    cbn [run_actions act] in *.
    destruct (request_stop_effect e1) as [_ [_ [_ [Hq2 [Hset _]]]]].
    specialize (Hset Hrun1).
    pose proof (workers_after_request acts2 (request_stop e1) [t1] accepted1
                  w1 Hset Hacts2) as Hafter.
    destruct (run_actions acts2 (request_stop e1) [t1] accepted1 w1)
      as [e2 ts2 accepted2 w2|w2]; [|exact I].
    destruct Hall as [delivered [t [d [Ets [Hacc [Hd Hw]]]]]]. subst ts2.
    destruct Hafter as [_ [Eacc [_ Hthreads]]].
    destruct (Hthreads 0%nat t1 eq_refl) as [t' [Ht' [Hrem Hempty]]].
    cbn in Ht'. inversion Ht'. subst t'.
    exists delivered, t, d. repeat split; try assumption.
    + intros Hsteps. rewrite Hq2 in Hrem.
      apply (remaining_zero t (List.length (Queue.queue_ (queue_ e2)))).
      assert (Hbound : (remaining t1 (List.length (Queue.queue_ (queue_ e1)))
                        <= 2 * List.length accepted1 + 6)%nat).
      { rewrite Hacc1, !length_app. destruct t1; cbn; lia. }
      rewrite Eacc in Hsteps. lia.
    + intros Eret. rewrite Hacc, Eret.
      rewrite (Hempty Eret); [cbn; now rewrite app_nil_r|].
      cbn in Hloop1. destruct t1; discriminate.
  - intros Hharmless Hflush.
    apply run_stays_alive.
    + rewrite Hsinks. exact Hharmless.
    + rewrite Hsinks, Hcfg. exact Hflush.
    + cbn. rewrite Hq. reflexivity.
Qed.

Lemma logged_records_are_delivered_in_order_witness :
  let console := BackendSink 1 INFO never false in
  let errors := BackendSink 2 ERROR never false in
  let a := record_at ERROR "a" in
  let b := record_at DEBUG "b" in
  let c := record_at WARN "c" in
  let go := mkEnvironment true false in
  let e0 := add_sinks [console; errors] (start (new_logger default_config)) in
  let acts1 := [Produce a; Work 0 go; Work 0 go; Work 0 go; Work 0 go;
                Produce b; Work 0 go; Produce c] in
  let acts2 := [Work 0 go; Work 0 go; Work 0 go; Work 0 go; Work 0 go;
                Work 0 go; Work 0 go; Work 0 go; Work 0 go; Work 0 go] in
  match run_actions (acts1 ++ RequestStop :: acts2) e0 (spawned e0) [] [] with
  | Crashed _ => False
  | Live e ts accepted w' =>
      ts = [AtReturn] /\ accepted = [a; b; c] /\
      w' = [Wrote 1 a; Wrote 2 a; Wrote 1 c] /\
      exists delivered t d,
        ts = [t] /\
        accepted = delivered ++ held t ++ Queue.queue_ (queue_ e) /\
        run_plan (dispatch_plan [console; errors] delivered) [] = Ok d /\
        writes w' = writes [] ++ writes d /\
        ((2 * List.length accepted + 6 <= steps_of 0 acts2)%nat ->
         t = AtReturn) /\
        (t = AtReturn -> accepted = delivered)
  end.
Proof.
  cbv zeta.
  pose proof (proj1 (proj2 (logged_records_are_delivered_in_order
    default_config
    [BackendSink 1 INFO never false; BackendSink 2 ERROR never false]
    [Produce (record_at ERROR "a");
     Work 0 (mkEnvironment true false); Work 0 (mkEnvironment true false);
     Work 0 (mkEnvironment true false); Work 0 (mkEnvironment true false);
     Produce (record_at DEBUG "b"); Work 0 (mkEnvironment true false);
     Produce (record_at WARN "c")]
    [Work 0 (mkEnvironment true false); Work 0 (mkEnvironment true false);
     Work 0 (mkEnvironment true false); Work 0 (mkEnvironment true false);
     Work 0 (mkEnvironment true false); Work 0 (mkEnvironment true false);
     Work 0 (mkEnvironment true false); Work 0 (mkEnvironment true false);
     Work 0 (mkEnvironment true false); Work 0 (mkEnvironment true false)]
    [] eq_refl eq_refl eq_refl))) as H.
  cbv zeta in H.
  destruct (run_actions _ _ _ _ _) as [e ts accepted w'|w'] eqn:Hrun.
  - vm_compute in Hrun. inversion Hrun; subst.
    repeat split. exact H.
  - vm_compute in Hrun. discriminate Hrun.
Defined.

(** * The manager *)

Lemma manager_unlock (m : Manager.t) :
  Manager.mutex_ m = false ->
  Manager.set_mutex (Manager.set_mutex m true) false = m.
Proof. destruct m; cbn; intros H; subst; reflexivity. Qed.

(** X24. [initialize] works once.  On a manager whose mutex is free, the
    first [initialize] returns and marks the manager initialized; any later
    [initialize], with whatever configuration, returns without changing the
    manager. *)
Theorem initialize_only_once
  (c1 c2 : Manager.LogConfig) (m : Manager.t) (w : World) :
  Manager.mutex_ m = false ->
  exists m1,
    Manager.initialize c1 m w = Manager.Finished tt m1 w /\
    Manager.initialized_ m1 = true /\
    Manager.initialize c2 m1 w = Manager.Finished tt m1 w.
Proof.
  intros Hfree. destruct m as [c a s n d i sd l]. cbn in Hfree. subst l.
  unfold Manager.initialize, Manager.lock_guard. cbn.
  destruct i; cbn.
  - eexists. split; [reflexivity|]. split; reflexivity.
  - destruct (Manager.async c1); cbn; eexists;
      (split; [reflexivity|]); split; reflexivity.
Qed.

Lemma initialize_only_once_witness :
  exists m1,
    Manager.initialize Manager.default_log_config Manager.new_manager []
    = Manager.Finished tt m1 [] /\
    Manager.initialized_ m1 = true /\
    Manager.initialize
      (Manager.mkLogConfig TRACE false false "" "" false true true true false
                           0 1 1 1 true false) m1 []
    = Manager.Finished tt m1 [].
Proof.
  apply (initialize_only_once Manager.default_log_config
           (Manager.mkLogConfig TRACE false false "" "" false true true true
                                false 0 1 1 1 true false)
           Manager.new_manager [] eq_refl).
Defined.

(** X25. [shutdown] does not come back.  On an initialized manager that is
    not yet shut down, [shutdown] takes the mutex, stops the asynchronous
    logger if there is one, and then calls [flush], which takes the same
    mutex again: the call never returns normally and never sets the
    shut-down flag.  (If stopping the logger ends the process, it ends
    there.) *)
Theorem manager_shutdown_relocks_its_mutex (m : Manager.t) (w : World) :
  Manager.mutex_ m = false ->
  Manager.initialized_ m = true ->
  Manager.shutdown_ m = false ->
  Manager.shutdown m w = Manager.SelfLocked \/
  exists w', Manager.shutdown m w = Manager.Aborted w'.
Proof.
  intros Hfree Hinit Hopen. destruct m as [c a s n d i sd l].
  cbn in Hfree, Hinit, Hopen. subst.
  unfold Manager.shutdown, Manager.lock_guard. cbn.
  destruct a as [e|]; cbn.
  - destruct (stop e true w) as [e' w1|w1]; cbn.
    + left. reflexivity.
    + right. exists w1. reflexivity.
  - left. reflexivity.
Qed.

Lemma manager_shutdown_relocks_its_mutex_witness :
  Manager.shutdown
    (Manager.mk Manager.default_log_config None
                [BackendSink 1 INFO never false] [] "" true false false) []
  = Manager.SelfLocked.
Proof.
  destruct (manager_shutdown_relocks_its_mutex
              (Manager.mk Manager.default_log_config None
                          [BackendSink 1 INFO never false] [] "" true false false)
              [] eq_refl eq_refl eq_refl) as [H | [w' H]].
  - exact H.
  - discriminate H.
Defined.

Lemma find_erased (loggers : list (string * Manager.t)) (name : string) :
  Manager.find_logger (Manager.erase_logger loggers name) name = None.
Proof.
  induction loggers as [|[n lg] rest IH]; cbn; [reflexivity|].
  destruct (String.eqb n name) eqn:E; [exact IH|]. cbn. rewrite E. exact IH.
Qed.

Lemma find_erased_other (loggers : list (string * Manager.t)) (name other : string) :
  other <> name ->
  Manager.find_logger (Manager.erase_logger loggers name) other
  = Manager.find_logger loggers other.
Proof.
  intros Hne. induction loggers as [|[n lg] rest IH]; cbn; [reflexivity|].
  destruct (String.eqb_spec n name) as [E|N].
  - subst n. destruct (String.eqb_spec name other) as [E2|_];
      [symmetry in E2; contradiction | exact IH].
  - cbn. destruct (String.eqb n other); [reflexivity | exact IH].
Qed.

(** X26. Named loggers: create, look up, remove.  [create_logger] stores
    under the name a fresh manager that has the creator's configuration
    but none of its sinks, no asynchronous logger and is not initialized;
    afterwards [has_logger] is true for the name and [get_logger] returns
    that logger; the loggers under other names are as before; after
    [remove_logger], [has_logger] is false. *)
Theorem named_logger_round_trip
  (name : string) (m : Manager.t) (w : World) :
  Manager.mutex_ m = false ->
  exists lg m1,
    Manager.create_logger name m w = Manager.Finished lg m1 w /\
    Manager.config_ lg = Manager.config_ m /\
    Manager.sinks_ lg = [] /\ Manager.async_logger_ lg = None /\
    Manager.initialized_ lg = false /\
    Manager.has_logger name m1 w = Manager.Finished true m1 w /\
    Manager.get_logger name m1 w = Manager.Finished lg m1 w /\
    (forall other, other <> name ->
       Manager.find_logger (Manager.named_loggers_ m1) other
       = Manager.find_logger (Manager.named_loggers_ m) other) /\
    exists m2,
      Manager.remove_logger name m1 w = Manager.Finished tt m2 w /\
      Manager.has_logger name m2 w = Manager.Finished false m2 w.
Proof.
  intros Hfree. destruct m as [c a s n d i sd l]. cbn in Hfree. subst l.
  exists (Manager.mk c None [] [] "" false false false).
  exists (Manager.mk c a s
            (Manager.store_logger n name
               (Manager.mk c None [] [] "" false false false))
            d i sd false).
  split; [reflexivity|].
  split; [reflexivity|]. split; [reflexivity|]. split; [reflexivity|].
  split; [reflexivity|].
  split; [unfold Manager.has_logger, Manager.lock_guard; cbn;
          rewrite String.eqb_refl; reflexivity|].
  split; [unfold Manager.get_logger, Manager.lock_guard; cbn;
          rewrite String.eqb_refl; reflexivity|].
  split.
  - intros other Hne. cbn.
    destruct (String.eqb_spec name other) as [E|_];
      [symmetry in E; contradiction|].
    now apply find_erased_other.
  - exists (Manager.mk c a s
              (Manager.erase_logger
                 (Manager.store_logger n name
                    (Manager.mk c None [] [] "" false false false)) name)
              d i sd false).
    split; [reflexivity|].
    unfold Manager.has_logger, Manager.lock_guard.
    cbn [Manager.mutex_ Manager.set_mutex Manager.named_loggers_
         Manager.config_ Manager.async_logger_ Manager.sinks_
         Manager.default_logger_name_ Manager.initialized_ Manager.shutdown_].
    rewrite find_erased. reflexivity.
Qed.

Lemma named_logger_round_trip_witness :
  exists lg m1,
    Manager.create_logger "audit" Manager.new_manager []
    = Manager.Finished lg m1 [] /\
    Manager.config_ lg = Manager.config_ Manager.new_manager /\
    Manager.sinks_ lg = [] /\ Manager.async_logger_ lg = None /\
    Manager.initialized_ lg = false /\
    Manager.has_logger "audit" m1 [] = Manager.Finished true m1 [] /\
    Manager.get_logger "audit" m1 [] = Manager.Finished lg m1 [] /\
    (forall other, other <> "audit"%string ->
       Manager.find_logger (Manager.named_loggers_ m1) other
       = Manager.find_logger (Manager.named_loggers_ Manager.new_manager) other) /\
    exists m2,
      Manager.remove_logger "audit" m1 [] = Manager.Finished tt m2 [] /\
      Manager.has_logger "audit" m2 [] = Manager.Finished false m2 [].
Proof.
  apply (named_logger_round_trip "audit" Manager.new_manager [] eq_refl).
Defined.

(** X27. Asking for a logger that does not exist locks up.  [get_logger]
    with a name that has no logger calls [create_logger] while it holds the
    manager's mutex, and [create_logger] takes the mutex again.  So the
    call does not return; in particular [get_default_logger] on a manager
    on which no logger named by [default_logger_name_] was created. *)
Theorem get_logger_of_unknown_name_relocks
  (name : string) (m : Manager.t) (w : World) :
  Manager.mutex_ m = false ->
  Manager.find_logger (Manager.named_loggers_ m) name = None ->
  Manager.get_logger name m w = Manager.SelfLocked /\
  (Manager.default_logger_name_ m = name ->
   Manager.get_default_logger m w = Manager.SelfLocked).
Proof.
  intros Hfree Hnone.
  assert (H : Manager.get_logger name m w = Manager.SelfLocked).
  { destruct m as [c a s n d i sd l]. cbn in Hfree, Hnone. subst l.
    unfold Manager.get_logger, Manager.lock_guard. cbn. rewrite Hnone.
    reflexivity. }
  split; [exact H|].
  intros Hd. unfold Manager.get_default_logger. rewrite Hd. exact H.
Qed.

Lemma get_logger_of_unknown_name_relocks_witness :
  Manager.get_default_logger Manager.new_manager [] = Manager.SelfLocked.
Proof.
  apply (proj2 (get_logger_of_unknown_name_relocks ""
                  Manager.new_manager [] eq_refl eq_refl)).
  reflexivity.
Defined.

Lemma process_message_without_sinks (m : LogMessage) (w : World) :
  process_message [] m w = Ok w.
Proof. reflexivity. Qed.

(** A worker of a logger without sinks writes nothing, wherever it stands
    and whatever it has collected. *)
Lemma worker_step_without_sinks (e : AsyncLogger) (t : worker)
  (env : environment) (w : World) :
  sinks_ e = [] ->
  match worker_step e t env w with
  | Proceeds e' _ w' => w' = w /\ sinks_ e' = []
  | Escapes w' => w' = w
  end.
Proof.
  intros Hs. destruct t as [| |b c|b c|b| | |m|]; cbn [worker_step].
  - destruct (reserve_succeeds env); [now split | reflexivity].
  - destruct (stop_requested_ e); now split.
  - destruct ((c <? batch_size (config_ e)) && negb (stop_requested_ e));
      now split.
  - destruct (Queue.try_pop (queue_ e)) as [[msg|] q]; now split.
  - rewrite Hs.
    assert (Hd : match b with
                 | [] => Ok w
                 | _ :: _ => process_batch [] b w
                 end = Ok w)
      by (destruct b; [reflexivity | apply process_batch_without_sinks]).
    rewrite Hd. now split.
  - unfold flush. rewrite Hs. cbn.
    destruct (auto_flush (config_ e) && interval_elapsed env); now split.
  - destruct (Queue.try_pop (queue_ e)) as [[msg|] q]; now split.
  - rewrite Hs. cbn. now split.
  - now split.
Qed.

(** The state of a manager initialized in asynchronous mode: its mutex is
    free between calls and its asynchronous logger has no sink. *)
Lemma async_manager_step (c : Manager.call) (m : Manager.t)
  (ts : list worker) (w : World) :
  Manager.mutex_ m = false -> Manager.initialized_ m = true ->
  (exists e, Manager.async_logger_ m = Some e /\ sinks_ e = []) ->
  match Manager.perform c m ts w with
  | Manager.Finished _ m' w' =>
      writes w' = writes w /\
      Manager.mutex_ m' = false /\ Manager.initialized_ m' = true /\
      exists e', Manager.async_logger_ m' = Some e' /\ sinks_ e' = []
  | Manager.Thrown _ w' => writes w' = writes w
  | Manager.Aborted w' => writes w' = writes w
  | Manager.SelfLocked => False
  end.
Proof.
  intros Hfree Hinit [e [Ha Hs]].
  destruct m as [cf a s n d i sd l]. cbn in Hfree, Hinit, Ha. subst l i a.
  destruct c as [config | lv msg fl ln fn now th | lv | s0 | | | k env];
    cbn [Manager.perform].
  - unfold Manager.initialize, Manager.lock_guard. cbn.
    repeat split. exists e. split; [reflexivity | exact Hs].
  - unfold Manager.log, Manager.should_log, Manager.lock_guard. cbn.
    destruct (level_ge lv (Manager.level cf)); cbn.
    + repeat split. eexists. split; [reflexivity|].
      unfold Manager.logger_log, log. destruct (running_ e); cbn; [|exact Hs].
      destruct (Queue.try_push (queue_ e) _). exact Hs.
    + repeat split. exists e. split; [reflexivity | exact Hs].
  - unfold Manager.set_level, Manager.lock_guard. cbn.
    repeat split. exists e. split; [reflexivity | exact Hs].
  - unfold Manager.add_sink, Manager.lock_guard. cbn.
    repeat split. exists e. split; [reflexivity | exact Hs].
  - unfold Manager.clear_sinks, Manager.lock_guard. cbn.
    repeat split. exists e. split; [reflexivity | exact Hs].
  - unfold Manager.flush, Manager.lock_guard, Manager.logger_flush, flush.
    cbn. rewrite Hs. cbn.
    pose proof (flush_loop_writes_nothing s w) as Hw.
    destruct (flush_loop s w) as [w1|w1]; cbn in *.
    + repeat split; [exact Hw|]. exists e. split; [reflexivity | exact Hs].
    + exact Hw.
  - cbn [Manager.async_logger_].
    destruct (nth_error ts k) as [t|].
    + pose proof (worker_step_without_sinks e t env w Hs) as Hstep.
      destruct (worker_step e t env w) as [e' t' w'|w'].
      * destruct Hstep as [Hw Hs']. subst w'.
        repeat split. exists e'. split; [reflexivity | exact Hs'].
      * subst w'. reflexivity.
    + repeat split. exists e. split; [reflexivity | exact Hs].
Qed.

Lemma async_manager_run (cs : list Manager.call) : forall m ts w,
  Manager.mutex_ m = false -> Manager.initialized_ m = true ->
  (exists e, Manager.async_logger_ m = Some e /\ sinks_ e = []) ->
  match Manager.run_calls cs m ts w with
  | Manager.Finished _ _ w' => writes w' = writes w
  | Manager.Thrown _ w' => writes w' = writes w
  | Manager.Aborted w' => writes w' = writes w
  | Manager.SelfLocked => False
  end.
Proof.
  induction cs as [|c cs IH]; intros m ts w Hfree Hinit Hasync;
    cbn [Manager.run_calls]; [reflexivity|].
  pose proof (async_manager_step c m ts w Hfree Hinit Hasync) as Hstep.
  destruct (Manager.perform c m ts w) as [ts' m' w'|m' w'|w'|]; try exact Hstep.
  destruct Hstep as [Hw [Hfree' [Hinit' Hasync']]].
  specialize (IH m' ts' w' Hfree' Hinit' Hasync').
  destruct (Manager.run_calls cs m' ts' w') as [ts2 m2 w2|m2 w2|w2|];
    try exact IH; congruence.
Qed.

(** X28. In asynchronous mode the manager delivers nothing.  [initialize]
    with [async] on creates and starts an asynchronous logger, but no call
    of the manager ever registers a sink with it: [add_sink] fills the
    manager's own list, which [log] does not read while the asynchronous
    logger exists.  So after such an [initialize] on a new manager,
    whatever sinks are added, whatever is logged, and whatever steps the
    worker threads take in whatever order, no record is written to any
    sink, whether the run goes on, ends by an exception of [flush] or
    ends the process (a worker whose reservation fails does that); and
    none of these calls takes the manager's mutex twice. *)
Theorem async_manager_writes_no_record
  (config : Manager.LogConfig) (cs : list Manager.call) (w : World) :
  Manager.async config = true ->
  match Manager.run_calls (Manager.CallInitialize config :: cs)
                          Manager.new_manager [] w with
  | Manager.Finished _ _ w' => writes w' = writes w
  | Manager.Thrown _ w' => writes w' = writes w
  | Manager.Aborted w' => writes w' = writes w
  | Manager.SelfLocked => False
  end.
Proof.
  intros Hasync. cbn [Manager.run_calls Manager.perform].
  unfold Manager.initialize, Manager.lock_guard. cbn. rewrite Hasync.
  cbn [Manager.program_call].
  apply async_manager_run; [reflexivity | reflexivity |].
  eexists. split; [reflexivity|].
  unfold start. cbn. reflexivity.
Qed.

Lemma async_manager_writes_no_record_witness :
  let env := mkEnvironment true true in
  match Manager.run_calls
          [Manager.CallInitialize Manager.default_log_config;
           Manager.CallAddSink (BackendSink 1 TRACE never false);
           Manager.CallLog FATAL "disk failure" "main.cpp" 7 "main" 0 0;
           Manager.CallWorker 0 env; Manager.CallWorker 0 env;
           Manager.CallWorker 0 env; Manager.CallWorker 0 env;
           Manager.CallWorker 0 env; Manager.CallWorker 0 env;
           Manager.CallWorker 0 env; Manager.CallWorker 0 env;
           Manager.CallFlush]
          Manager.new_manager [] [] with
  | Manager.Finished _ _ w' => writes w' = writes []
  | Manager.Thrown _ w' => writes w' = writes []
  | Manager.Aborted w' => writes w' = writes []
  | Manager.SelfLocked => False
  end.
Proof.
  cbv zeta.
  apply (async_manager_writes_no_record Manager.default_log_config
           [Manager.CallAddSink (BackendSink 1 TRACE never false);
            Manager.CallLog FATAL "disk failure" "main.cpp" 7 "main" 0 0;
            Manager.CallWorker 0 (mkEnvironment true true);
            Manager.CallWorker 0 (mkEnvironment true true);
            Manager.CallWorker 0 (mkEnvironment true true);
            Manager.CallWorker 0 (mkEnvironment true true);
            Manager.CallWorker 0 (mkEnvironment true true);
            Manager.CallWorker 0 (mkEnvironment true true);
            Manager.CallWorker 0 (mkEnvironment true true);
            Manager.CallWorker 0 (mkEnvironment true true);
            Manager.CallFlush] [] eq_refl).
Defined.

(** The run of the witness above, evaluated: the FATAL record is popped by
    the worker and dispatched to nobody, the sink added to the manager
    sees only the flush.  And a worker whose reservation fails ends the
    process. *)
Example async_manager_run_evaluated :
  let env := mkEnvironment true true in
  let calls :=
    [Manager.CallInitialize Manager.default_log_config;
     Manager.CallAddSink (BackendSink 1 TRACE never false);
     Manager.CallLog FATAL "disk failure" "main.cpp" 7 "main" 0 0;
     Manager.CallWorker 0 env; Manager.CallWorker 0 env;
     Manager.CallWorker 0 env; Manager.CallWorker 0 env;
     Manager.CallWorker 0 env; Manager.CallWorker 0 env;
     Manager.CallWorker 0 env; Manager.CallWorker 0 env;
     Manager.CallFlush] in
  match Manager.run_calls calls Manager.new_manager [] [] with
  | Manager.Finished ts m w' =>
      ts = [AtLoopTest] /\ w' = [Flushed 1] /\
      option_map get_queue_size (Manager.async_logger_ m) = Some 0
  | _ => False
  end /\
  Manager.run_calls
    [Manager.CallInitialize Manager.default_log_config;
     Manager.CallWorker 0 (mkEnvironment false false)]
    Manager.new_manager [] []
  = Manager.Aborted [].
Proof. cbv zeta. split; vm_compute; repeat split. Qed.

Lemma sync_loop_is_process_message (sinks : list LogSink) (msg : LogMessage) :
  forall w, Manager.sync_loop sinks (level msg) msg w
            = process_message sinks msg w.
Proof.
  induction sinks as [|s sinks IH]; intros w; cbn; [reflexivity|].
  unfold Manager.sink_should_log.
  destruct (if should_log s (level msg) then sink_log s msg w else Ok w);
    cbn; [apply IH | reflexivity].
Qed.

(** X29. In synchronous mode [log] writes at once, behind two thresholds.
    Without an asynchronous logger, a record whose level is below the
    manager's level is dropped and nothing is touched; otherwise the record
    is written, before [log] returns, to the manager's sinks whose own
    threshold accepts it, in registration order, and an exception of a sink
    leaves [log]. *)
Theorem sync_manager_log_dispatches
  (m : Manager.t) (w : World) (l : LogLevel) (message file : string)
  (line : N) (function : string) (now thread : N) :
  Manager.mutex_ m = false ->
  Manager.async_logger_ m = None ->
  let msg := mkLogMessage l message file line function now thread in
  Manager.log l message file line function now thread m w
  = if level_ge l (Manager.level (Manager.config_ m))
    then match run_plan (dispatch_plan (Manager.sinks_ m) [msg]) w with
         | Ok w' => Manager.Finished tt m w'
         | Raised w' => Manager.Thrown m w'
         end
    else Manager.Finished tt m w.
Proof.
  intros Hfree Hsync. cbv zeta.
  destruct m as [cf a s n d i sd lk]. cbn in Hfree, Hsync. subst lk a.
  unfold Manager.log, Manager.should_log, Manager.lock_guard. cbn.
  destruct (level_ge l (Manager.level cf)); cbn; [|reflexivity].
  pose proof (sync_loop_is_process_message s
                (mkLogMessage l message file line function now thread) w)
    as Hloop.
  cbn [level] in Hloop. rewrite Hloop.
  rewrite process_message_plan. unfold dispatch_plan. cbn [flat_map].
  rewrite app_nil_r. reflexivity.
Qed.

Lemma sync_manager_log_dispatches_witness :
  Manager.log WARN "low disk space" "main.cpp" 7 "main" 0 0
    (Manager.mk (Manager.mkLogConfig INFO false false "" "" false true true
                                     true false 0 1 1 1 true false)
                None
                [BackendSink 1 DEBUG never false;
                 BackendSink 2 ERROR never false]
                [] "" true false false) []
  = Manager.Finished tt
      (Manager.mk (Manager.mkLogConfig INFO false false "" "" false true true
                                       true false 0 1 1 1 true false)
                  None
                  [BackendSink 1 DEBUG never false;
                   BackendSink 2 ERROR never false]
                  [] "" true false false)
      [Wrote 1 (mkLogMessage WARN "low disk space" "main.cpp" 7 "main" 0 0)].
Proof.
  exact (sync_manager_log_dispatches
           (Manager.mk (Manager.mkLogConfig INFO false false "" "" false true
                                            true true false 0 1 1 1 true false)
                       None
                       [BackendSink 1 DEBUG never false;
                        BackendSink 2 ERROR never false]
                       [] "" true false false)
           [] WARN "low disk space" "main.cpp" 7 "main" 0 0 eq_refl eq_refl).
Defined.
